(** * motion-svg: interpolation, outline morphing, timeline, trigger and
    playback engine — a shallow embedding and its verified properties.

    JavaScript numbers are modelled as real numbers ([R]): arithmetic is
    exact, and NaN and rounding error are outside the model.  Where the
    source distinguishes [Infinity] (loop iteration budgets) an extended
    number type is used.  Regular-expression matching and the conversion
    between numbers and text are primitives of the host: they are
    collected in the record [Host], together with the content of the
    easing registry (a table that plugins may write to), and every
    definition that needs one takes it as a section variable. *)

From Stdlib Require Import Reals Lra List String Ascii ZArith Lia Bool.
From Stdlib Require Import DecimalString DecimalNat Sorting.Sorted Permutation.
Import ListNotations.
Open Scope R_scope.

(* ------------------------------------------------------------------ *)
(** ** Numbers *)

Module Num.

Definition Rleb (a b : R) : bool := if Rle_dec a b then true else false.
Definition Rltb (a b : R) : bool := if Rlt_dec a b then true else false.
Definition Reqb (a b : R) : bool := if Req_dec_T a b then true else false.

(** [Math.floor], [Math.ceil] and [Math.round] (halves go up). *)
Definition floor (x : R) : Z := (up x - 1)%Z.
Definition ceil (x : R) : Z := (- floor (- x))%Z.
Definition round (x : R) : Z := floor (x + 1 / 2).

(** [Math.hypot] on two arguments. *)
Definition hypot (x y : R) : R := sqrt (x * x + y * y).

(** [Math.atan2 (y, x)]. *)
Definition atan2 (y x : R) : R :=
  if Rltb 0 x then atan (y / x)
  else if Rltb x 0 then
    (if Rleb 0 y then atan (y / x) + PI else atan (y / x) - PI)
  else if Rltb 0 y then PI / 2
  else if Rltb y 0 then - (PI / 2)
  else 0.

(** The non-null assertion [e!]: every path of the source that reaches
    one has the value present; [d] fills the case that cannot occur. *)
Definition bang {A : Type} (d : A) (o : option A) : A :=
  match o with Some v => v | None => d end.

Definition isSome {A : Type} (o : option A) : bool :=
  match o with Some _ => true | None => false end.

(** [a ?? b]. *)
Definition orElse {A : Type} (o : option A) (d : A) : A :=
  match o with Some v => v | None => d end.

End Num.
Import Num.

(* ------------------------------------------------------------------ *)
(** ** types.ts *)

Record Point := mkPoint { x : R; y : R }.

Inductive StrokeAlign := center | inside | outside.

(** [number | Point]. *)
Inductive Scale := ScaleNum (v : R) | ScalePoint (p : Point).

Record CubicBezierCurve :=
  mkCubicBezierCurve { bx1 : R; by1 : R; bx2 : R; by2 : R }.

(** [EasingName | CubicBezierCurve]; a name is the string the caller
    wrote. *)
Inductive EasingCurve :=
| EasingNamed (name : string)
| EasingBezier (c : CubicBezierCurve).

Record Keyframe := mkKeyframe {
  kf_at : R;
  position : option Point;
  scale : option Scale;
  rotation : option R;
  opacity : option R;
  fill : option string;
  stroke : option string;
  strokeWidth : option R;
  strokeAlign : option StrokeAlign;
  blurRadius : option R;
  backdropBlur : option R;
  width : option R;
  height : option R;
  pathD : option string;
  curve : option EasingCurve
}.

(** The keyframe [{ at: t }] with every optional field absent. *)
Definition kfAt (t : R) : Keyframe :=
  mkKeyframe t None None None None None None None None None None None None
    None None.

Record Timeline := mkTimeline {
  tl_id : string;
  tl_actorId : string;
  keyframes : list Keyframe;
  duration : R
}.

Inductive GradientUnits := userSpaceOnUse | objectBoundingBox.

Record GradientStop := mkStop {
  offset : R;
  color : string;
  stop_opacity : option R
}.

Record LinearGradientDef := mkLinear {
  lg_id : string;
  x1 : R; y1 : R; x2 : R; y2 : R;
  lg_stops : list GradientStop;
  lg_gradientUnits : option GradientUnits;
  lg_gradientTransform : option string
}.

Record RadialGradientDef := mkRadial {
  rg_id : string;
  cx : R; cy : R; r : R;
  fx : option R; fy : option R;
  rg_stops : list GradientStop;
  rg_gradientUnits : option GradientUnits;
  rg_gradientTransform : option string
}.

Inductive GradientDef :=
| Linear (g : LinearGradientDef)
| Radial (g : RadialGradientDef).

Definition g_id (g : GradientDef) : string :=
  match g with Linear l => lg_id l | Radial r => rg_id r end.
Definition stops (g : GradientDef) : list GradientStop :=
  match g with Linear l => lg_stops l | Radial r => rg_stops r end.
Definition gradientUnits (g : GradientDef) : option GradientUnits :=
  match g with
  | Linear l => lg_gradientUnits l
  | Radial r => rg_gradientUnits r
  end.

(** What the host supplies (see the header). *)
Record Host := mkHost {
  (** The easing registry [easingFunctions] as it is at the call: the
      built-in table, unless a plugin has written to it. *)
  easingRegistry : list (string * (R -> R));
  (** [cubicBezier(x1,y1,x2,y2)]: the Newton–Raphson / bisection solver,
      whose loops stop on a floating-point tolerance. *)
  cubicBezier : R -> R -> R -> R -> R -> R;
  (** [s.match(/-?\d*\.?\d+(?:e[+-]?\d+)?/gi).map(Number)]. *)
  parseNumbers : string -> list R;
  (** [Number.prototype.toString()]. *)
  numberToString : R -> string;
  (** [parseHexToRgb]: the three channels of a 3- or 6-digit hex colour. *)
  parseHexToRgb : string -> option (R * R * R);
  (** [ref.match(/url\(#(.+)\)/)?.[1]]. *)
  urlRefId : string -> option string
}.

(* ------------------------------------------------------------------ *)
(** ** easing/curves.ts *)

Module Easing.

Definition EasingFunction := R -> R.

Definition c1 : R := 1.70158.
Definition c2 : R := c1 * 1.525.
Definition c3 : R := c1 + 1.
Definition c4 : R := (2 * PI) / 3.
Definition c5 : R := (2 * PI) / 4.5.

(** [2 ** e]. *)
Definition pow2 (e : R) : R := Rpower 2 e.

Definition bounceOut (t : R) : R :=
  let n1 := 7.5625 in
  let d1 := 2.75 in
  if Rltb t (1 / d1) then n1 * t * t
  else if Rltb t (2 / d1) then
    let t := t - 1.5 / d1 in n1 * t * t + 0.75
  else if Rltb t (2.5 / d1) then
    let t := t - 2.25 / d1 in n1 * t * t + 0.9375
  else
    let t := t - 2.625 / d1 in n1 * t * t + 0.984375.

(** The table of named curves as the module makes it, in the order of
    the source. *)
Definition easingFunctions : list (string * EasingFunction) :=
  [ ("linear"%string, fun t => t);
    ("easeIn"%string, fun t => 1 - cos ((t * PI) / 2));
    ("easeOut"%string, fun t => sin ((t * PI) / 2));
    ("easeInOut"%string, fun t => - (cos (PI * t) - 1) / 2);
    ("easeInQuad"%string, fun t => t * t);
    ("easeOutQuad"%string, fun t => 1 - (1 - t) * (1 - t));
    ("easeInOutQuad"%string, fun t =>
       if Rltb t 0.5 then 2 * t * t else 1 - (-2 * t + 2) ^ 2 / 2);
    ("easeInCubic"%string, fun t => t * t * t);
    ("easeOutCubic"%string, fun t => 1 - (1 - t) ^ 3);
    ("easeInOutCubic"%string, fun t =>
       if Rltb t 0.5 then 4 * t * t * t else 1 - (-2 * t + 2) ^ 3 / 2);
    ("easeInQuart"%string, fun t => t * t * t * t);
    ("easeOutQuart"%string, fun t => 1 - (1 - t) ^ 4);
    ("easeInOutQuart"%string, fun t =>
       if Rltb t 0.5 then 8 * t * t * t * t else 1 - (-2 * t + 2) ^ 4 / 2);
    ("easeInBack"%string, fun t => c3 * t * t * t - c1 * t * t);
    ("easeOutBack"%string, fun t => 1 + c3 * (t - 1) ^ 3 + c1 * (t - 1) ^ 2);
    ("easeInOutBack"%string, fun t =>
       if Rltb t 0.5
       then ((2 * t) ^ 2 * ((c2 + 1) * 2 * t - c2)) / 2
       else ((2 * t - 2) ^ 2 * ((c2 + 1) * (t * 2 - 2) + c2) + 2) / 2);
    ("easeInElastic"%string, fun t =>
       if Reqb t 0 then 0 else if Reqb t 1 then 1
       else - (pow2 (10 * t - 10)) * sin ((t * 10 - 10.75) * c4));
    ("easeOutElastic"%string, fun t =>
       if Reqb t 0 then 0 else if Reqb t 1 then 1
       else pow2 (-10 * t) * sin ((t * 10 - 0.75) * c4) + 1);
    ("easeInOutElastic"%string, fun t =>
       if Reqb t 0 then 0 else if Reqb t 1 then 1
       else if Rltb t 0.5
       then - (pow2 (20 * t - 10) * sin ((20 * t - 11.125) * c5)) / 2
       else (pow2 (-20 * t + 10) * sin ((20 * t - 11.125) * c5)) / 2 + 1);
    ("easeInBounce"%string, fun t => 1 - bounceOut (1 - t));
    ("easeOutBounce"%string, bounceOut);
    ("easeInOutBounce"%string, fun t =>
       if Rltb t 0.5 then (1 - bounceOut (1 - 2 * t)) / 2
       else (1 + bounceOut (2 * t - 1)) / 2) ].

(** The names that [easingFunctions], a plain object, inherits from
    [Object.prototype]: for these [easingFunctions[name]] is the
    inherited member (not an easing), whatever the table holds. *)
Definition inheritedKeys : list string :=
  [ "constructor"; "hasOwnProperty"; "isPrototypeOf";
    "propertyIsEnumerable"; "toLocaleString"; "toString"; "valueOf";
    "__proto__"; "__defineGetter__"; "__defineSetter__";
    "__lookupGetter__"; "__lookupSetter__" ]%string.

(** [easingFunctions[name]] among the table's own keys: the value of
    the source for every name outside [inheritedKeys]. *)
Fixpoint lookup (name : string) (table : list (string * EasingFunction))
  : option EasingFunction :=
  match table with
  | [] => None
  | (k, f) :: rest => if String.eqb k name then Some f else lookup name rest
  end.

Definition linear : EasingFunction := fun t => t.

Section WithHost.
Variable host : Host.

(** Resolve an [EasingCurve] descriptor to a function.  [!curve] holds of
    [undefined] and of the empty string.  The fallback
    [easingFunctions.linear] is the built-in entry: a registry whose
    [linear] a plugin has replaced or deleted, and the names of
    [inheritedKeys], are outside this definition. *)
Definition getEasingFunction (curve : option EasingCurve) : EasingFunction :=
  match curve with
  | None => linear
  | Some (EasingNamed name) =>
      if String.eqb name "" then linear
      else orElse (lookup name (easingRegistry host)) linear
  | Some (EasingBezier c) =>
      cubicBezier host (bx1 c) (by1 c) (bx2 c) (by2 c)
  end.

End WithHost.
End Easing.

(** A host with the built-in easing table and primitives that do
    nothing, for concrete runs that never reach one. *)
Definition idleHost : Host :=
  mkHost Easing.easingFunctions (fun _ _ _ _ t => t) (fun _ => [])
    (fun _ => EmptyString) (fun _ => None) (fun _ => None).

(* ------------------------------------------------------------------ *)
(** ** timeline/pathMorph.ts *)

Module PathMorph.

Inductive CommandType := M | L | H | V | C | S | Q | T | A | Z.

Definition CommandType_eqb (a b : CommandType) : bool :=
  match a, b with
  | M, M | L, L | H, H | V, V | C, C | S, S | Q, Q | T, T | A, A | Z, Z => true
  | _, _ => false
  end.

Record PathCommand := mkCommand {
  type : CommandType;
  relative : bool;
  params : list R
}.

Record CubicSegment := mkSeg {
  cx1 : R; cy1 : R;
  cx2 : R; cy2 : R;
  x : R; y : R
}.

Record NormalizedPath := mkPath {
  startX : R;
  startY : R;
  segments : list CubicSegment;
  closed : bool
}.

(** [p[i]]; the parser only builds parameter lists of the full length. *)
Definition idx (p : list R) (i : nat) : R := nth i p 0.

(** *** Parsing *)

(** The command letters of [CMD_RE], with the relative flag. *)
Definition commandOfLetter (c : ascii) : option (CommandType * bool) :=
  match c with
  | "M"%char => Some (M, false) | "m"%char => Some (M, true)
  | "L"%char => Some (L, false) | "l"%char => Some (L, true)
  | "H"%char => Some (H, false) | "h"%char => Some (H, true)
  | "V"%char => Some (V, false) | "v"%char => Some (V, true)
  | "C"%char => Some (C, false) | "c"%char => Some (C, true)
  | "S"%char => Some (S, false) | "s"%char => Some (S, true)
  | "Q"%char => Some (Q, false) | "q"%char => Some (Q, true)
  | "T"%char => Some (T, false) | "t"%char => Some (T, true)
  | "A"%char => Some (A, false) | "a"%char => Some (A, true)
  | "Z"%char => Some (Z, false) | "z"%char => Some (Z, true)
  | _ => None
  end.

(** White space removed by [trim] (the ASCII part of it). *)
Definition isSpace (c : ascii) : bool :=
  let n := nat_of_ascii c in
  ((9 <=? n) && (n <=? 13) || (n =? 32))%nat.

Fixpoint allSpace (s : string) : bool :=
  match s with
  | EmptyString => true
  | String c rest => isSpace c && allSpace rest
  end.

(** [d.split(CMD_RE)]: the text between command letters and the letters
    themselves, in order ([acc] is the text read so far). *)
Fixpoint splitCmd (d : string) (acc : string) : list string :=
  match d with
  | EmptyString => [acc]
  | String c rest =>
      match commandOfLetter c with
      | Some _ => acc :: String c EmptyString :: splitCmd rest EmptyString
      | None => splitCmd rest (acc ++ String c EmptyString)
      end
  end.

(** [tokens = d.split(CMD_RE).filter(s => s.trim().length > 0)]. *)
Definition tokenize (d : string) : list string :=
  filter (fun s => negb (allSpace s)) (splitCmd d EmptyString).

(** [/^[MmLlHhVvCcSsQqTtAaZz]$/.test(raw.trim())]: a token that holds a
    command letter holds nothing else. *)
Definition letterOf (raw : string) : option (CommandType * bool) :=
  match raw with
  | String c EmptyString => commandOfLetter c
  | _ => None
  end.

Definition paramCounts (ty : CommandType) : nat :=
  match ty with
  | M => 2 | L => 2 | H => 1 | V => 1 | C => 6 | S => 4 | Q => 4 | T => 2
  | A => 7 | Z => 0
  end%nat.

Definition toAbsolute (ty : CommandType) (p : list R) (curX curY : R)
  (isRelative : bool) : list R :=
  if negb isRelative then p
  else match ty with
  | M | L | T => [idx p 0 + curX; idx p 1 + curY]
  | H => [idx p 0 + curX]
  | V => [idx p 0 + curY]
  | C => [idx p 0 + curX; idx p 1 + curY; idx p 2 + curX; idx p 3 + curY;
          idx p 4 + curX; idx p 5 + curY]
  | S | Q => [idx p 0 + curX; idx p 1 + curY; idx p 2 + curX; idx p 3 + curY]
  | A => [idx p 0; idx p 1; idx p 2; idx p 3; idx p 4;
          idx p 5 + curX; idx p 6 + curY]
  | Z => p
  end.

(** The parser's running cursor. *)
Record Cursor := mkCursor {
  curX : R; curY : R; subStartX : R; subStartY : R
}.

Definition moveCursor (ty : CommandType) (abs : list R) (c : Cursor)
  : Cursor :=
  match ty with
  | M => mkCursor (idx abs 0) (idx abs 1) (idx abs 0) (idx abs 1)
  | L | T => mkCursor (idx abs 0) (idx abs 1) (subStartX c) (subStartY c)
  | H => mkCursor (idx abs 0) (curY c) (subStartX c) (subStartY c)
  | V => mkCursor (curX c) (idx abs 0) (subStartX c) (subStartY c)
  | C => mkCursor (idx abs 4) (idx abs 5) (subStartX c) (subStartY c)
  | S | Q => mkCursor (idx abs 2) (idx abs 3) (subStartX c) (subStartY c)
  | A => mkCursor (idx abs 5) (idx abs 6) (subStartX c) (subStartY c)
  | Z => c
  end.

(** The loop over the parameter groups of one command: [nums] is what
    is left of the numbers, [first] tells the first group (where
    [j > count] fails).  Each round takes [count >= 1] numbers, so the
    length of [nums] bounds the rounds ([fuel]). *)
Fixpoint groups (fuel : nat) (ty : CommandType) (isRelative : bool)
  (nums : list R) (first : bool) (c : Cursor)
  : list PathCommand * Cursor :=
  match fuel with
  | O => ([], c)
  | Datatypes.S fuel' =>
      let count := paramCounts ty in
      let group := firstn count nums in
      if (List.length group <? count)%nat then ([], c)
      else
        let abs := toAbsolute ty group (curX c) (curY c) isRelative in
        let implicitType :=
          if CommandType_eqb ty M && negb first then L else ty in
        let c' := moveCursor ty abs c in
        let (cmds, c'') :=
          groups fuel' ty isRelative (skipn count nums) false c' in
        (mkCommand implicitType false abs :: cmds, c'')
  end.


Section WithHost.
Variable host : Host.

(** One command of [parsePathD]: the commands it pushes and the cursor
    it leaves.  [Z] ignores its parameter text. *)
Definition command (ty : CommandType) (isRelative : bool)
  (paramStr : string) (c : Cursor) : list PathCommand * Cursor :=
  let nums := parseNumbers host paramStr in
  match ty with
  | Z =>
      ([mkCommand Z false []],
       mkCursor (subStartX c) (subStartY c) (subStartX c) (subStartY c))
  | _ => groups (Datatypes.S (List.length nums)) ty isRelative nums true c
  end.

(** The main loop of [parsePathD] over the tokens: a command letter takes
    the token after it ([tokens[i + 1] ?? '']) as its parameter text,
    whatever that token is, and the loop goes on two tokens further. *)
Fixpoint parseTokens (tokens : list string) (c : Cursor)
  : list PathCommand :=
  match tokens with
  | [] => []
  | raw :: rest =>
      match letterOf raw with
      | None => parseTokens rest c
      | Some (ty, isRelative) =>
          let (cmds, c') :=
            command ty isRelative (hd EmptyString rest) c in
          cmds ++ match rest with
                  | [] => []
                  | _ :: rest' => parseTokens rest' c'
                  end
      end
  end.

Definition parsePathD (d : string) : list PathCommand :=
  parseTokens (tokenize d) (mkCursor 0 0 0 0).

End WithHost.

(** *** Normalize to cubic *)

Definition lineToCubic (x1 y1 x2 y2 : R) : CubicSegment :=
  mkSeg (x1 + (x2 - x1) / 3) (y1 + (y2 - y1) / 3)
        (x1 + 2 * (x2 - x1) / 3) (y1 + 2 * (y2 - y1) / 3)
        x2 y2.

Definition quadToCubic (x0 y0 qx qy x y : R) : CubicSegment :=
  mkSeg (x0 + 2 / 3 * (qx - x0)) (y0 + 2 / 3 * (qy - y0))
        (x + 2 / 3 * (qx - x)) (y + 2 / 3 * (qy - y))
        x y.

Definition angleBetween (ux uy vx vy : R) : R :=
  let dot := ux * vx + uy * vy in
  let len := sqrt (ux * ux + uy * uy) * sqrt (vx * vx + vy * vy) in
  let angle := acos (Rmax (-1) (Rmin 1 (dot / len))) in
  if Rltb (ux * vy - uy * vx) 0 then - angle else angle.

Definition arcSegmentToCubic (cx cy rx ry phi theta1 theta2 : R)
  : CubicSegment :=
  let alpha :=
    sin (theta2 - theta1)
    * (sqrt (4 + 3 * tan ((theta2 - theta1) / 2) ^ 2) - 1) / 3 in
  let cosPhi := cos phi in
  let sinPhi := sin phi in
  let p1x := rx * cos theta1 in
  let p1y := ry * sin theta1 in
  let p2x := rx * cos theta2 in
  let p2y := ry * sin theta2 in
  let d1x := - rx * sin theta1 in
  let d1y := ry * cos theta1 in
  let d2x := - rx * sin theta2 in
  let d2y := ry * cos theta2 in
  mkSeg
    (cx + cosPhi * (p1x + alpha * d1x) - sinPhi * (p1y + alpha * d1y))
    (cy + sinPhi * (p1x + alpha * d1x) + cosPhi * (p1y + alpha * d1y))
    (cx + cosPhi * (p2x - alpha * d2x) - sinPhi * (p2y - alpha * d2y))
    (cy + sinPhi * (p2x - alpha * d2x) + cosPhi * (p2y - alpha * d2y))
    (cx + cosPhi * p2x - sinPhi * p2y)
    (cy + sinPhi * p2x + cosPhi * p2y).

Definition arcToCubics (x1 y1 rx ry xAxisRotation largeArc sweep x2 y2 : R)
  : list CubicSegment :=
  if Reqb rx 0 || Reqb ry 0 then [lineToCubic x1 y1 x2 y2]
  else
    let phi := (xAxisRotation * PI) / 180 in
    let cosPhi := cos phi in
    let sinPhi := sin phi in
    (* Step 1: centre *)
    let dx2 := (x1 - x2) / 2 in
    let dy2 := (y1 - y2) / 2 in
    let x1p := cosPhi * dx2 + sinPhi * dy2 in
    let y1p := - sinPhi * dx2 + cosPhi * dy2 in
    let x1pSq := x1p * x1p in
    let y1pSq := y1p * y1p in
    let lambda := x1pSq / (rx * rx) + y1pSq / (ry * ry) in
    let grow := Rltb 1 lambda in
    let rx := if grow then rx * sqrt lambda else rx in
    let ry := if grow then ry * sqrt lambda else ry in
    let rxSq := rx * rx in
    let rySq := ry * ry in
    let num0 := rxSq * rySq - rxSq * y1pSq - rySq * x1pSq in
    let den := rxSq * y1pSq + rySq * x1pSq in
    let num := if Rltb num0 0 then 0 else num0 in
    let sq := sqrt (num / den) in
    let sign := if Reqb largeArc sweep then -1 else 1 in
    let cxp := sign * sq * (rx * y1p / ry) in
    let cyp := sign * sq * - (ry * x1p / rx) in
    let cx := cosPhi * cxp - sinPhi * cyp + (x1 + x2) / 2 in
    let cy := sinPhi * cxp + cosPhi * cyp + (y1 + y2) / 2 in
    (* Step 2: angles *)
    let theta1 := angleBetween 1 0 ((x1p - cxp) / rx) ((y1p - cyp) / ry) in
    let dtheta0 :=
      angleBetween ((x1p - cxp) / rx) ((y1p - cyp) / ry)
                   ((- x1p - cxp) / rx) ((- y1p - cyp) / ry) in
    let dtheta1 :=
      if Reqb sweep 0 && Rltb 0 dtheta0 then dtheta0 - 2 * PI
      else dtheta0 in
    let dtheta :=
      if Reqb sweep 1 && Rltb dtheta1 0 then dtheta1 + 2 * PI
      else dtheta1 in
    (* Step 3: pieces of at most a quarter turn *)
    let segCount := Z.to_nat (ceil (Rabs dtheta / (PI / 2))) in
    let segAngle := dtheta / INR segCount in
    map (fun i : nat =>
           arcSegmentToCubic cx cy rx ry phi
             (theta1 + INR i * segAngle)
             (theta1 + (INR i + 1) * segAngle))
        (seq 0 segCount).

(** The variables of the loop of [normalizeToCubic]. *)
Record NormState := mkNorm {
  nCurX : R; nCurY : R;
  nStartX : R; nStartY : R;
  lastCx : R; lastCy : R;
  lastQx : R; lastQy : R;
  lastType : CommandType;
  nSegments : list CubicSegment;
  pathStartX : R; pathStartY : R
}.

Definition normInit : NormState := mkNorm 0 0 0 0 0 0 0 0 M [] 0 0.

(** One round of the loop, [lastType = cmd.type] at its end included. *)
Definition normStep (st : NormState) (cmd : PathCommand) : NormState :=
  let p := params cmd in
  let '(mkNorm curX curY startX startY lCx lCy lQx lQy lTy segs psX psY) :=
    st in
  let ty := type cmd in
  match ty with
  | M =>
      mkNorm (idx p 0) (idx p 1) (idx p 0) (idx p 1) lCx lCy lQx lQy ty
        segs (idx p 0) (idx p 1)
  | L =>
      mkNorm (idx p 0) (idx p 1) startX startY lCx lCy lQx lQy ty
        (segs ++ [lineToCubic curX curY (idx p 0) (idx p 1)]) psX psY
  | H =>
      mkNorm (idx p 0) curY startX startY lCx lCy lQx lQy ty
        (segs ++ [lineToCubic curX curY (idx p 0) curY]) psX psY
  | V =>
      mkNorm curX (idx p 0) startX startY lCx lCy lQx lQy ty
        (segs ++ [lineToCubic curX curY curX (idx p 0)]) psX psY
  | C =>
      mkNorm (idx p 4) (idx p 5) startX startY (idx p 2) (idx p 3) lQx lQy ty
        (segs ++ [mkSeg (idx p 0) (idx p 1) (idx p 2) (idx p 3)
                    (idx p 4) (idx p 5)]) psX psY
  | S =>
      let smooth := CommandType_eqb lTy C || CommandType_eqb lTy S in
      let rcx := if smooth then 2 * curX - lCx else curX in
      let rcy := if smooth then 2 * curY - lCy else curY in
      mkNorm (idx p 2) (idx p 3) startX startY (idx p 0) (idx p 1) lQx lQy ty
        (segs ++ [mkSeg rcx rcy (idx p 0) (idx p 1) (idx p 2) (idx p 3)])
        psX psY
  | Q =>
      mkNorm (idx p 2) (idx p 3) startX startY lCx lCy (idx p 0) (idx p 1) ty
        (segs ++ [quadToCubic curX curY (idx p 0) (idx p 1)
                    (idx p 2) (idx p 3)]) psX psY
  | T =>
      let smooth := CommandType_eqb lTy Q || CommandType_eqb lTy T in
      let rqx := if smooth then 2 * curX - lQx else curX in
      let rqy := if smooth then 2 * curY - lQy else curY in
      mkNorm (idx p 0) (idx p 1) startX startY lCx lCy rqx rqy ty
        (segs ++ [quadToCubic curX curY rqx rqy (idx p 0) (idx p 1)])
        psX psY
  | A =>
      mkNorm (idx p 5) (idx p 6) startX startY lCx lCy lQx lQy ty
        (segs ++ arcToCubics curX curY (idx p 0) (idx p 1) (idx p 2)
                   (idx p 3) (idx p 4) (idx p 5) (idx p 6)) psX psY
  | Z =>
      let segs' :=
        if negb (Reqb curX startX) || negb (Reqb curY startY)
        then segs ++ [lineToCubic curX curY startX startY]
        else segs in
      mkNorm startX startY startX startY lCx lCy lQx lQy ty segs' psX psY
  end.

Definition normalizeToCubic (commands : list PathCommand) : NormalizedPath :=
  let st := fold_left normStep commands normInit in
  mkPath (pathStartX st) (pathStartY st) (nSegments st)
    (match commands with
     | [] => false
     | _ => CommandType_eqb (type (last commands (mkCommand M false []))) Z
     end).

(** *** Balance commands *)

Definition lerp (a b t : R) : R := a + (b - a) * t.

(** Approximate segment length: chord and control polygon, averaged. *)
Definition segmentLength (startX startY : R) (s : CubicSegment) : R :=
  let chord := hypot (x s - startX) (y s - startY) in
  let controlNet :=
    hypot (cx1 s - startX) (cy1 s - startY)
    + hypot (cx2 s - cx1 s) (cy2 s - cy1 s)
    + hypot (x s - cx2 s) (y s - cy2 s) in
  (chord + controlNet) / 2.

(** Split a cubic at parameter [t] (De Casteljau). *)
Definition splitCubicAt (x0 y0 : R) (seg : CubicSegment) (t : R)
  : CubicSegment * CubicSegment :=
  let '(mkSeg cx1 cy1 cx2 cy2 x y) := seg in
  let ax := lerp x0 cx1 t in
  let ay := lerp y0 cy1 t in
  let bx := lerp cx1 cx2 t in
  let by_ := lerp cy1 cy2 t in
  let cx := lerp cx2 x t in
  let cy := lerp cy2 y t in
  let dx := lerp ax bx t in
  let dy := lerp ay by_ t in
  let ex := lerp bx cx t in
  let ey := lerp by_ cy t in
  let fx := lerp dx ex t in
  let fy := lerp dy ey t in
  (mkSeg ax ay dx dy fx fy, mkSeg ex ey cx cy x y).

(** The first loop of [subdivideAtLongest]: the index of the first
    segment of greatest length ([i] is the index of the head of
    [segs]). *)
Fixpoint findLongest (segs : list CubicSegment) (i : nat) (prevX prevY : R)
  (longestIdx : nat) (longestLen : R) : nat :=
  match segs with
  | [] => longestIdx
  | s :: rest =>
      let len := segmentLength prevX prevY s in
      if Rltb longestLen len
      then findLongest rest (Datatypes.S i) (x s) (y s) i len
      else findLongest rest (Datatypes.S i) (x s) (y s) longestIdx longestLen
  end.

(** The second loop: the point where segment [longestIdx] starts. *)
Definition startOf (segments : list CubicSegment) (longestIdx : nat)
  (startX startY : R) : R * R :=
  fold_left (fun (_ : R * R) s => (x s, y s)) (firstn longestIdx segments)
    (startX, startY).

Definition subdivideAtLongest (segments : list CubicSegment)
  (startX startY : R) : list CubicSegment :=
  match segments with
  | [] => segments
  | _ =>
      let longestIdx := findLongest segments 0 startX startY 0 0 in
      let (sx, sy) := startOf segments longestIdx startX startY in
      match nth_error segments longestIdx with
      | None => segments (* [longestIdx] is an index of [segments] *)
      | Some seg =>
          let (first, second) := splitCubicAt sx sy seg 0.5 in
          firstn longestIdx segments ++ [first; second]
            ++ skipn (Datatypes.S longestIdx) segments
      end
  end.

(** [while (segs.length < target) segs = subdivideAtLongest(segs, ..)],
    with [fuel] rounds at most: [None] when the loop is still running
    after them. *)
Fixpoint grow (fuel : nat) (segs : list CubicSegment) (target : nat)
  (startX startY : R) : option (list CubicSegment) :=
  if (List.length segs <? target)%nat then
    match fuel with
    | O => None
    | Datatypes.S fuel' =>
        grow fuel' (subdivideAtLongest segs startX startY) target
          startX startY
    end
  else Some segs.

Definition balanceCommands (fuel : nat) (a b : NormalizedPath)
  : option (NormalizedPath * NormalizedPath) :=
  match grow fuel (segments a) (List.length (segments b))
          (startX a) (startY a) with
  | None => None
  | Some segsA =>
      match grow fuel (segments b) (List.length segsA)
              (startX b) (startY b) with
      | None => None
      | Some segsB =>
          Some (mkPath (startX a) (startY a) segsA (closed a),
                mkPath (startX b) (startY b) segsB (closed b))
      end
  end.

(** *** Lerp path *)

Section WithHostLerp.
Variable host : Host.

(** [(Math.round(n * 1000) / 1000).toString()]. *)
Definition round (n : R) : string :=
  numberToString host (IZR (Num.round (n * 1000)) / 1000).

(** The loop of [lerpPath] over the segments of the two balanced paths,
    which have the same number of segments. *)
Fixpoint lerpSegments (sa sb : list CubicSegment) (t : R) : string :=
  match sa, sb with
  | a :: sa', b :: sb' =>
      (" C" ++ round (lerp (cx1 a) (cx1 b) t) ++ ","
            ++ round (lerp (cy1 a) (cy1 b) t)
       ++ " " ++ round (lerp (cx2 a) (cx2 b) t) ++ ","
              ++ round (lerp (cy2 a) (cy2 b) t)
       ++ " " ++ round (lerp (x a) (x b) t) ++ ","
              ++ round (lerp (y a) (y b) t)
       ++ lerpSegments sa' sb' t)%string
  | _, _ => EmptyString
  end.

Definition lerpPath (fuel : nat) (pathA pathB : string) (t : R)
  : option string :=
  if Rleb t 0 then Some pathA
  else if Rleb 1 t then Some pathB
  else
    match balanceCommands fuel
            (normalizeToCubic (parsePathD host pathA))
            (normalizeToCubic (parsePathD host pathB)) with
    | None => None
    | Some (normA, normB) =>
        let sx := lerp (startX normA) (startX normB) t in
        let sy := lerp (startY normA) (startY normB) t in
        Some ("M" ++ round sx ++ "," ++ round sy
              ++ lerpSegments (segments normA) (segments normB) t
              ++ (if closed normA && closed normB then " Z" else ""))%string
    end.

End WithHostLerp.
End PathMorph.

(* ------------------------------------------------------------------ *)
(** ** core/PluginSystem.ts and timeline/interpolate.ts *)

Module Interpolate.

Record ActorState := mkState {
  s_position : Point;
  s_scale : Scale;
  s_rotation : R;
  s_opacity : R;
  s_fill : option string;
  s_stroke : option string;
  s_strokeWidth : option R;
  s_strokeAlign : option StrokeAlign;
  s_blurRadius : option R;
  s_backdropBlur : option R;
  s_width : option R;
  s_height : option R;
  s_fillGradient : option GradientDef;
  s_strokeGradient : option GradientDef;
  s_pathD : option string
}.

Record InterpolateOptions := mkOptions {
  gradients : option (list GradientDef);
  actorId : option string
}.

(** The two hooks of [MotionSvgHooks] that the engine runs. *)
Record MotionSvgPlugin := mkPlugin {
  name : string;
  beforeInterpolate : option (list Keyframe -> R -> list Keyframe);
  afterInterpolate : option (ActorState -> string -> R -> ActorState)
}.

Inductive HookName := BeforeInterpolate | AfterInterpolate.

(** What a call of the engine can change or observe around it: the
    module's gradient-id counter, the text of the clock
    ([Date.now().toString(36)]) and the record of the plugin hooks that
    were invoked, latest first. *)
Record World := mkWorld {
  _gradIdCounter : nat;
  now36 : string;
  hookLog : list (string * HookName)
}.

(** Computations over the world that may still be running when the fuel
    of a loop is used up ([None]). *)
Definition Eff (A : Type) : Type := World -> option (A * World).

Definition ret {A : Type} (a : A) : Eff A := fun w => Some (a, w).
Definition bind {A B : Type} (m : Eff A) (k : A -> Eff B) : Eff B :=
  fun w => match m w with
           | None => None
           | Some (a, w') => k a w'
           end.
Definition lift {A : Type} (o : option A) : Eff A :=
  fun w => match o with None => None | Some a => Some (a, w) end.

Notation "x <- m ;; k" := (bind m (fun x => k))
  (at level 61, m at next level, right associativity).

(** [++_gradIdCounter]. *)
Definition nextGradId : Eff nat :=
  fun w =>
    let n := Datatypes.S (_gradIdCounter w) in
    Some (n, mkWorld n (now36 w) (hookLog w)).

Definition readClock : Eff string := fun w => Some (now36 w, w).

Definition logHook (plugin : string) (h : HookName) : Eff unit :=
  fun w =>
    Some (tt, mkWorld (_gradIdCounter w) (now36 w) ((plugin, h) :: hookLog w)).

(** *** The plugin manager *)

Definition hasBefore (plugins : list MotionSvgPlugin) : bool :=
  existsb (fun p => isSome (beforeInterpolate p)) plugins.
Definition hasAfter (plugins : list MotionSvgPlugin) : bool :=
  existsb (fun p => isSome (afterInterpolate p)) plugins.

(** [plugins.run('beforeInterpolate', keyframes, timeMs)]: each plugin
    that has the hook gets the result of the one before it. *)
Fixpoint runBefore (plugins : list MotionSvgPlugin) (kfs : list Keyframe)
  (timeMs : R) : Eff (list Keyframe) :=
  match plugins with
  | [] => ret kfs
  | p :: rest =>
      match beforeInterpolate p with
      | None => runBefore rest kfs timeMs
      | Some hook =>
          _ <- logHook (name p) BeforeInterpolate ;;
          runBefore rest (hook kfs timeMs) timeMs
      end
  end.

Fixpoint runAfter (plugins : list MotionSvgPlugin) (state : ActorState)
  (actor : string) (timeMs : R) : Eff ActorState :=
  match plugins with
  | [] => ret state
  | p :: rest =>
      match afterInterpolate p with
      | None => runAfter rest state actor timeMs
      | Some hook =>
          _ <- logHook (name p) AfterInterpolate ;;
          runAfter rest (hook state actor timeMs) actor timeMs
      end
  end.

(** *** Numeric lerp *)

Definition lerp (a b t : R) : R := a + (b - a) * t.

Definition lerpPoint (a b : Point) (t : R) : Point :=
  mkPoint (lerp (x a) (x b) t) (lerp (y a) (y b) t).

Definition lerpScale (a b : Scale) (t : R) : Scale :=
  let ax := match a with ScaleNum v => v | ScalePoint p => x p end in
  let ay := match a with ScaleNum v => v | ScalePoint p => y p end in
  let bx := match b with ScaleNum v => v | ScalePoint p => x p end in
  let by_ := match b with ScaleNum v => v | ScalePoint p => y p end in
  let rx := lerp ax bx t in
  let ry := lerp ay by_ t in
  if Rltb (Rabs (rx - ry)) 0.0001 then ScaleNum rx
  else ScalePoint (mkPoint rx ry).

(** *** Colour lerp (hex only) *)

Definition hexDigit (n : nat) : ascii :=
  match n with
  | 0 => "0" | 1 => "1" | 2 => "2" | 3 => "3" | 4 => "4" | 5 => "5"
  | 6 => "6" | 7 => "7" | 8 => "8" | 9 => "9" | 10 => "a" | 11 => "b"
  | 12 => "c" | 13 => "d" | 14 => "e" | _ => "f"
  end%nat%char.

(** [clamp(v).toString(16).padStart(2, '0')]. *)
Definition hex (v : R) : string :=
  let clamp := Z.to_nat (Z.max 0 (Z.min 255 (Num.round v))) in
  String (hexDigit (clamp / 16)) (String (hexDigit (clamp mod 16)) "").

Definition rgbToHex (r g b : R) : string :=
  ("#" ++ hex r ++ hex g ++ hex b)%string.

Section WithHost.
Variable host : Host.

(** The blend of two colours that are both hex, or the snap. *)
Definition blendHex (ca cb : string) (t : R) : string :=
  match parseHexToRgb host ca, parseHexToRgb host cb with
  | Some (ra, ga, ba), Some (rb, gb, bb) =>
      rgbToHex (ra + (rb - ra) * t) (ga + (gb - ga) * t) (ba + (bb - ba) * t)
  | _, _ => if Rltb t 0.5 then ca else cb
  end.

(** [!a] of a string holds of the empty string. *)
Definition falsy (s : string) : bool := String.eqb s "".

Definition lerpColor (a b : string) (t : R) : option string :=
  if falsy a && falsy b then None
  else if falsy a then Some b
  else if falsy b then Some a
  else if String.eqb a b then Some a
  else Some (blendHex a b t).

(** *** Gradient stops *)

(** The inner loop of [normalizeStops]: the first pair of neighbours
    around [targetOffset], or the given first and last stop. *)
Fixpoint surrounding (stops : list GradientStop) (targetOffset : R)
  (lo hi : GradientStop) : GradientStop * GradientStop :=
  match stops with
  | sj :: ((sj1 :: _) as rest) =>
      if Rleb (offset sj) targetOffset && Rleb targetOffset (offset sj1)
      then (sj, sj1)
      else surrounding rest targetOffset lo hi
  | _ => (lo, hi)
  end.

Definition evenOffset (count i : nat) : R :=
  if (1 <? count)%nat then INR i / INR (count - 1) else 0.

Definition black : GradientStop := mkStop 0 "#000000" None.

(** One round of the outer loop of [normalizeStops]. *)
Definition resample (stops : list GradientStop) (count i : nat)
  : GradientStop :=
  let targetOffset := evenOffset count i in
  let (lo, hi) :=
    surrounding stops targetOffset (hd black stops) (last stops black) in
  let range := offset hi - offset lo in
  let localT :=
    if Rltb 0 range then (targetOffset - offset lo) / range else 0 in
  mkStop targetOffset
    (blendHex (color lo) (color hi) localT)
    (if isSome (stop_opacity lo) || isSome (stop_opacity hi)
     then Some (lerp (orElse (stop_opacity lo) 1)
                     (orElse (stop_opacity hi) 1) localT)
     else None).

(** Make a stop list [count] stops long. *)
Definition normalizeStops (stops : list GradientStop) (count : nat)
  : list GradientStop :=
  if (List.length stops =? count)%nat then stops
  else if (List.length stops =? 0)%nat then
    map (fun i => mkStop (evenOffset count i) "#000000" None) (seq 0 count)
  else map (resample stops count) (seq 0 count).

(** The blend of the stops [sa] (at index [i]) and [stopsB[i] ?? sa]. *)
Definition lerpStop (stopsB : list GradientStop) (t : R)
  (i : nat) (sa : GradientStop) : GradientStop :=
  let sb := orElse (nth_error stopsB i) sa in
  mkStop (lerp (offset sa) (offset sb) t)
    (blendHex (color sa) (color sb) t)
    (if isSome (stop_opacity sa) || isSome (stop_opacity sb)
     then Some (lerp (orElse (stop_opacity sa) 1)
                     (orElse (stop_opacity sb) 1) t)
     else None).

(** [xs.map((x, i) => f(i, x))]. *)
Fixpoint mapi {A B : Type} (f : nat -> A -> B) (i : nat) (xs : list A)
  : list B :=
  match xs with
  | [] => []
  | a :: rest => f i a :: mapi f (Datatypes.S i) rest
  end.

Definition decimal (n : nat) : string :=
  NilEmpty.string_of_uint (Nat.to_uint n).

(** A fresh gradient id: [`__<tag>_${++_gradIdCounter}_${clock}`]. *)
Definition freshId (tag : string) : Eff string :=
  n <- nextGradId ;;
  clock <- readClock ;;
  ret ("__" ++ tag ++ "_" ++ decimal n ++ "_" ++ clock)%string.

Definition firstSome {A : Type} (a b : option A) : option A :=
  match a with Some _ => a | None => b end.

(** The geometry of the blend of two linear gradients, in polar form:
    centre, half length and angle along the shorter way round. *)
Definition lerpLinear (id : string) (stops : list GradientStop)
  (a b : LinearGradientDef) (t : R) : LinearGradientDef :=
  let cxA := (x1 a + x2 a) / 2 in
  let cyA := (y1 a + y2 a) / 2 in
  let cxB := (x1 b + x2 b) / 2 in
  let cyB := (y1 b + y2 b) / 2 in
  let dxA := x2 a - x1 a in
  let dyA := y2 a - y1 a in
  let dxB := x2 b - x1 b in
  let dyB := y2 b - y1 b in
  let lenA := sqrt (dxA * dxA + dyA * dyA) / 2 in
  let lenB := sqrt (dxB * dxB + dyB * dyB) / 2 in
  let angA := atan2 dyA dxA in
  let angB := atan2 dyB dxB in
  let delta0 := angB - angA in
  let delta1 := if Rltb PI delta0 then delta0 - 2 * PI else delta0 in
  let delta := if Rltb delta1 (- PI) then delta1 + 2 * PI else delta1 in
  let ang := angA + delta * t in
  let cx := lerp cxA cxB t in
  let cy := lerp cyA cyB t in
  let len := lerp lenA lenB t in
  mkLinear id
    (cx - len * cos ang) (cy - len * sin ang)
    (cx + len * cos ang) (cy + len * sin ang)
    stops
    (firstSome (lg_gradientUnits b) (lg_gradientUnits a))
    None.

Definition lerpRadial (id : string) (stops : list GradientStop)
  (a b : RadialGradientDef) (t : R) : RadialGradientDef :=
  mkRadial id
    (lerp (cx a) (cx b) t) (lerp (cy a) (cy b) t) (lerp (r a) (r b) t)
    (if isSome (fx a) || isSome (fx b)
     then Some (lerp (orElse (fx a) (cx a)) (orElse (fx b) (cx b)) t)
     else None)
    (if isSome (fy a) || isSome (fy b)
     then Some (lerp (orElse (fy a) (cy a)) (orElse (fy b) (cy b)) t)
     else None)
    stops
    (firstSome (rg_gradientUnits b) (rg_gradientUnits a))
    None.

(** [{ ...g, id, stops }]. *)
Definition withIdStops (g : GradientDef) (id : string)
  (stops : list GradientStop) : GradientDef :=
  match g with
  | Linear l =>
      Linear (mkLinear id (x1 l) (y1 l) (x2 l) (y2 l) stops
                (lg_gradientUnits l) (lg_gradientTransform l))
  | Radial g =>
      Radial (mkRadial id (cx g) (cy g) (r g) (fx g) (fy g) stops
                (rg_gradientUnits g) (rg_gradientTransform g))
  end.

(** Interpolate between two gradient definitions. *)
Definition lerpGradientDef (a b : GradientDef) (t : R) : Eff GradientDef :=
  let count := Nat.max (List.length (stops a)) (List.length (stops b)) in
  let stopsA := normalizeStops (stops a) count in
  let stopsB := normalizeStops (stops b) count in
  let stops := mapi (lerpStop stopsB t) 0 stopsA in
  id <- freshId "interp" ;;
  match a, b with
  | Linear la, Linear lb => ret (Linear (lerpLinear id stops la lb t))
  | Radial ra, Radial rb => ret (Radial (lerpRadial id stops ra rb t))
  | _, _ =>
      if Rltb t 0.5 then ret (withIdStops a id stops)
      else ret (withIdStops b id stops)
  end.

(** *** Colour / gradient interpolation *)

Record ColorResult := mkColorResult {
  cr_color : option string;
  cr_gradient : option GradientDef
}.

Definition noColor : ColorResult := mkColorResult None None.
Definition colorOnly (c : string) : ColorResult :=
  mkColorResult (Some c) None.

Definition isUrl (s : string) : bool := String.prefix "url(" s.

Definition resolveGradient (ref : string) (gradients : list GradientDef)
  : option GradientDef :=
  match urlRefId host ref with
  | None => None
  | Some id => find (fun g => String.eqb (g_id g) id) gradients
  end.

(** Both branches of the source give the value as colour and no
    gradient. *)
Definition resolveResult (value : string) (gradients : list GradientDef)
  : ColorResult :=
  if isUrl value then
    match resolveGradient value gradients with
    | Some _ => mkColorResult (Some value) None
    | None => colorOnly value
    end
  else colorOnly value.

(** A gradient of one colour with the shape of [target]. *)
Definition colorToUniformGradient (color : string) (target : GradientDef)
  : Eff GradientDef :=
  let uniform :=
    map (fun s => mkStop (offset s) color (stop_opacity s))
      (stops target) in
  id <- freshId "uniform" ;;
  match target with
  | Linear l =>
      ret (Linear (mkLinear id (x1 l) (y1 l) (x2 l) (y2 l) uniform
                     (lg_gradientUnits l) None))
  | Radial g =>
      ret (Radial (mkRadial id (cx g) (cy g) (r g) (fx g) (fy g) uniform
                     (rg_gradientUnits g) None))
  end.

Definition urlOf (g : GradientDef) : string :=
  ("url(#" ++ g_id g ++ ")")%string.

Definition lerpColorOrGradient (a b : string) (t : R)
  (gradients : list GradientDef) : Eff ColorResult :=
  if falsy a && falsy b then ret noColor
  else if falsy a then ret (resolveResult b gradients)
  else if falsy b then ret (resolveResult a gradients)
  else if String.eqb a b then ret (resolveResult a gradients)
  else
    let aIsGrad := isUrl a in
    let bIsGrad := isUrl b in
    if negb aIsGrad && negb bIsGrad then
      ret (mkColorResult (lerpColor a b t) None)
    else if aIsGrad && bIsGrad then
      match resolveGradient a gradients, resolveGradient b gradients with
      | Some gradA, Some gradB =>
          blended <- lerpGradientDef gradA gradB t ;;
          ret (mkColorResult (Some (urlOf blended)) (Some blended))
      | _, _ => ret (colorOnly (if Rltb t 0.5 then a else b))
      end
    else
      let colorVal := if aIsGrad then b else a in
      let gradRef := if aIsGrad then a else b in
      match resolveGradient gradRef gradients with
      | Some gradDef =>
          uniformGrad <- colorToUniformGradient colorVal gradDef ;;
          blended <- (if aIsGrad
                      then lerpGradientDef gradDef uniformGrad t
                      else lerpGradientDef uniformGrad gradDef t) ;;
          ret (mkColorResult (Some (urlOf blended)) (Some blended))
      | None => ret (colorOnly (if Rltb t 0.5 then a else b))
      end.

(** *** Per-property bracket finder *)

(** The loop of [_findBracket]; [prev] is the variable of that name. *)
Fixpoint findBracketFrom (keyframes : list Keyframe) (timeMs : R)
  (has : Keyframe -> bool) (prev : option Keyframe)
  : option Keyframe * option Keyframe :=
  match keyframes with
  | [] => (prev, None)
  | kf :: rest =>
      if negb (has kf) then findBracketFrom rest timeMs has prev
      else if Rleb (kf_at kf) timeMs
      then findBracketFrom rest timeMs has (Some kf)
      else (prev, Some kf)
  end.

Definition _findBracket (keyframes : list Keyframe) (timeMs : R)
  (has : Keyframe -> bool) : option Keyframe * option Keyframe :=
  findBracketFrom keyframes timeMs has None.

(** Eased t between two bracketing keyframes (the easing is the one of
    the target keyframe). *)
Definition _easedT (prev next : Keyframe) (timeMs : R) : R :=
  let dur := kf_at next - kf_at prev in
  let raw := if Rltb 0 dur then (timeMs - kf_at prev) / dur else 0 in
  Easing.getEasingFunction host (curve next) raw.

(** *** Per-property interpolation helpers *)

Definition _interpNum (kfs : list Keyframe) (t : R)
  (get : Keyframe -> option R) (def : R) : R :=
  match _findBracket kfs t (fun kf => isSome (get kf)) with
  | (None, None) => def
  | (None, Some n) => orElse (get n) def
  | (Some p, None) => bang def (get p)
  | (Some p, Some n) =>
      lerp (bang def (get p)) (bang def (get n)) (_easedT p n t)
  end.

Definition _interpOptNum (kfs : list Keyframe) (t : R)
  (get : Keyframe -> option R) : option R :=
  match _findBracket kfs t (fun kf => isSome (get kf)) with
  | (None, None) => None
  | (None, Some n) => get n
  | (Some p, None) => get p
  | (Some p, Some n) =>
      match get p, get n with
      | Some pv, Some nv => Some (lerp pv nv (_easedT p n t))
      | _, _ => None (* both are present in a bracket *)
      end
  end.

Definition _interpPoint (kfs : list Keyframe) (t : R)
  (get : Keyframe -> option Point) (def : Point) : Point :=
  match _findBracket kfs t (fun kf => isSome (get kf)) with
  | (None, None) => def
  | (None, Some n) => orElse (get n) def
  | (Some p, None) => bang def (get p)
  | (Some p, Some n) =>
      lerpPoint (bang def (get p)) (bang def (get n)) (_easedT p n t)
  end.

Definition _interpScale (kfs : list Keyframe) (t : R) : Scale :=
  match _findBracket kfs t (fun kf => isSome (scale kf)) with
  | (None, None) => ScaleNum 1
  | (None, Some n) => bang (ScaleNum 1) (scale n)
  | (Some p, None) => bang (ScaleNum 1) (scale p)
  | (Some p, Some n) =>
      lerpScale (bang (ScaleNum 1) (scale p)) (bang (ScaleNum 1) (scale n))
        (_easedT p n t)
  end.

Definition _interpColor (kfs : list Keyframe) (t : R)
  (get : Keyframe -> option string) (gradients : list GradientDef)
  : Eff ColorResult :=
  match _findBracket kfs t (fun kf => isSome (get kf)) with
  | (None, None) => ret noColor
  | (None, Some n) => ret (resolveResult (bang EmptyString (get n)) gradients)
  | (Some p, None) => ret (resolveResult (bang EmptyString (get p)) gradients)
  | (Some p, Some n) =>
      lerpColorOrGradient (bang EmptyString (get p)) (bang EmptyString (get n))
        (_easedT p n t) gradients
  end.

(** Snap property: no interpolation, the value of [prev]. *)
Definition _interpSnap {V : Type} (kfs : list Keyframe) (t : R)
  (get : Keyframe -> option V) : option V :=
  match _findBracket kfs t (fun kf => isSome (get kf)) with
  | (None, None) => None
  | (None, Some n) => get n
  | (Some p, _) => get p
  end.

(** Path morphing of [pathD]; the outer [option] is that of the loops
    of [lerpPath]. *)
Definition _interpPath (fuel : nat) (kfs : list Keyframe) (t : R)
  : option (option string) :=
  match _findBracket kfs t (fun kf => isSome (pathD kf)) with
  | (None, None) => Some None
  | (None, Some n) => Some (pathD n)
  | (Some p, None) => Some (pathD p)
  | (Some p, Some n) =>
      match PathMorph.lerpPath host fuel (bang EmptyString (pathD p))
              (bang EmptyString (pathD n)) (_easedT p n t) with
      | None => None
      | Some d => Some (Some d)
      end
  end.

(** *** Public API *)

Definition defaultState : ActorState :=
  mkState (mkPoint 0 0) (ScaleNum 1) 0 1
    None None None None None None None None None None None.

Definition interpolateKeyframes (fuel : nat) (plugins : list MotionSvgPlugin)
  (keyframes : list Keyframe) (timeMs : R) (opts : option InterpolateOptions)
  : Eff ActorState :=
  match keyframes with
  | [] => ret defaultState
  | _ =>
      kfs <- (if hasBefore plugins
              then runBefore plugins keyframes timeMs
              else ret keyframes) ;;
      let gradients :=
        orElse (match opts with Some o => gradients o | None => None end)
          [] in
      fillResult <- _interpColor kfs timeMs fill gradients ;;
      strokeResult <- _interpColor kfs timeMs stroke gradients ;;
      path <- lift (_interpPath fuel kfs timeMs) ;;
      let state :=
        mkState
          (_interpPoint kfs timeMs position (mkPoint 0 0))
          (_interpScale kfs timeMs)
          (_interpNum kfs timeMs rotation 0)
          (_interpNum kfs timeMs opacity 1)
          (cr_color fillResult)
          (cr_color strokeResult)
          (_interpOptNum kfs timeMs strokeWidth)
          (_interpSnap kfs timeMs strokeAlign)
          (_interpOptNum kfs timeMs blurRadius)
          (_interpOptNum kfs timeMs backdropBlur)
          (_interpOptNum kfs timeMs width)
          (_interpOptNum kfs timeMs height)
          (cr_gradient fillResult)
          (cr_gradient strokeResult)
          path in
      if hasAfter plugins
      then runAfter plugins state
             (orElse (match opts with Some o => actorId o | None => None end)
                EmptyString)
             timeMs
      else ret state
  end.

Definition getActorStateAtTime (fuel : nat) (plugins : list MotionSvgPlugin)
  (tl : Timeline) (timeMs : R) (opts : option InterpolateOptions)
  : Eff ActorState :=
  interpolateKeyframes fuel plugins (keyframes tl) timeMs
    (Some (mkOptions
             (match opts with Some o => gradients o | None => None end)
             (Some (tl_actorId tl)))).

End WithHost.
End Interpolate.

(* ------------------------------------------------------------------ *)
(** ** timeline/timeline.ts *)

Module TimelineCtor.

(** The fields of [Actor] that are plain data ([paths], the parsed
    outlines, is not read by any function modelled here). *)
Record Actor := mkActor {
  id : string;
  pathIds : list string;
  origin : Point;
  a_position : Point;
  a_scale : Scale;
  a_rotation : R;
  a_opacity : R;
  a_blurRadius : R;
  a_backdropBlur : R;
  z : R;
  a_width : option R;
  a_height : option R
}.

Record TimelineConfig := mkConfig { cfg_keyframes : list Keyframe }.

(** The [Error] thrown for an empty keyframe list; it names the actor. *)
Inductive TimelineError := NeedsKeyframe (actorId : string).

(** [Array.prototype.sort] with the comparator [(a, b) => a.at - b.at]:
    ascending by [at], and stable, so that keyframes of equal time keep
    the order they were given in. *)
Fixpoint insertByAt (kf : Keyframe) (sorted : list Keyframe)
  : list Keyframe :=
  match sorted with
  | [] => [kf]
  | k :: rest =>
      if Rleb (kf_at kf) (kf_at k) then kf :: sorted
      else k :: insertByAt kf rest
  end.

Definition sortByAt (kfs : list Keyframe) : list Keyframe :=
  fold_right insertByAt [] kfs.

(** The first keyframe with a full state: the defaults of a fresh actor
    where the keyframe is silent. *)
Definition filledFirst (actor : Actor) (first : Keyframe) : Keyframe :=
  mkKeyframe
    (kf_at first)
    (Some (orElse (position first) (mkPoint (x (origin actor))
                                            (y (origin actor)))))
    (Some (orElse (scale first) (ScaleNum 1)))
    (Some (orElse (rotation first) 0))
    (Some (orElse (opacity first) 1))
    (fill first)
    (stroke first)
    (strokeWidth first)
    (strokeAlign first)
    (blurRadius first)
    (backdropBlur first)
    None (* width *)
    None (* height *)
    None (* pathD *)
    (curve first).

Definition timelineId (actor : Actor) (n : nat) : string :=
  ("tl-" ++ id actor ++ "-" ++ Interpolate.decimal n)%string.

(** [timeline(actor, config)], with the module's [timelineCounter]
    passed in and out. *)
Definition timeline (timelineCounter : nat) (actor : Actor)
  (config : TimelineConfig) : TimelineError + (Timeline * nat) :=
  match cfg_keyframes config with
  | [] => inl (NeedsKeyframe (id actor))
  | k0 :: _ =>
      let timelineCounter := Datatypes.S timelineCounter in
      let sorted := sortByAt (cfg_keyframes config) in
      let first := hd k0 sorted in
      (* sorted[0] = filledFirst *)
      let sorted := filledFirst actor first :: tl sorted in
      let duration := kf_at (last sorted first) in
      inr (mkTimeline (timelineId actor timelineCounter) (id actor)
             sorted duration,
           timelineCounter)
  end.

End TimelineCtor.

(* ------------------------------------------------------------------ *)
(** ** trigger/trigger.ts *)

Module Trigger.

(** A number that may be [Infinity] or [-Infinity]. *)
Inductive ExtNum := Fin (v : R) | PosInf | NegInf.

(** [a < 0]. *)
Definition negative (a : ExtNum) : bool :=
  match a with Fin v => Rltb v 0 | PosInf => false | NegInf => true end.

Inductive LoopDirection := normal | reverse | alternate.
Inductive Target := self | parent.

(** A trigger configuration object: its [type] tag as written, and the
    fields of the six variants, each absent unless the object has it. *)
Record TriggerConfig := mkTrigger {
  type : string;
  target : option Target;
  hover_reverse : option bool;
  toggle : option bool;
  iterations : option ExtNum;
  direction : option LoopDirection;
  delay : option R;
  start : option R;
  end_ : option R;
  threshold : option R;
  once : option bool
}.

(** The objects of the heap that hold trigger configurations, by
    address; a binding refers to its configuration, which is an object
    of its own. *)
Definition Heap := list TriggerConfig.
Definition deref (h : Heap) (a : nat) : option TriggerConfig :=
  nth_error h a.

Record TriggerBinding := mkBinding {
  timelineId : string;
  config : nat
}.

Inductive TriggerError :=
| IterationsNegative
| DelayNegative
| StartOutOfRange
| EndOutOfRange
| ThresholdOutOfRange
| UnknownType (type : string).

Definition outside01 (o : option R) : bool :=
  match o with
  | None => false
  | Some v => Rltb v 0 || Rltb 1 v
  end.

(** [validateTrigger]: [None] when it returns, the error when it
    throws. *)
Definition validateTrigger (config : TriggerConfig) : option TriggerError :=
  let ty := type config in
  if String.eqb ty "hover" then None
  else if String.eqb ty "click" then None
  else if String.eqb ty "loop" then
    if match iterations config with
       | Some n => negative n
       | None => false
       end
    then Some IterationsNegative
    else if match delay config with
            | Some d => Rltb d 0
            | None => false
            end
    then Some DelayNegative
    else None
  else if String.eqb ty "scroll" then
    if outside01 (start config) then Some StartOutOfRange
    else if outside01 (end_ config) then Some EndOutOfRange
    else None
  else if String.eqb ty "appear" then
    if outside01 (threshold config) then Some ThresholdOutOfRange
    else None
  else if String.eqb ty "manual" then None
  else Some (UnknownType ty).

(** [trigger(tl, config)]: [config] is the content of the caller's
    object; the binding gets a new object of the heap with the same
    fields ([{ ...config }]). *)
Definition trigger (h : Heap) (tl : Timeline) (config : TriggerConfig)
  : TriggerError + (TriggerBinding * Heap) :=
  match validateTrigger config with
  | Some e => inl e
  | None => inr (mkBinding (tl_id tl) (List.length h), h ++ [config])
  end.

End Trigger.

(* ------------------------------------------------------------------ *)
(** ** trigger/playback.ts *)

Module Playback.

Inductive PlaybackState := idle | playing | paused | finished.

Inductive PlaybackEventType :=
| ev_start | ev_play | ev_pause | ev_stop | ev_seek | ev_reverse
| ev_frame | ev_complete | ev_repeat.

Definition PlaybackEventType_eqb (a b : PlaybackEventType) : bool :=
  match a, b with
  | ev_start, ev_start | ev_play, ev_play | ev_pause, ev_pause
  | ev_stop, ev_stop | ev_seek, ev_seek | ev_reverse, ev_reverse
  | ev_frame, ev_frame | ev_complete, ev_complete
  | ev_repeat, ev_repeat => true
  | _, _ => false
  end.

Record PlaybackEvent := mkEvent {
  ev_type : PlaybackEventType;
  ev_currentTime : R;
  ev_progress : R;
  ev_playbackRate : R;
  ev_iteration : option nat
}.

(** The type [1 | -1] of [direction]. *)
Inductive Direction := forward | backward.

Definition sign (d : Direction) : R :=
  match d with forward => 1 | backward => -1 end.

Definition flip (d : Direction) : Direction :=
  match d with forward => backward | backward => forward end.

(** [PlaybackOptions]; the callbacks [onUpdate] and [onComplete] are the
    host's and are recorded in [Env]. *)
Record PlaybackOptions := mkPlaybackOptions {
  timeline : Timeline;
  trigger : option Trigger.TriggerBinding;
  gradients : option (list GradientDef);
  initialRate : option R
}.

(** What [createPlayback] fixes once: the timeline, the gradients and
    the three constants read off the trigger. *)
Record Consts := mkConsts {
  tl : Timeline;
  k_gradients : option (list GradientDef);
  loopIterations : Trigger.ExtNum;
  loopDirection : Trigger.LoopDirection;
  loopDelay : R
}.

(** The variables of the closure. *)
Record Vars := mkVars {
  state : PlaybackState;
  currentTime : R;
  direction : Direction;
  _playbackRate : R;
  _totalDuration : R;
  rafId : option nat;
  lastFrameTime : option R;
  iterationCount : nat;
  hasStarted : bool
}.

(** The host around a controller: the world of the interpolation
    engine, the handles it has given out, the frame requests and loop
    timers that are pending (oldest first), and what it was told, in
    order: the events (as seen by a subscriber to every type), the
    updates ([onUpdate]) and the number of [onComplete] calls. *)
Record Env := mkEnv {
  world : Interpolate.World;
  nextHandle : nat;
  frames : list nat;
  timers : list R;
  events : list PlaybackEvent;
  updates : list (Interpolate.ActorState * R);
  completions : nat
}.

Definition Machine : Type := Vars * Env.

(** Assignments to the variables. *)
Definition set_state (s : PlaybackState) (v : Vars) : Vars :=
  mkVars s (currentTime v) (direction v) (_playbackRate v) (_totalDuration v)
    (rafId v) (lastFrameTime v) (iterationCount v) (hasStarted v).
Definition set_currentTime (t : R) (v : Vars) : Vars :=
  mkVars (state v) t (direction v) (_playbackRate v) (_totalDuration v)
    (rafId v) (lastFrameTime v) (iterationCount v) (hasStarted v).
Definition set_direction (d : Direction) (v : Vars) : Vars :=
  mkVars (state v) (currentTime v) d (_playbackRate v) (_totalDuration v)
    (rafId v) (lastFrameTime v) (iterationCount v) (hasStarted v).
Definition set_playbackRate (rate : R) (v : Vars) : Vars :=
  mkVars (state v) (currentTime v) (direction v) rate (_totalDuration v)
    (rafId v) (lastFrameTime v) (iterationCount v) (hasStarted v).
Definition set_totalDuration (d : R) (v : Vars) : Vars :=
  mkVars (state v) (currentTime v) (direction v) (_playbackRate v) d
    (rafId v) (lastFrameTime v) (iterationCount v) (hasStarted v).
Definition set_rafId (i : option nat) (v : Vars) : Vars :=
  mkVars (state v) (currentTime v) (direction v) (_playbackRate v)
    (_totalDuration v) i (lastFrameTime v) (iterationCount v) (hasStarted v).
Definition set_lastFrameTime (t : option R) (v : Vars) : Vars :=
  mkVars (state v) (currentTime v) (direction v) (_playbackRate v)
    (_totalDuration v) (rafId v) t (iterationCount v) (hasStarted v).
Definition set_iterationCount (n : nat) (v : Vars) : Vars :=
  mkVars (state v) (currentTime v) (direction v) (_playbackRate v)
    (_totalDuration v) (rafId v) (lastFrameTime v) n (hasStarted v).
Definition set_hasStarted (b : bool) (v : Vars) : Vars :=
  mkVars (state v) (currentTime v) (direction v) (_playbackRate v)
    (_totalDuration v) (rafId v) (lastFrameTime v) (iterationCount v) b.

Definition PlaybackState_eqb (a b : PlaybackState) : bool :=
  match a, b with
  | idle, idle | playing, playing | paused, paused | finished, finished =>
      true
  | _, _ => false
  end.

(** [progress]: [_totalDuration > 0 ? currentTime / _totalDuration : 0]. *)
Definition progress (v : Vars) : R :=
  if Rltb 0 (_totalDuration v) then currentTime v / _totalDuration v else 0.

(** [emit(type, extra)]. *)
Definition emit (ty : PlaybackEventType) (iteration : option nat)
  (m : Machine) : Machine :=
  let (v, e) := m in
  (v, mkEnv (world e) (nextHandle e) (frames e) (timers e)
        (events e ++ [mkEvent ty (currentTime v) (progress v)
                        (_playbackRate v) iteration])
        (updates e) (completions e)).

(** [onComplete?.()]. *)
Definition onComplete (m : Machine) : Machine :=
  let (v, e) := m in
  (v, mkEnv (world e) (nextHandle e) (frames e) (timers e) (events e)
        (updates e) (Datatypes.S (completions e))).

(** [rafId = requestAnimationFrame(tick)]. *)
Definition requestFrame (m : Machine) : Machine :=
  let (v, e) := m in
  let h := Datatypes.S (nextHandle e) in
  (set_rafId (Some h) v,
   mkEnv (world e) h (frames e ++ [h]) (timers e) (events e) (updates e)
     (completions e)).

(** [if (rafId !== null) { cancelAnimationFrame(rafId); rafId = null; }]. *)
Definition cancelFrame (m : Machine) : Machine :=
  let (v, e) := m in
  match rafId v with
  | None => m
  | Some h =>
      (set_rafId None v,
       mkEnv (world e) (nextHandle e)
         (filter (fun h' => negb (Nat.eqb h' h)) (frames e))
         (timers e) (events e) (updates e) (completions e))
  end.

(** [setTimeout(resume, loopDelay)]. *)
Definition setTimer (delay : R) (m : Machine) : Machine :=
  let (v, e) := m in
  (v, mkEnv (world e) (nextHandle e) (frames e) (timers e ++ [delay])
        (events e) (updates e) (completions e)).

Definition upd (f : Vars -> Vars) (m : Machine) : Machine :=
  let (v, e) := m in (f v, e).

(** The three constants that [createPlayback] reads off the trigger
    binding, and the initial values of its variables.  [h] is the heap
    that holds the binding's configuration. *)
Definition createPlayback (h : Trigger.Heap) (options : PlaybackOptions)
  : Consts * Vars :=
  let cfg :=
    match trigger options with
    | None => None
    | Some b => Trigger.deref h (Trigger.config b)
    end in
  let isLoop :=
    match cfg with
    | Some c => String.eqb (Trigger.type c) "loop"
    | None => false
    end in
  let loopCfg := if isLoop then cfg else None in
  (mkConsts (timeline options) (gradients options)
     (match loopCfg with
      | Some c => orElse (Trigger.iterations c) Trigger.PosInf
      | None => Trigger.Fin 1
      end)
     (match loopCfg with
      | Some c => orElse (Trigger.direction c) Trigger.normal
      | None => Trigger.normal
      end)
     (match loopCfg with
      | Some c => orElse (Trigger.delay c) 0
      | None => 0
      end),
   mkVars idle 0 forward (orElse (initialRate options) 1)
     (duration (timeline options)) None None 0 false).

Definition initEnv (w : Interpolate.World) : Env :=
  mkEnv w 0 [] [] [] [] 0.

Section Controller.
Variable host : Host.
Variable fuel : nat.
Variable plugins : list Interpolate.MotionSvgPlugin.
Variable k : Consts.

(** [emitUpdate(timeMs)]: the actor state at that time, handed to
    [onUpdate]; [None] while the engine is still running. *)
Definition emitUpdate (timeMs : R) (m : Machine) : option Machine :=
  let (v, e) := m in
  match Interpolate.getActorStateAtTime host fuel plugins (tl k) timeMs
          (Some (Interpolate.mkOptions (k_gradients k) None)) (world e) with
  | None => None
  | Some (actorState, w) =>
      Some (v, mkEnv w (nextHandle e) (frames e) (timers e) (events e)
                 (updates e ++ [(actorState, timeMs)]) (completions e))
  end.

(** [iterationCount >= loopIterations]. *)
Definition budgetSpent (count : nat) : bool :=
  match loopIterations k with
  | Trigger.Fin n => Rleb n (INR count)
  | Trigger.PosInf => false
  | Trigger.NegInf => true
  end.

(** What [tick] does at a time bound after [emitUpdate]: the [frame]
    event, the iteration count, and either the end of playback or a
    [repeat] event. *)
Definition countIteration (m : Machine) : Machine * bool :=
  let m := emit ev_frame None m in
  let m := upd (fun v => set_iterationCount (Datatypes.S (iterationCount v)) v)
             m in
  if budgetSpent (iterationCount (fst m)) then
    (onComplete (emit ev_complete None (upd (set_state finished) m)), true)
  else (emit ev_repeat (Some (iterationCount (fst m))) m, false).

(** The branch of [tick] for the upper bound, the cursor being already
    set to [_totalDuration]. *)
Definition upperBound (m : Machine) : option Machine :=
  match emitUpdate (duration (tl k)) m with
  | None => None
  | Some m =>
      let (m, done) := countIteration m in
      if done then Some m
      else
        let m :=
          match loopDirection k with
          | Trigger.alternate =>
              upd (fun v => set_currentTime (_totalDuration v)
                              (set_direction backward v)) m
          | Trigger.reverse =>
              upd (fun v => set_direction backward
                              (set_currentTime (_totalDuration v) v)) m
          | Trigger.normal => upd (set_currentTime 0) m
          end in
        if Rltb 0 (loopDelay k)
        then Some (setTimer (loopDelay k) (upd (set_state paused) m))
        else Some (requestFrame m)
  end.

(** The branch of [tick] for the lower bound, the cursor being already
    set to [0]. *)
Definition lowerBound (m : Machine) : option Machine :=
  match emitUpdate 0 m with
  | None => None
  | Some m =>
      let (m, done) := countIteration m in
      if done then Some m
      else
        let m :=
          match loopDirection k with
          | Trigger.alternate =>
              upd (fun v => set_currentTime 0 (set_direction forward v)) m
          | _ => m
          end in
        Some (requestFrame m)
  end.

Definition tick (now : R) (m : Machine) : option Machine :=
  if negb (PlaybackState_eqb (state (fst m)) playing) then Some m
  else
    match lastFrameTime (fst m) with
    | None => Some (requestFrame (upd (set_lastFrameTime (Some now)) m))
    | Some last =>
        let rawDelta := now - last in
        let delta :=
          rawDelta * sign (direction (fst m)) * Rabs (_playbackRate (fst m)) in
        let m :=
          upd (fun v => set_currentTime (currentTime v + delta)
                          (set_lastFrameTime (Some now) v)) m in
        let timeScale := duration (tl k) / _totalDuration (fst m) in
        if Rleb (_totalDuration (fst m)) (currentTime (fst m)) then
          upperBound (upd (fun v => set_currentTime (_totalDuration v) v) m)
        else if Rleb (currentTime (fst m)) 0 then
          lowerBound (upd (set_currentTime 0) m)
        else
          let mappedTime :=
            Rmin (currentTime (fst m) * timeScale) (duration (tl k)) in
          match emitUpdate mappedTime m with
          | None => None
          | Some m => Some (requestFrame (emit ev_frame None m))
          end
    end.

(** The callback of the loop-delay timer. *)
Definition resume (m : Machine) : Machine :=
  if PlaybackState_eqb (state (fst m)) paused
  then requestFrame
         (upd (fun v => set_lastFrameTime None (set_state playing v)) m)
  else m.

(** *** The controller *)

Definition play (m : Machine) : Machine :=
  let st := state (fst m) in
  let wasIdle := PlaybackState_eqb st idle || PlaybackState_eqb st finished in
  let m :=
    if PlaybackState_eqb st finished
    then upd (fun v =>
                set_iterationCount 0
                  (set_currentTime
                     (match direction v with
                      | forward => 0
                      | backward => _totalDuration v
                      end) v)) m
    else m in
  let m :=
    upd (fun v => set_lastFrameTime None
                    (set_direction forward (set_state playing v))) m in
  let m :=
    if negb (hasStarted (fst m)) || wasIdle
    then emit ev_start None (upd (set_hasStarted true) m)
    else m in
  requestFrame (emit ev_play None m).

Definition pause (m : Machine) : Machine :=
  emit ev_pause None
    (upd (set_lastFrameTime None) (cancelFrame (upd (set_state paused) m))).

Definition stop (m : Machine) : option Machine :=
  let m :=
    upd (fun v => set_hasStarted false
                    (set_iterationCount 0
                       (set_direction forward
                          (set_currentTime 0 (set_state idle v))))) m in
  let m := upd (set_lastFrameTime None) (cancelFrame m) in
  match emitUpdate 0 m with
  | None => None
  | Some m => Some (emit ev_stop None m)
  end.

Definition seek (timeMs : R) (m : Machine) : option Machine :=
  let m :=
    upd (fun v => set_currentTime
                    (Rmax 0 (Rmin timeMs (_totalDuration v))) v) m in
  let timeScale := duration (tl k) / _totalDuration (fst m) in
  match emitUpdate (Rmin (currentTime (fst m) * timeScale) (duration (tl k)))
          m with
  | None => None
  | Some m => Some (emit ev_seek None m)
  end.

Definition reverse (m : Machine) : Machine :=
  let m := upd (fun v => set_direction (flip (direction v)) v) m in
  let m :=
    if negb (PlaybackState_eqb (state (fst m)) playing)
    then requestFrame
           (upd (fun v => set_lastFrameTime None (set_state playing v)) m)
    else m in
  emit ev_reverse None m.

(** The setter of [playbackRate]. *)
Definition setPlaybackRate (rate : R) (m : Machine) : Machine :=
  upd (set_playbackRate rate) m.

(** The setter of [totalDuration]: the progress is kept. *)
Definition setTotalDuration (d : R) (m : Machine) : Machine :=
  upd (fun v =>
         let p := progress v in
         let v := set_totalDuration (Rmax 0 d) v in
         set_currentTime (p * _totalDuration v) v) m.

(** *** The host's side *)

(** What can happen to a controller: the host runs the oldest pending
    frame request at time [now], the oldest pending loop timer fires,
    or the owner calls a method. *)
Inductive Action :=
| Frame (now : R)
| Timeout
| Play | Pause | Stop | Seek (timeMs : R) | Reverse
| SetPlaybackRate (rate : R)
| SetTotalDuration (d : R).

Definition step (a : Action) (m : Machine) : option Machine :=
  match a with
  | Frame now =>
      let (v, e) := m in
      match frames e with
      | [] => Some m
      | _ :: rest =>
          tick now
            (v, mkEnv (world e) (nextHandle e) rest (timers e) (events e)
                  (updates e) (completions e))
      end
  | Timeout =>
      let (v, e) := m in
      match timers e with
      | [] => Some m
      | _ :: rest =>
          Some (resume
                  (v, mkEnv (world e) (nextHandle e) (frames e) rest
                        (events e) (updates e) (completions e)))
      end
  | Play => Some (play m)
  | Pause => Some (pause m)
  | Stop => stop m
  | Seek timeMs => seek timeMs m
  | Reverse => Some (reverse m)
  | SetPlaybackRate rate => Some (setPlaybackRate rate m)
  | SetTotalDuration d => Some (setTotalDuration d m)
  end.

Fixpoint run (actions : list Action) (m : Machine) : option Machine :=
  match actions with
  | [] => Some m
  | a :: rest =>
      match step a m with
      | None => None
      | Some m' => run rest m'
      end
  end.

(** How many events of a type were emitted. *)
Definition countEvents (ty : PlaybackEventType) (m : Machine) : nat :=
  List.length
    (filter (fun ev => PlaybackEventType_eqb (ev_type ev) ty)
       (events (snd m))).

End Controller.
End Playback.

(* ------------------------------------------------------------------ *)
(** ** timeline/sequence.ts *)

Module Sequence.
Import TimelineCtor.

Record SequenceItem := mkItem {
  item_timeline : Timeline;
  (** Absolute offset from the start of the sequence. *)
  offset : option R;
  (** Delay before this item. *)
  delay : option R
}.

Record SequenceConfig := mkSequenceConfig { items : list SequenceItem }.

Inductive StaggerFrom := fromStart | fromEnd | fromCenter | fromEdges.

Record StaggerConfig := mkStaggerConfig {
  actors : list Actor;
  sg_keyframes : list Keyframe;
  stagger_ : R;
  from : option StaggerFrom
}.

(** [{ ...kf, at: kf.at + d }]. *)
Definition shifted (d : R) (kf : Keyframe) : Keyframe :=
  mkKeyframe (kf_at kf + d) (position kf) (scale kf) (rotation kf)
    (opacity kf) (fill kf) (stroke kf) (strokeWidth kf) (strokeAlign kf)
    (blurRadius kf) (backdropBlur kf) (width kf) (height kf) (pathD kf)
    (curve kf).

(** One round of the loop of [sequence] over the items: the variables
    are [cursor] and [allKeyframes]. *)
Definition sequenceStep (vars : R * list Keyframe) (item : SequenceItem)
  : R * list Keyframe :=
  let (cursor, allKeyframes) := vars in
  let delay := orElse (delay item) 0 in
  let start := orElse (offset item) cursor + delay in
  (start + duration (item_timeline item),
   allKeyframes ++ map (shifted start) (keyframes (item_timeline item))).

Definition sequence (timelineCounter : nat) (actor : Actor)
  (config : SequenceConfig) : TimelineError + (Timeline * nat) :=
  let (_, allKeyframes) := fold_left sequenceStep (items config) (0, []) in
  timeline timelineCounter actor (mkConfig allKeyframes).

(** [order[i]] is the delay multiplier of actor [i]. *)
Definition computeStaggerOrder (n : nat) (from : StaggerFrom) : list R :=
  match from with
  | fromEnd => map (fun i => INR n - 1 - INR i) (seq 0 n)
  | fromCenter =>
      let mid := (INR n - 1) / 2 in
      map (fun i => Rabs (INR i - mid)) (seq 0 n)
  | fromEdges =>
      let mid := (INR n - 1) / 2 in
      map (fun i => mid - Rabs (INR i - mid)) (seq 0 n)
  | fromStart => map (fun i => INR i) (seq 0 n)
  end.

(** [actors.map((actor, i) => ...)] from index [i] on: the timelines,
    or the error of the first constructor call that throws.  [order]
    has an entry for every index of [actors]. *)
Fixpoint staggerFrom (timelineCounter : nat) (order : list R)
  (staggerDelay : R) (kfs : list Keyframe) (i : nat) (rest : list Actor)
  : TimelineError + (list Timeline * nat) :=
  match rest with
  | [] => inr ([], timelineCounter)
  | actor :: rest' =>
      let delay := nth i order 0 * staggerDelay in
      let offsetKeyframes := map (shifted delay) kfs in
      match timeline timelineCounter actor (mkConfig offsetKeyframes) with
      | inl e => inl e
      | inr (tl, counter') =>
          match staggerFrom counter' order staggerDelay kfs
                  (Datatypes.S i) rest' with
          | inl e => inl e
          | inr (tls, counter'') => inr (tl :: tls, counter'')
          end
      end
  end.

Definition stagger (timelineCounter : nat) (config : StaggerConfig)
  : TimelineError + (list Timeline * nat) :=
  let from := orElse (from config) fromStart in
  let n := List.length (actors config) in
  let order := computeStaggerOrder n from in
  staggerFrom timelineCounter order (stagger_ config) (sg_keyframes config)
    0 (actors config).

(** [Math.max(0, ...timelines.map(tl => tl.duration))]. *)
Definition parallelDuration (timelines : list Timeline) : R :=
  fold_left Rmax (map duration timelines) 0.

End Sequence.

(* ------------------------------------------------------------------ *)
(** ** core/PluginSystem.ts: the registry *)

Module PluginManager.

(** A plugin as the registry holds it: its name and the hooks the
    engine runs ([Interpolate.MotionSvgPlugin]), its version, and
    whether it has a [destroy] callback. *)
Record Plugin := mkManaged {
  hooks : Interpolate.MotionSvgPlugin;
  version : string;
  destroy : bool
}.

Definition pluginName (p : Plugin) : string := Interpolate.name (hooks p).

(** The manager: [_plugins], and what it has done to the outside, latest
    first: the names it warned about and the plugins whose [destroy]
    it called. *)
Record Manager := mkManager {
  _plugins : list Plugin;
  warned : list string;
  destroyed : list string
}.

Definition empty : Manager := mkManager [] [] [].

(** [this._plugins.findIndex(p => p.name === name)], from index [i]. *)
Fixpoint findIndex (name : string) (l : list Plugin) (i : nat)
  : option nat :=
  match l with
  | [] => None
  | p :: rest =>
      if String.eqb (pluginName p) name then Some i
      else findIndex name rest (S i)
  end.

(** [p.destroy?.()]. *)
Definition callDestroy (p : Plugin) (log : list string) : list string :=
  if destroy p then pluginName p :: log else log.

Definition unregister (name : string) (m : Manager) : Manager :=
  match findIndex name (_plugins m) 0 with
  | Some idx =>
      match nth_error (_plugins m) idx with
      | Some p =>
          mkManager (firstn idx (_plugins m) ++ skipn (S idx) (_plugins m))
            (warned m) (callDestroy p (destroyed m))
      | None => m (* [idx] is an index of [_plugins] *)
      end
  | None => m
  end.

Definition register (plugin : Plugin) (m : Manager) : Manager :=
  let m :=
    if existsb (fun p => String.eqb (pluginName p) (pluginName plugin))
         (_plugins m)
    then unregister (pluginName plugin)
           (mkManager (_plugins m) (pluginName plugin :: warned m)
              (destroyed m))
    else m in
  mkManager (_plugins m ++ [plugin]) (warned m) (destroyed m).

Definition getPlugin (name : string) (m : Manager) : option Plugin :=
  find (fun p => String.eqb (pluginName p) name) (_plugins m).

Definition listPlugins (m : Manager) : list (string * string) :=
  map (fun p => (pluginName p, version p)) (_plugins m).

Definition clear (m : Manager) : Manager :=
  mkManager [] (warned m)
    (fold_left (fun log p => callDestroy p log) (_plugins m) (destroyed m)).

(** The plugins as the engine takes them. *)
Definition engineView (m : Manager) : list Interpolate.MotionSvgPlugin :=
  map hooks (_plugins m).

End PluginManager.

(* ------------------------------------------------------------------ *)
(** ** core/AnimationStore.ts *)

Module AnimationStore.

(** [Record<string, ActorState>], read by key. *)
Definition Dict : Type := string -> option Interpolate.ActorState.

Definition noStates : Dict := fun _ => None.

(** [d[key] = state]. *)
Definition write (key : string) (st : Interpolate.ActorState) (d : Dict)
  : Dict :=
  fun k => if String.eqb k key then Some st else d k.

(** [Object.assign(d, updates)]. *)
Definition assign (d updates : Dict) : Dict :=
  fun k => match updates k with Some st => Some st | None => d k end.

(** The store, and around it the microtasks it has queued and not yet
    run and the calls it has made to listeners (latest first).  A
    listener is known by a number; listeners do not call the store
    back. *)
Record Store := mkStore {
  _states : Dict;
  _listeners : list nat;
  _snapshot : Dict;
  _dirty : bool;
  _batchScheduled : bool;
  microtasks : nat;
  notified : list nat
}.

Definition create : Store := mkStore noStates [] noStates false false 0 [].

Definition _flush (s : Store) : Store :=
  mkStore (_states s) (_listeners s) (_states s) false (_batchScheduled s)
    (microtasks s) (rev (_listeners s) ++ notified s).

Definition _scheduleBatch (s : Store) : Store :=
  if _batchScheduled s then s
  else mkStore (_states s) (_listeners s) (_snapshot s) (_dirty s) true
         (S (microtasks s)) (notified s).

(** The callback that [_scheduleBatch] queues. *)
Definition batch (s : Store) : Store :=
  let s := mkStore (_states s) (_listeners s) (_snapshot s) (_dirty s) false
             (microtasks s) (notified s) in
  if _dirty s then _flush s else s.

Definition set (actorId : string) (state : Interpolate.ActorState)
  (s : Store) : Store :=
  _scheduleBatch
    (mkStore (write actorId state (_states s)) (_listeners s) (_snapshot s)
       true (_batchScheduled s) (microtasks s) (notified s)).

Definition setMany (updates : Dict) (s : Store) : Store :=
  _scheduleBatch
    (mkStore (assign (_states s) updates) (_listeners s) (_snapshot s)
       true (_batchScheduled s) (microtasks s) (notified s)).

Definition reset (initial : Dict) (s : Store) : Store :=
  _flush
    (mkStore initial (_listeners s) (_snapshot s) true (_batchScheduled s)
       (microtasks s) (notified s)).

Definition getSnapshot (s : Store) : Dict := _snapshot s.

Definition getActorState (actorId : string) (s : Store)
  : option Interpolate.ActorState :=
  _snapshot s actorId.

(** [this._listeners.add(listener)]. *)
Definition subscribe (listener : nat) (s : Store) : Store :=
  mkStore (_states s)
    (if existsb (Nat.eqb listener) (_listeners s) then _listeners s
     else _listeners s ++ [listener])
    (_snapshot s) (_dirty s) (_batchScheduled s) (microtasks s) (notified s).

(** The function that [subscribe] returns. *)
Definition unsubscribe (listener : nat) (s : Store) : Store :=
  mkStore (_states s)
    (filter (fun l => negb (Nat.eqb l listener)) (_listeners s))
    (_snapshot s) (_dirty s) (_batchScheduled s) (microtasks s) (notified s).

(** The host runs the oldest queued microtask, if there is one. *)
Definition runMicrotask (s : Store) : Store :=
  match microtasks s with
  | O => s
  | S n =>
      batch (mkStore (_states s) (_listeners s) (_snapshot s) (_dirty s)
               (_batchScheduled s) n (notified s))
  end.

End AnimationStore.

(* ================================================================== *)
(** * Properties *)

(** ** Comparisons *)

Module NumFacts.

Lemma Rleb_t (a b : R) : a <= b -> Rleb a b = true.
Proof. intros H; unfold Rleb; destruct (Rle_dec a b); [reflexivity | lra]. Qed.

Lemma Rleb_f (a b : R) : b < a -> Rleb a b = false.
Proof. intros H; unfold Rleb; destruct (Rle_dec a b); [lra | reflexivity]. Qed.

Lemma Rltb_t (a b : R) : a < b -> Rltb a b = true.
Proof. intros H; unfold Rltb; destruct (Rlt_dec a b); [reflexivity | lra]. Qed.

Lemma Rltb_f (a b : R) : b <= a -> Rltb a b = false.
Proof. intros H; unfold Rltb; destruct (Rlt_dec a b); [lra | reflexivity]. Qed.

Lemma Reqb_t (a b : R) : a = b -> Reqb a b = true.
Proof. intros H; unfold Reqb; destruct (Req_dec_T a b); [reflexivity | lra]. Qed.

Lemma Reqb_f (a b : R) : a <> b -> Reqb a b = false.
Proof.
  intros H; unfold Reqb; destruct (Req_dec_T a b); [contradiction | reflexivity].
Qed.

Lemma Rleb_spec (a b : R) : Rleb a b = true <-> a <= b.
Proof.
  split; [| apply Rleb_t].
  unfold Rleb; destruct (Rle_dec a b); [tauto | discriminate].
Qed.

Lemma Rltb_spec (a b : R) : Rltb a b = true <-> a < b.
Proof.
  split; [| apply Rltb_t].
  unfold Rltb; destruct (Rlt_dec a b); [tauto | discriminate].
Qed.

Lemma Rleb_false_spec (a b : R) : Rleb a b = false <-> b < a.
Proof.
  split; [| apply Rleb_f].
  unfold Rleb; destruct (Rle_dec a b); [discriminate | lra].
Qed.

Lemma Rltb_false_spec (a b : R) : Rltb a b = false <-> b <= a.
Proof.
  split; [| apply Rltb_f].
  unfold Rltb; destruct (Rlt_dec a b); [discriminate | lra].
Qed.

End NumFacts.
Import NumFacts.

(** Settle the comparisons of the goal whose outcome [lra] can tell. *)
Ltac rcmp :=
  repeat match goal with
  | |- context [Rleb ?a ?b] =>
      first [ rewrite (Rleb_t a b) by lra | rewrite (Rleb_f a b) by lra ]
  | |- context [Rltb ?a ?b] =>
      first [ rewrite (Rltb_t a b) by lra | rewrite (Rltb_f a b) by lra ]
  | |- context [Reqb ?a ?b] =>
      first [ rewrite (Reqb_t a b) by lra | rewrite (Reqb_f a b) by lra ]
  end.

(** Comparisons by cases. *)
Module CmpFacts.

Lemma Rltb_cases (a b : R) :
  (a < b /\ Rltb a b = true) \/ (b <= a /\ Rltb a b = false).
Proof.
  destruct (Rlt_dec a b); [left | right]; split; try lra;
    [apply Rltb_t | apply Rltb_f]; lra.
Qed.

Lemma Rleb_cases (a b : R) :
  (a <= b /\ Rleb a b = true) \/ (b < a /\ Rleb a b = false).
Proof.
  destruct (Rle_dec a b); [left | right]; split; try lra;
    [apply Rleb_t | apply Rleb_f]; lra.
Qed.

Lemma Reqb_cases (a b : R) :
  (a = b /\ Reqb a b = true) \/ (a <> b /\ Reqb a b = false).
Proof.
  destruct (Req_dec_T a b); [left | right]; split; try assumption;
    [apply Reqb_t | apply Reqb_f]; assumption.
Qed.

End CmpFacts.

Import CmpFacts.

(* ------------------------------------------------------------------ *)
(** ** Outline morphing *)

Module PathMorphFacts.
Import PathMorph.

(** C3.  At [t <= 0] the blend of two outlines is the first input string
    itself, and at [t >= 1] the second one: no parsing, no printing. *)
Theorem lerpPath_boundary (host : Host) (fuel : nat) (pathA pathB : string)
  (t : R) :
  (t <= 0 -> lerpPath host fuel pathA pathB t = Some pathA) /\
  (1 <= t -> lerpPath host fuel pathA pathB t = Some pathB).
Proof.
  unfold lerpPath; split; intros H.
  - now rewrite Rleb_t.
  - rewrite Rleb_f by lra. now rewrite Rleb_t.
Qed.

Lemma lerpPath_boundary_witness :
  lerpPath idleHost 0 "M0,0 L10,10" "M5 5 L 20 20 Z" 0
    = Some "M0,0 L10,10"%string /\
  lerpPath idleHost 0 "M0,0 L10,10" "M5 5 L 20 20 Z" 1
    = Some "M5 5 L 20 20 Z"%string.
Proof.
  split.
  - apply (proj1 (lerpPath_boundary idleHost 0 "M0,0 L10,10"
                    "M5 5 L 20 20 Z" 0)). lra.
  - apply (proj2 (lerpPath_boundary idleHost 0 "M0,0 L10,10"
                    "M5 5 L 20 20 Z" 1)). lra.
Defined.

(** *** Balancing *)

Lemma last_app_nonempty {A : Type} (l1 l2 : list A) (d : A) :
  l2 <> [] -> last (l1 ++ l2) d = last l2 d.
Proof.
  intros H. induction l1 as [| a l1 IH]; [reflexivity |].
  simpl. destruct (l1 ++ l2) eqn:E; [| exact IH].
  apply app_eq_nil in E. tauto.
Qed.

Lemma skipn_nth_error {A : Type} (l : list A) :
  forall (i : nat) (a : A),
    nth_error l i = Some a -> skipn i l = a :: skipn (Datatypes.S i) l.
Proof.
  induction l as [| b l IH]; intros [| i] a Hn; simpl in *;
    try discriminate.
  - now inversion Hn.
  - now apply IH.
Qed.

Lemma findLongest_range (segs : list CubicSegment) :
  forall i px py li ll,
    let r := findLongest segs i px py li ll in
    r = li \/ (i <= r < i + List.length segs)%nat.
Proof.
  induction segs as [| s rest IH]; intros i px py li ll; simpl.
  - now left.
  - destruct (Rltb ll (segmentLength px py s)).
    + right. destruct (IH (Datatypes.S i) (x s) (y s) i
                         (segmentLength px py s)) as [-> | H]; lia.
    + destruct (IH (Datatypes.S i) (x s) (y s) li ll) as [-> | H];
        [now left | right; lia].
Qed.

Lemma findLongest_lt (segs : list CubicSegment) (sx sy : R) :
  segs <> [] -> (findLongest segs 0 sx sy 0 0 < List.length segs)%nat.
Proof.
  intros H. destruct (findLongest_range segs 0 sx sy 0 0) as [-> | H'].
  - destruct segs; [contradiction | simpl; lia].
  - lia.
Qed.

(** The shape of a subdivision: one segment replaced by its two halves,
    the second of which ends where the segment ended. *)
Lemma subdivideAtLongest_shape (segs : list CubicSegment) (sx sy : R) :
  segs <> [] ->
  exists l1 seg l2 first second,
    segs = l1 ++ seg :: l2 /\
    subdivideAtLongest segs sx sy = l1 ++ first :: second :: l2 /\
    x second = x seg /\ y second = y seg.
Proof.
  intros Hne. unfold subdivideAtLongest.
  destruct segs as [| s0 rest] eqn:E; [contradiction |]. rewrite <- E in *.
  pose proof (findLongest_lt segs sx sy Hne) as Hlt.
  set (i := findLongest segs 0 sx sy 0 0) in *.
  destruct (startOf segs i sx sy) as [px py].
  destruct (nth_error segs i) as [seg |] eqn:Hn.
  2:{ apply nth_error_None in Hn. lia. }
  destruct (splitCubicAt px py seg 0.5) as [first second] eqn:Hs.
  exists (firstn i segs), seg, (skipn (Datatypes.S i) segs), first, second.
  repeat split.
  - rewrite <- (firstn_skipn i segs) at 1. f_equal.
    now apply skipn_nth_error.
  - unfold splitCubicAt in Hs. destruct seg. now inversion Hs.
  - unfold splitCubicAt in Hs. destruct seg. now inversion Hs.
Qed.

Lemma subdivideAtLongest_length (segs : list CubicSegment) (sx sy : R) :
  segs <> [] ->
  List.length (subdivideAtLongest segs sx sy) = Datatypes.S (List.length segs).
Proof.
  intros H. destruct (subdivideAtLongest_shape segs sx sy H)
    as (l1 & seg & l2 & f & s2 & -> & -> & _).
  rewrite !length_app. simpl. lia.
Qed.

(** The point where a path ends: the end of its last segment. *)
Definition endPoint (segs : list CubicSegment) (d : CubicSegment) : R * R :=
  (x (last segs d), y (last segs d)).

Lemma subdivideAtLongest_endPoint (segs : list CubicSegment) (sx sy : R)
  (d : CubicSegment) :
  segs <> [] ->
  endPoint (subdivideAtLongest segs sx sy) d = endPoint segs d.
Proof.
  intros H. destruct (subdivideAtLongest_shape segs sx sy H)
    as (l1 & seg & l2 & f & s2 & -> & -> & Hx & Hy).
  unfold endPoint.
  rewrite (last_app_nonempty l1 (f :: s2 :: l2)) by discriminate.
  rewrite (last_app_nonempty l1 (seg :: l2)) by discriminate.
  destruct l2 as [| a l2]; simpl; [now rewrite Hx, Hy | reflexivity].
Qed.

Lemma subdivideAtLongest_nonempty (segs : list CubicSegment) (sx sy : R) :
  segs <> [] -> subdivideAtLongest segs sx sy <> [].
Proof.
  intros H E. apply (f_equal (@List.length _)) in E.
  rewrite subdivideAtLongest_length in E by assumption. discriminate.
Qed.

(** The loop of [balanceCommands] on a path that has a segment: it ends
    within [target - length] rounds, at the greater of the two counts,
    with the end point where it was. *)
Lemma grow_nonempty (fuel : nat) :
  forall (segs : list CubicSegment) (target : nat) (sx sy : R)
         (d : CubicSegment),
    segs <> [] ->
    (target - List.length segs <= fuel)%nat ->
    exists segs',
      grow fuel segs target sx sy = Some segs' /\
      List.length segs' = Nat.max (List.length segs) target /\
      endPoint segs' d = endPoint segs d /\
      segs' <> [].
Proof.
  induction fuel as [| fuel IH]; intros segs target sx sy d Hne Hf; simpl.
  - destruct (Nat.ltb_spec (List.length segs) target); [lia |].
    exists segs. repeat split; [lia | assumption].
  - destruct (Nat.ltb_spec (List.length segs) target).
    + destruct (IH (subdivideAtLongest segs sx sy) target sx sy d)
        as (segs' & Hg & Hl & He & Hn).
      * now apply subdivideAtLongest_nonempty.
      * rewrite subdivideAtLongest_length by assumption. lia.
      * exists segs'. rewrite Hg. repeat split; try assumption.
        -- rewrite Hl, subdivideAtLongest_length by assumption. lia.
        -- rewrite He. now apply subdivideAtLongest_endPoint.
    + exists segs. repeat split; [lia | assumption].
Qed.

(** On a path without segments the loop never ends when a segment is
    asked for: [subdivideAtLongest] gives the empty list back. *)
Lemma grow_empty_diverges (fuel target : nat) (sx sy : R) :
  (0 < target)%nat -> grow fuel [] target sx sy = None.
Proof.
  intros H. induction fuel as [| fuel IH]; simpl;
    destruct target; try lia; [reflexivity | exact IH].
Qed.

(** Two paths that each have a segment are balanced to the greater of
    the two counts; no count gets smaller, and start and end points,
    and the closed flags, are kept. *)
Lemma balanceCommands_nonempty (a b : NormalizedPath) (d : CubicSegment) :
  segments a <> [] -> segments b <> [] ->
  exists fuel a' b',
    balanceCommands fuel a b = Some (a', b') /\
    List.length (segments a') = List.length (segments b') /\
    List.length (segments a')
      = Nat.max (List.length (segments a)) (List.length (segments b)) /\
    (startX a', startY a', closed a') = (startX a, startY a, closed a) /\
    (startX b', startY b', closed b') = (startX b, startY b, closed b) /\
    endPoint (segments a') d = endPoint (segments a) d /\
    endPoint (segments b') d = endPoint (segments b) d.
Proof.
  intros Ha Hb.
  set (n := Nat.max (List.length (segments a)) (List.length (segments b))).
  destruct (grow_nonempty n (segments a) (List.length (segments b))
              (startX a) (startY a) d Ha) as (sa & Hga & Hla & Hea & Hna);
    [unfold n; lia |].
  destruct (grow_nonempty n (segments b) (List.length sa)
              (startX b) (startY b) d Hb) as (sb & Hgb & Hlb & Heb & Hnb);
    [unfold n; lia |].
  exists n, (mkPath (startX a) (startY a) sa (closed a)),
         (mkPath (startX b) (startY b) sb (closed b)).
  unfold balanceCommands. rewrite Hga, Hgb. simpl.
  repeat split; try assumption; lia.
Qed.

(** One segment against four. *)
Example balance_1_4 (sx sy : R) (s a1 a2 a3 a4 d : CubicSegment) :
  exists fuel a' b',
    balanceCommands fuel (mkPath sx sy [s] false)
      (mkPath 0 0 [a1; a2; a3; a4] true) = Some (a', b') /\
    List.length (segments a') = 4%nat /\
    List.length (segments b') = 4%nat /\
    (startX a', startY a') = (sx, sy) /\
    endPoint (segments a') d = (x s, y s) /\
    segments b' = [a1; a2; a3; a4].
Proof.
  exists 3%nat. unfold balanceCommands.
  destruct (grow_nonempty 3 [s] 4 sx sy d) as (sa & Hg & Hl & He & _);
    [discriminate | simpl; lia |].
  simpl segments. simpl List.length at 1. simpl startX. simpl startY.
  rewrite Hg. simpl in Hl. rewrite Hl. simpl.
  eexists _, _. repeat split; try assumption.
Qed.

(** C4 (where the code departs from it).  When one path has no segment
    and the other has one, [balanceCommands] does not return, whatever
    the number of rounds its loop is given. *)
Theorem balanceCommands_empty_diverges (fuel : nat) :
  balanceCommands fuel (mkPath 0 0 [] false)
    (mkPath 0 0 [lineToCubic 0 0 10 10] false) = None.
Proof.
  unfold balanceCommands. simpl segments. simpl List.length.
  now rewrite grow_empty_diverges by lia.
Qed.

(** The blend of an outline without segments and one with segments
    does not return either, strictly between the two ends. *)
Lemma lerpPath_empty_diverges (host : Host) (fuel : nat)
  (pathA pathB : string) (t : R) :
  0 < t < 1 ->
  segments (normalizeToCubic (parsePathD host pathA)) = [] ->
  segments (normalizeToCubic (parsePathD host pathB)) <> [] ->
  lerpPath host fuel pathA pathB t = None.
Proof.
  intros Ht Ha Hb. unfold lerpPath, balanceCommands.
  rewrite Rleb_f, Rleb_f by lra. rewrite Ha.
  rewrite grow_empty_diverges; [reflexivity |].
  destruct (segments (normalizeToCubic (parsePathD host pathB)));
    [contradiction | simpl; lia].
Qed.

End PathMorphFacts.

(* ------------------------------------------------------------------ *)
(** ** Timeline construction *)

Module TimelineFacts.
Import TimelineCtor.

Definition byAt (a b : Keyframe) : Prop := kf_at a <= kf_at b.

Lemma insertByAt_perm (kf : Keyframe) (l : list Keyframe) :
  Permutation (kf :: l) (insertByAt kf l).
Proof.
  induction l as [| k l IH]; simpl; [reflexivity |].
  destruct (Rleb (kf_at kf) (kf_at k)); [reflexivity |].
  rewrite perm_swap. now constructor.
Qed.

Lemma sortByAt_perm (l : list Keyframe) : Permutation l (sortByAt l).
Proof.
  induction l as [| k l IH]; simpl; [constructor |].
  rewrite <- insertByAt_perm. now constructor.
Qed.

Lemma insertByAt_sorted (kf : Keyframe) (l : list Keyframe) :
  StronglySorted byAt l -> StronglySorted byAt (insertByAt kf l).
Proof.
  induction 1 as [| k l Hs IH Hall]; simpl.
  - repeat constructor.
  - destruct (Rleb (kf_at kf) (kf_at k)) eqn:E.
    + apply Rleb_spec in E. constructor; [now constructor |].
      constructor; [exact E |].
      eapply Forall_impl; [| exact Hall]. unfold byAt. intros; lra.
    + apply Rleb_false_spec in E. constructor; [exact IH |].
      rewrite <- (insertByAt_perm kf l).
      constructor; [unfold byAt; lra | exact Hall].
Qed.

Lemma sortByAt_sorted (l : list Keyframe) : StronglySorted byAt (sortByAt l).
Proof.
  induction l; simpl; [constructor | now apply insertByAt_sorted].
Qed.

Lemma sortByAt_nonempty (l : list Keyframe) : l <> [] -> sortByAt l <> [].
Proof.
  intros H E. apply H. apply Permutation_nil.
  rewrite <- E. symmetry. apply sortByAt_perm.
Qed.

(** With no keyframe the constructor fails. *)
Lemma timeline_empty (n : nat) (actor : Actor) :
  timeline n actor (mkConfig []) = inl (NeedsKeyframe (id actor)).
Proof. reflexivity. Qed.

(** With keyframes it returns: the keyframes sorted by [at], the first
    one replaced by its filled form, the duration the [at] of the last,
    the counter one further. *)
Lemma timeline_nonempty (n : nat) (actor : Actor) (kfs : list Keyframe) :
  kfs <> [] ->
  exists first rest,
    sortByAt kfs = first :: rest /\
    timeline n actor (mkConfig kfs)
      = inr (mkTimeline (timelineId actor (Datatypes.S n)) (id actor)
               (filledFirst actor first :: rest)
               (kf_at (last (first :: rest) first)),
             Datatypes.S n).
Proof.
  intros H. unfold timeline. simpl cfg_keyframes.
  destruct kfs as [| k0 ks] eqn:E; [contradiction |]. rewrite <- E.
  destruct (sortByAt kfs) as [| first rest] eqn:Hs.
  - exfalso. apply (sortByAt_nonempty kfs); [now subst | exact Hs].
  - exists first, rest. split; [reflexivity |]. cbn [hd tl].
    do 3 f_equal. destruct rest; reflexivity.
Qed.

(** The times of the result are those of the input in ascending order,
    and the duration is the greatest of them. *)
Lemma timeline_sorted (n : nat) (actor : Actor) (kfs : list Keyframe)
  (tl : Timeline) (n' : nat) :
  timeline n actor (mkConfig kfs) = inr (tl, n') ->
  map kf_at (keyframes tl) = map kf_at (sortByAt kfs) /\
  StronglySorted Rle (map kf_at (keyframes tl)) /\
  Forall (fun kf => kf_at kf <= duration tl) (keyframes tl) /\
  In (duration tl) (map kf_at kfs).
Proof.
  intros Ht. destruct kfs as [| k0 ks] eqn:E; [discriminate |].
  rewrite <- E in *.
  destruct (timeline_nonempty n actor kfs) as (first & rest & Hs & Ht');
    [now subst |].
  rewrite Ht' in Ht. inversion Ht; subst tl n'; clear Ht. simpl.
  pose proof (sortByAt_sorted kfs) as Hsorted. rewrite Hs in Hsorted.
  assert (Hm : map kf_at (filledFirst actor first :: rest)
               = map kf_at (first :: rest)) by reflexivity.
  split; [now rewrite Hs |]. split; [| split].
  - change (StronglySorted Rle (map kf_at (filledFirst actor first :: rest))).
    rewrite Hm. clear - Hsorted.
    induction Hsorted as [| k l Hl IH Hall]; simpl; constructor; auto.
    rewrite Forall_map. exact Hall.
  - assert (Hlast : forall l d, StronglySorted byAt l ->
              Forall (fun kf => kf_at kf <= kf_at (last l d)) l).
    { clear. induction 1 as [| k l Hl IH Hall]; [constructor |].
      destruct l as [| k' l'].
      - constructor; [simpl; lra | constructor].
      - change (last (k :: k' :: l') d) with (last (k' :: l') d).
        constructor; [| exact IH].
        inversion IH as [| ? ? Hk' _]; subst. inversion Hall; subst.
        unfold byAt in *. lra. }
    specialize (Hlast (first :: rest) first Hsorted).
    inversion Hlast as [| ? ? Hf Hr]; subst.
    constructor; [exact Hf | exact Hr].
  - apply in_map.
    assert (Hin : In (last (first :: rest) first) (first :: rest)).
    { clear. generalize first at 1 3. induction rest as [| k l IH];
        intros f; [now left |].
      change (last (f :: k :: l) first) with (last (k :: l) first).
      right. apply IH. }
    eapply Permutation_in; [symmetry; apply sortByAt_perm |].
    now rewrite Hs.
Qed.

(** The first keyframe after construction: position, scale, rotation
    and opacity are what the keyframe said, or the defaults of a fresh
    actor; fill, stroke, strokeWidth, strokeAlign, blurRadius,
    backdropBlur and curve are what the keyframe said. *)
Lemma filledFirst_fields (actor : Actor) (first : Keyframe) :
  let f := filledFirst actor first in
  kf_at f = kf_at first /\
  position f = Some (orElse (position first) (origin actor)) /\
  scale f = Some (orElse (scale first) (ScaleNum 1)) /\
  rotation f = Some (orElse (rotation first) 0) /\
  opacity f = Some (orElse (opacity first) 1) /\
  fill f = fill first /\ stroke f = stroke first /\
  strokeWidth f = strokeWidth first /\ strokeAlign f = strokeAlign first /\
  blurRadius f = blurRadius first /\ backdropBlur f = backdropBlur first /\
  curve f = curve first.
Proof.
  simpl. repeat split. destruct (position first); [reflexivity |].
  simpl. now destruct (origin actor).
Qed.

Definition someActor : Actor :=
  mkActor "actor-t" ["p1"%string] (mkPoint 50 50) (mkPoint 50 50)
    (ScaleNum 1) 0 1 0 0 0 None None.

(** The keyframes [{ at: 0, width: 100, height: 50, pathD: 'M0,0 L10,10' }]
    and [{ at: 1000, pathD: 'M0,0 L20,20' }]. *)
Definition morphFrom : Keyframe :=
  mkKeyframe 0 None None None None None None None None None None
    (Some 100) (Some 50) (Some "M0,0 L10,10"%string) None.
Definition morphTo : Keyframe :=
  mkKeyframe 1000 None None None None None None None None None None
    None None (Some "M0,0 L20,20"%string) None.

Lemma morph_timeline :
  exists tl,
    timeline 0 someActor (mkConfig [morphFrom; morphTo]) = inr (tl, 1%nat) /\
    exists first,
      keyframes tl = [first; morphTo] /\
      kf_at first = 0 /\
      width first = None /\ height first = None /\ pathD first = None.
Proof.
  assert (Hs : sortByAt [morphFrom; morphTo] = [morphFrom; morphTo]).
  { cbv [sortByAt fold_right insertByAt].
    unfold morphFrom at 1, morphTo at 1. cbv [kf_at]. now rcmp. }
  unfold timeline. simpl cfg_keyframes. rewrite Hs. cbn [hd tl].
  eexists. split; [reflexivity |].
  eexists. split; [reflexivity |]. repeat split.
Qed.

(** C6 (where the code departs from it).  The width, the height and the
    outline that the first keyframe sets are gone from the timeline. *)
Theorem timeline_drops_shape_fields :
  exists tl,
    timeline 0 someActor (mkConfig [morphFrom; morphTo]) = inr (tl, 1%nat) /\
    exists first,
      keyframes tl = [first; morphTo] /\
      kf_at first = 0 /\
      width first = None /\ height first = None /\ pathD first = None.
Proof. exact morph_timeline. Qed.

(** So the outline of such a timeline does not morph: at every time it
    is the outline of the second keyframe, held. *)
Lemma timeline_morph_held (host : Host) (fuel : nat) (t : R) :
  exists tl,
    timeline 0 someActor (mkConfig [morphFrom; morphTo]) = inr (tl, 1%nat) /\
    Interpolate._interpPath host fuel (keyframes tl) t = Some (pathD morphTo).
Proof.
  destruct morph_timeline as (tl & Ht & first & Hk & _ & _ & _ & Hp).
  exists tl. split; [exact Ht |]. rewrite Hk.
  unfold Interpolate._interpPath, Interpolate._findBracket.
  cbn [Interpolate.findBracketFrom]. rewrite Hp. cbn [isSome negb].
  unfold morphTo at 1 2. cbn [pathD kf_at isSome negb].
  destruct (Rleb 1000 t); reflexivity.
Qed.

End TimelineFacts.

(* ------------------------------------------------------------------ *)
(** ** Trigger binding *)

Module TriggerFacts.
Import Trigger.

(** The six type tags. *)
Definition knownType (ty : string) : Prop :=
  ty = "hover"%string \/ ty = "click"%string \/ ty = "loop"%string \/
  ty = "scroll"%string \/ ty = "appear"%string \/ ty = "manual"%string.

(** [v] is given and lies outside [0, 1]. *)
Definition givenOutside01 (o : option R) : Prop :=
  exists v, o = Some v /\ (v < 0 \/ 1 < v).

(** [n] is given and is less than [0]. *)
Definition givenNegativeExt (o : option ExtNum) : Prop :=
  exists n, o = Some n /\
    match n with Fin v => v < 0 | PosInf => False | NegInf => True end.

Definition givenNegative (o : option R) : Prop :=
  exists v, o = Some v /\ v < 0.

(** The configurations that binding rejects, as the specification
    lists them. *)
Definition invalid (c : TriggerConfig) : Prop :=
  (type c = "loop"%string /\
     (givenNegativeExt (iterations c) \/ givenNegative (delay c))) \/
  (type c = "scroll"%string /\
     (givenOutside01 (start c) \/ givenOutside01 (end_ c))) \/
  (type c = "appear"%string /\ givenOutside01 (threshold c)) \/
  ~ knownType (type c).

Lemma outside01_spec (o : option R) :
  outside01 o = true <-> givenOutside01 o.
Proof.
  unfold outside01, givenOutside01. destruct o as [v |].
  - rewrite orb_true_iff, !Rltb_spec. split.
    + intros H. now exists v.
    + intros (v' & E & H). now inversion E; subst.
  - split; [discriminate | intros (v & E & _); discriminate].
Qed.

Lemma negativeExt_spec (o : option ExtNum) :
  match o with Some n => negative n | None => false end = true
  <-> givenNegativeExt o.
Proof.
  unfold givenNegativeExt. destruct o as [n |].
  - split.
    + intros H. exists n. split; [reflexivity |].
      destruct n; simpl in *; [now apply Rltb_spec | discriminate | exact I].
    + intros (n' & E & H). inversion E; subst n'.
      destruct n; simpl in *; [now apply Rltb_spec | contradiction |
                                reflexivity].
  - split; [discriminate | intros (n & E & _); discriminate].
Qed.

Lemma negative_spec (o : option R) :
  match o with Some d => Rltb d 0 | None => false end = true
  <-> givenNegative o.
Proof.
  unfold givenNegative. destruct o as [v |].
  - rewrite Rltb_spec. split.
    + intros H. now exists v.
    + intros (v' & E & H). now inversion E; subst.
  - split; [discriminate | intros (v & E & _); discriminate].
Qed.

(** [validateTrigger] throws exactly on the invalid configurations. *)
Lemma validateTrigger_spec (c : TriggerConfig) :
  (exists e, validateTrigger c = Some e) <-> invalid c.
Proof.
  unfold validateTrigger, invalid, knownType.
  destruct (String.eqb_spec (type c) "hover") as [E | N1].
  { rewrite E. split; [intros (e & H); discriminate |].
    intros [(H & _) | [(H & _) | [(H & _) | H]]]; try discriminate.
    exfalso. apply H. tauto. }
  destruct (String.eqb_spec (type c) "click") as [E | N2].
  { rewrite E. split; [intros (e & H); discriminate |].
    intros [(H & _) | [(H & _) | [(H & _) | H]]]; try discriminate.
    exfalso. apply H. tauto. }
  destruct (String.eqb_spec (type c) "loop") as [E | N3].
  { rewrite E.
    pose proof (negativeExt_spec (iterations c)) as Hi.
    pose proof (negative_spec (delay c)) as Hd.
    destruct (match iterations c with
              | Some n => negative n | None => false end).
    - split; [intros _ | intros _; eauto]. left. split; [reflexivity |].
      left. now apply Hi.
    - destruct (match delay c with
                | Some d => Rltb d 0 | None => false end).
      + split; [intros _ | intros _; eauto]. left. split; [reflexivity |].
        right. now apply Hd.
      + split; [intros (e & H); discriminate |].
        intros [(_ & [H | H]) | [(H & _) | [(H & _) | H]]];
          try discriminate.
        * apply Hi in H. discriminate.
        * apply Hd in H. discriminate.
        * exfalso. apply H. tauto. }
  destruct (String.eqb_spec (type c) "scroll") as [E | N4].
  { rewrite E.
    pose proof (outside01_spec (start c)) as Hs.
    pose proof (outside01_spec (end_ c)) as He.
    destruct (outside01 (start c)).
    - split; [intros _ | intros _; eauto]. right; left.
      split; [reflexivity |]. left. now apply Hs.
    - destruct (outside01 (end_ c)).
      + split; [intros _ | intros _; eauto]. right; left.
        split; [reflexivity |]. right. now apply He.
      + split; [intros (e & H); discriminate |].
        intros [(H & _) | [(_ & [H | H]) | [(H & _) | H]]];
          try discriminate.
        * apply Hs in H. discriminate.
        * apply He in H. discriminate.
        * exfalso. apply H. tauto. }
  destruct (String.eqb_spec (type c) "appear") as [E | N5].
  { rewrite E.
    pose proof (outside01_spec (threshold c)) as Ht.
    destruct (outside01 (threshold c)).
    - split; [intros _ | intros _; eauto]. right; right; left.
      split; [reflexivity |]. now apply Ht.
    - split; [intros (e & H); discriminate |].
      intros [(H & _) | [(H & _) | [(_ & H) | H]]]; try discriminate.
      + apply Ht in H. discriminate.
      + exfalso. apply H. tauto. }
  destruct (String.eqb_spec (type c) "manual") as [E | N6].
  { rewrite E. split; [intros (e & H); discriminate |].
    intros [(H & _) | [(H & _) | [(H & _) | H]]]; try discriminate.
    exfalso. apply H. tauto. }
  split; [intros _ | intros _; eauto].
  right; right; right. tauto.
Qed.

(** [{ type: 'loop', iterations: -1 }] and [{ type: 'scroll', start: 1.5 }]. *)
Definition loopMinusOne : TriggerConfig :=
  mkTrigger "loop" None None None (Some (Fin (-1))) None None None None None
    None.
Definition scrollStartHigh : TriggerConfig :=
  mkTrigger "scroll" None None None None None None (Some 1.5) None None None.

(** C7.  Binding a configuration fails exactly when the configuration
    is invalid: a loop with negative iterations or delay, a scroll with
    start or end outside [0, 1], an appear with threshold outside
    [0, 1], or a type tag that is none of the six.  On every other
    configuration it returns a binding with the id of the timeline and
    a new object that has the fields of the configuration unchanged
    (nothing is clamped); the new object is none of the objects there
    were, the caller's among them, and these are left as they were.
    [{type:'loop', iterations:-1}] and [{type:'scroll', start:1.5}]
    fail. *)
Theorem trigger_validates (h : Heap) (tl : Timeline) (c : TriggerConfig) :
  ((exists e, trigger h tl c = inl e) <-> invalid c) /\
  (~ invalid c ->
   exists b h',
     trigger h tl c = inr (b, h') /\
     timelineId b = tl_id tl /\
     deref h (config b) = None /\
     deref h' (config b) = Some c /\
     (forall a c', deref h a = Some c' -> deref h' a = Some c')) /\
  trigger h tl loopMinusOne = inl IterationsNegative /\
  trigger h tl scrollStartHigh = inl StartOutOfRange.
Proof.
  unfold trigger.
  pose proof (validateTrigger_spec c) as Hv.
  split; [| split; [| split]].
  - rewrite <- Hv. destruct (validateTrigger c) as [e |].
    + split; eauto.
    + split; intros (e & H); discriminate.
  - intros Hn. destruct (validateTrigger c) as [e |].
    + exfalso. apply Hn, Hv. eauto.
    + exists (mkBinding (tl_id tl) (List.length h)), (h ++ [c]).
      simpl. unfold deref in *. repeat split.
      * apply nth_error_None. lia.
      * rewrite nth_error_app2 by lia. now rewrite Nat.sub_diag.
      * intros a c' H. rewrite nth_error_app1; [exact H |].
        apply nth_error_Some. congruence.
  - unfold validateTrigger. simpl. now rcmp.
  - unfold validateTrigger, outside01. simpl. now rcmp.
Qed.

(** [{type:'hover', reverse:false}], bound to a timeline of two
    keyframes. *)
Definition hoverConfig : TriggerConfig :=
  mkTrigger "hover" None (Some false) None None None None None None None
    None.

Lemma trigger_validates_witness :
  exists b h',
    trigger [hoverConfig]
      (mkTimeline "tl-1" "a-1" [kfAt 0; kfAt 1000] 1000) hoverConfig
      = inr (b, h') /\
    timelineId b = "tl-1"%string /\
    deref [hoverConfig] (config b) = None /\
    deref h' (config b) = Some hoverConfig.
Proof.
  destruct (trigger_validates [hoverConfig]
              (mkTimeline "tl-1" "a-1" [kfAt 0; kfAt 1000] 1000) hoverConfig)
    as (_ & H & _).
  destruct H as (b & h' & Ht & Hid & Hnew & Hcopy & _).
  - intros Hi. apply validateTrigger_spec in Hi. destruct Hi as (e & He).
    discriminate He.
  - now exists b, h'.
Defined.

End TriggerFacts.

(* ------------------------------------------------------------------ *)
(** ** Keyframe interpolation *)

Module InterpolateFacts.
Import Interpolate.

(** *** The bracket *)

(** The bracket of a property only looks at the keyframes that define
    it. *)
Lemma findBracketFrom_filter (has : Keyframe -> bool) (t : R)
  (kfs : list Keyframe) :
  forall prev,
    findBracketFrom kfs t has prev
    = findBracketFrom (filter has kfs) t has prev.
Proof.
  induction kfs as [| kf rest IH]; intros prev; simpl; [reflexivity |].
  destruct (has kf) eqn:E; simpl; [rewrite E; simpl |]; try apply IH.
  destruct (Rleb (kf_at kf) t); [apply IH | reflexivity].
Qed.

Lemma findBracket_filter (has : Keyframe -> bool) (t : R)
  (kfs : list Keyframe) :
  _findBracket kfs t has = _findBracket (filter has kfs) t has.
Proof. apply findBracketFrom_filter. Qed.

Lemma findBracket_none (has : Keyframe -> bool) (t : R)
  (kfs : list Keyframe) :
  (forall kf, In kf kfs -> has kf = false) ->
  _findBracket kfs t has = (None, None).
Proof.
  intros H. rewrite findBracket_filter.
  replace (filter has kfs) with (@nil Keyframe); [reflexivity |].
  symmetry. induction kfs as [| kf rest IH]; [reflexivity |]. simpl.
  rewrite (H kf) by now left. apply IH. intros k Hk. apply H. now right.
Qed.

(** The keyframes of a bracket define the property. *)
Lemma findBracketFrom_has (has : Keyframe -> bool) (t : R)
  (kfs : list Keyframe) :
  forall prev p n,
    findBracketFrom kfs t has prev = (p, n) ->
    (forall k, prev = Some k -> has k = true) ->
    (forall k, p = Some k -> has k = true) /\
    (forall k, n = Some k -> has k = true).
Proof.
  induction kfs as [| kf rest IH]; intros prev p n H Hprev; simpl in H.
  - inversion H; subst. split; [exact Hprev | discriminate].
  - destruct (has kf) eqn:E; simpl in H.
    + destruct (Rleb (kf_at kf) t).
      * apply (IH _ _ _ H). intros k Hk. now inversion Hk; subst.
      * inversion H; subst. split; [exact Hprev |].
        intros k Hk. now inversion Hk; subst.
    + now apply (IH _ _ _ H).
Qed.

(** The bracket in the words of the specification: the last keyframe at
    or before the query time that defines the property, and the first
    one after it that does. *)
Definition lastOpt {A : Type} (l : list A) : option A :=
  match l with [] => None | a :: l' => Some (last l' a) end.

Definition specPrev (has : Keyframe -> bool) (kfs : list Keyframe) (t : R)
  : option Keyframe :=
  lastOpt (filter (fun kf => has kf && Rleb (kf_at kf) t) kfs).

Definition specNext (has : Keyframe -> bool) (kfs : list Keyframe) (t : R)
  : option Keyframe :=
  find (fun kf => has kf && Rltb t (kf_at kf)) kfs.

Definition byAt (a b : Keyframe) : Prop := kf_at a <= kf_at b.

Lemma last_cons_default {A : Type} (l : list A) :
  forall a b : A, last (b :: l) a = last l b.
Proof.
  induction l as [| c l IH]; intros a b; [reflexivity |].
  change (last (b :: c :: l) a) with (last (c :: l) a).
  now rewrite !IH.
Qed.

Lemma last_In {A : Type} (l : list A) (a : A) : In (last l a) (a :: l).
Proof.
  revert a. induction l as [| b l IH]; intros a; [now left |].
  right. rewrite last_cons_default. apply IH.
Qed.

Lemma lastOpt_cons {A : Type} (a : A) (l : list A) :
  lastOpt (a :: l) = match lastOpt l with Some b => Some b | None => Some a end.
Proof.
  destruct l as [| b l]; [reflexivity |]. unfold lastOpt.
  now rewrite last_cons_default.
Qed.

(** On a list sorted by time the loop computes that bracket. *)
Lemma findBracketFrom_sorted (has : Keyframe -> bool) (t : R)
  (kfs : list Keyframe) :
  StronglySorted byAt kfs ->
  forall prev,
    findBracketFrom kfs t has prev
    = (match specPrev has kfs t with Some p => Some p | None => prev end,
       specNext has kfs t).
Proof.
  unfold specPrev, specNext.
  induction 1 as [| kf rest Hs IH Hall]; intros prev; simpl; [reflexivity |].
  destruct (has kf) eqn:E; simpl.
  - destruct (Rleb (kf_at kf) t) eqn:Hle.
    + apply Rleb_spec in Hle. rewrite Rltb_f by lra.
      rewrite IH, lastOpt_cons.
      now destruct (lastOpt _).
    + apply Rleb_false_spec in Hle. rewrite Rltb_t by lra.
      replace (filter _ rest) with (@nil Keyframe); [reflexivity |].
      symmetry. clear IH Hs. induction rest as [| k rest IH];
        [reflexivity |].
      inversion Hall; subst. simpl. unfold byAt in *.
      rewrite (Rleb_f (kf_at k) t) by lra. rewrite andb_false_r. now apply IH.
  - apply IH.
Qed.

Lemma findBracket_sorted (has : Keyframe -> bool) (t : R)
  (kfs : list Keyframe) :
  StronglySorted byAt kfs ->
  _findBracket kfs t has = (specPrev has kfs t, specNext has kfs t).
Proof.
  intros H. unfold _findBracket. rewrite findBracketFrom_sorted by assumption.
  now destruct (specPrev has kfs t).
Qed.

(** The bracket is strictly ordered around the query time. *)
Lemma specPrev_at (has : Keyframe -> bool) (kfs : list Keyframe) (t : R)
  (p : Keyframe) :
  specPrev has kfs t = Some p -> has p = true /\ kf_at p <= t.
Proof.
  unfold specPrev, lastOpt.
  destruct (filter _ kfs) as [| a l] eqn:E; [discriminate |].
  intros H; inversion H; subst; clear H.
  assert (Hin : In (last l a) (filter (fun kf => has kf && Rleb (kf_at kf) t)
                                  kfs)).
  { rewrite E. apply last_In. }
  apply filter_In in Hin. destruct Hin as (_ & Hb).
  apply andb_true_iff in Hb. now rewrite Rleb_spec in Hb.
Qed.

Lemma specNext_at (has : Keyframe -> bool) (kfs : list Keyframe) (t : R)
  (n : Keyframe) :
  specNext has kfs t = Some n -> has n = true /\ t < kf_at n.
Proof.
  unfold specNext. intros H. apply find_some in H. destruct H as (_ & Hb).
  apply andb_true_iff in Hb. now rewrite Rltb_spec in Hb.
Qed.

(** *** What the engine returns *)

Lemma lerpGradientDef_total (host : Host) (a b : GradientDef) (t : R)
  (w : World) :
  exists g w', lerpGradientDef host a b t w = Some (g, w').
Proof.
  unfold lerpGradientDef, freshId, bind, ret, nextGradId, readClock.
  destruct a, b; try destruct (Rltb t 0.5); eauto.
Qed.

Lemma colorToUniformGradient_total (c : string) (g : GradientDef)
  (w : World) :
  exists u w', colorToUniformGradient c g w = Some (u, w').
Proof.
  unfold colorToUniformGradient, freshId, bind, ret, nextGradId, readClock.
  destruct g; eauto.
Qed.

Lemma lerpColorOrGradient_total (host : Host) (a b : string) (t : R)
  (gs : list GradientDef) (w : World) :
  exists r w', lerpColorOrGradient host a b t gs w = Some (r, w').
Proof.
  unfold lerpColorOrGradient.
  destruct (falsy a && falsy b); [unfold ret; eauto |].
  destruct (falsy a); [unfold ret; eauto |].
  destruct (falsy b); [unfold ret; eauto |].
  destruct (String.eqb a b); [unfold ret; eauto |].
  destruct (negb (isUrl a) && negb (isUrl b)); [unfold ret; eauto |].
  destruct (isUrl a && isUrl b).
  - destruct (resolveGradient host a gs) as [ga |];
      [| unfold ret; eauto].
    destruct (resolveGradient host b gs) as [gb |];
      [| unfold ret; eauto].
    unfold bind. destruct (lerpGradientDef_total host ga gb t w)
      as (g & w' & ->). unfold ret; eauto.
  - destruct (resolveGradient host (if isUrl a then a else b) gs) as [gd |];
      [| unfold ret; eauto].
    unfold bind.
    destruct (colorToUniformGradient_total (if isUrl a then b else a) gd w)
      as (u & w1 & ->).
    destruct (isUrl a).
    + destruct (lerpGradientDef_total host gd u t w1) as (g & w' & ->).
      unfold ret; eauto.
    + destruct (lerpGradientDef_total host u gd t w1) as (g & w' & ->).
      unfold ret; eauto.
Qed.

Lemma interpColor_total (host : Host) (kfs : list Keyframe) (t : R)
  (get : Keyframe -> option string) (gs : list GradientDef) (w : World) :
  exists r w', _interpColor host kfs t get gs w = Some (r, w').
Proof.
  unfold _interpColor.
  destruct (_findBracket kfs t _) as [[p |] [n |]];
    try (unfold ret; eauto).
  apply lerpColorOrGradient_total.
Qed.

(** A colour channel that no keyframe defines has no result, and
    leaves the world alone. *)
Lemma interpColor_none (host : Host) (kfs : list Keyframe) (t : R)
  (get : Keyframe -> option string) (gs : list GradientDef) (w : World) :
  (forall kf, In kf kfs -> get kf = None) ->
  _interpColor host kfs t get gs w = Some (noColor, w).
Proof.
  intros H. unfold _interpColor. rewrite findBracket_none; [reflexivity |].
  intros kf Hk. now rewrite (H kf Hk).
Qed.

Definition noHooks (plugins : list MotionSvgPlugin) : Prop :=
  hasBefore plugins = false /\ hasAfter plugins = false.

(** The gradients that the options give. *)
Definition gradientsOf (opts : option InterpolateOptions)
  : list GradientDef :=
  orElse (match opts with Some o => gradients o | None => None end) [].

(** With no hook installed, the state that the engine returns holds the
    result of each channel on the keyframes as given; it returns when
    the outline channel does. *)
Lemma interpolateKeyframes_noHooks (host : Host) (fuel : nat)
  (plugins : list MotionSvgPlugin) (kfs : list Keyframe) (t : R)
  (opts : option InterpolateOptions) (w : World) :
  noHooks plugins -> kfs <> [] ->
  exists fillResult w1 strokeResult w2,
    _interpColor host kfs t fill (gradientsOf opts) w
      = Some (fillResult, w1) /\
    _interpColor host kfs t stroke (gradientsOf opts) w1
      = Some (strokeResult, w2) /\
    interpolateKeyframes host fuel plugins kfs t opts w
    = match _interpPath host fuel kfs t with
      | None => None
      | Some path =>
          Some (mkState
                  (_interpPoint host kfs t position (mkPoint 0 0))
                  (_interpScale host kfs t)
                  (_interpNum host kfs t rotation 0)
                  (_interpNum host kfs t opacity 1)
                  (cr_color fillResult)
                  (cr_color strokeResult)
                  (_interpOptNum host kfs t strokeWidth)
                  (_interpSnap kfs t strokeAlign)
                  (_interpOptNum host kfs t blurRadius)
                  (_interpOptNum host kfs t backdropBlur)
                  (_interpOptNum host kfs t width)
                  (_interpOptNum host kfs t height)
                  (cr_gradient fillResult)
                  (cr_gradient strokeResult)
                  path,
                w2)
      end.
Proof.
  intros [Hb Ha] Hne.
  destruct (interpColor_total host kfs t fill (gradientsOf opts) w)
    as (fr & w1 & Hf).
  destruct (interpColor_total host kfs t stroke (gradientsOf opts) w1)
    as (sr & w2 & Hs).
  exists fr, w1, sr, w2. split; [exact Hf |]. split; [exact Hs |].
  unfold interpolateKeyframes. destruct kfs as [| k0 ks]; [contradiction |].
  rewrite Hb, Ha. unfold bind at 1. unfold ret at 1.
  fold (gradientsOf opts).
  unfold bind at 1. rewrite Hf. unfold bind at 1. rewrite Hs.
  unfold bind, lift, ret.
  now destruct (_interpPath host fuel (k0 :: ks) t).
Qed.

(** *** The empty list *)

(** C10.  On an empty keyframe list the engine returns the default
    state: position (0, 0), scale 1, rotation 0, opacity 1 and every
    optional field absent.  The world is as before: no plugin hook was
    invoked (none is in the log) and no gradient id was taken. *)
Theorem interpolateKeyframes_empty (host : Host) (fuel : nat)
  (plugins : list MotionSvgPlugin) (timeMs : R)
  (opts : option InterpolateOptions) (w : World) :
  interpolateKeyframes host fuel plugins [] timeMs opts w
  = Some (mkState (mkPoint 0 0) (ScaleNum 1) 0 1
            None None None None None None None None None None None,
          w).
Proof. reflexivity. Qed.

(** *** A numeric property between two keyframes *)

(** [[{at:0, opacity:1}, {at:1000, opacity:0, curve:'linear'}]]. *)
Definition fadeOut : list Keyframe :=
  [ mkKeyframe 0 None None None (Some 1) None None None None None None
      None None None None;
    mkKeyframe 1000 None None None (Some 0) None None None None None None
      None None None (Some (EasingNamed "linear")) ].

Lemma fadeOut_sorted : StronglySorted byAt fadeOut.
Proof.
  unfold fadeOut. repeat constructor. unfold byAt; simpl; lra.
Qed.

Lemma interpNum_between (host : Host) (kfs : list Keyframe) (t : R)
  (get : Keyframe -> option R) (def : R) (p n : Keyframe) (pv nv : R) :
  StronglySorted byAt kfs ->
  specPrev (fun kf => isSome (get kf)) kfs t = Some p ->
  specNext (fun kf => isSome (get kf)) kfs t = Some n ->
  get p = Some pv -> get n = Some nv ->
  _interpNum host kfs t get def
  = lerp pv nv (Easing.getEasingFunction host (curve n)
                  ((t - kf_at p) / (kf_at n - kf_at p))) /\
  _interpOptNum host kfs t get
  = Some (lerp pv nv (Easing.getEasingFunction host (curve n)
                        ((t - kf_at p) / (kf_at n - kf_at p)))).
Proof.
  intros Hs Hp Hn Hpv Hnv.
  unfold _interpNum, _interpOptNum. rewrite findBracket_sorted by assumption.
  rewrite Hp, Hn, Hpv, Hnv. simpl bang.
  apply specPrev_at in Hp. apply specNext_at in Hn.
  unfold _easedT. rewrite Rltb_t by lra. now split.
Qed.

Lemma fadeOut_at_500 (host : Host) (fuel : nat)
  (opts : option InterpolateOptions) (w : World) :
  Easing.lookup "linear" (easingRegistry host) = Some Easing.linear ->
  exists st w',
    interpolateKeyframes host fuel [] fadeOut 500 opts w = Some (st, w') /\
    s_opacity st = 0.5.
Proof.
  intros Hlin.
  destruct (interpolateKeyframes_noHooks host fuel [] fadeOut 500 opts w)
    as (fr & w1 & sr & w2 & _ & _ & ->); [now split | discriminate |].
  assert (Hpath : _interpPath host fuel fadeOut 500 = Some None).
  { unfold _interpPath. now rewrite findBracket_none
      by (intros kf [<- | [<- | []]]; reflexivity). }
  rewrite Hpath. eexists _, _. split; [reflexivity |]. simpl s_opacity.
  unfold _interpNum, _findBracket, fadeOut, findBracketFrom. simpl. rcmp.
  simpl. unfold _easedT. simpl. rcmp. rewrite Hlin. unfold lerp.
  simpl. unfold Easing.linear. lra.
Qed.

(** A scale that is a number at both keyframes is blended as a
    number. *)
Lemma interpScale_between (host : Host) (kfs : list Keyframe) (t : R)
  (p n : Keyframe) (pv nv : R) :
  StronglySorted byAt kfs ->
  specPrev (fun kf => isSome (scale kf)) kfs t = Some p ->
  specNext (fun kf => isSome (scale kf)) kfs t = Some n ->
  scale p = Some (ScaleNum pv) -> scale n = Some (ScaleNum nv) ->
  _interpScale host kfs t
  = ScaleNum (lerp pv nv (Easing.getEasingFunction host (curve n)
                            ((t - kf_at p) / (kf_at n - kf_at p)))).
Proof.
  intros Hs Hp Hn Hpv Hnv.
  unfold _interpScale. rewrite findBracket_sorted by assumption.
  rewrite Hp, Hn, Hpv, Hnv. simpl bang.
  apply specPrev_at in Hp. apply specNext_at in Hn.
  unfold _easedT. rewrite Rltb_t by lra. unfold lerpScale.
  rewrite Rminus_diag, Rabs_R0, Rltb_t by lra. reflexivity.
Qed.

(** With no hook installed the numeric fields of the state are the
    results of the numeric channels. *)
Lemma state_numeric_fields (host : Host) (fuel : nat)
  (plugins : list MotionSvgPlugin) (kfs : list Keyframe) (t : R)
  (opts : option InterpolateOptions) (w : World) (st : ActorState)
  (w' : World) :
  noHooks plugins ->
  interpolateKeyframes host fuel plugins kfs t opts w = Some (st, w') ->
  s_scale st = _interpScale host kfs t /\
  s_rotation st = _interpNum host kfs t rotation 0 /\
  s_opacity st = _interpNum host kfs t opacity 1 /\
  s_strokeWidth st = _interpOptNum host kfs t strokeWidth /\
  s_blurRadius st = _interpOptNum host kfs t blurRadius /\
  s_backdropBlur st = _interpOptNum host kfs t backdropBlur /\
  s_width st = _interpOptNum host kfs t width /\
  s_height st = _interpOptNum host kfs t height.
Proof.
  intros Hh Hrun. destruct kfs as [| k0 ks].
  { cbn [interpolateKeyframes] in Hrun. inversion Hrun; subst.
    repeat split. }
  destruct (interpolateKeyframes_noHooks host fuel plugins (k0 :: ks) t opts w
              Hh) as (fr & w1 & sr & w2 & _ & _ & E); [discriminate |].
  rewrite E in Hrun.
  destruct (_interpPath host fuel (k0 :: ks) t); [| discriminate].
  inversion Hrun; subst. repeat split.
Qed.

(** C2.  On a keyframe list sorted by time, a numeric property whose
    last defining keyframe at or before the query time is [p] and whose
    first defining keyframe after it is [n] has the value
    [lerp(p.value, n.value, easing(n.curve)((t - p.at) / (n.at - p.at)))];
    this holds of the required numeric properties (rotation, opacity),
    of the optional ones, and of a scale that is a number at both
    keyframes; with no hook installed these values are the fields of
    the state that the engine returns.  For the keyframes
    [[{at:0, opacity:1}, {at:1000, opacity:0, curve:'linear'}]] the
    opacity at 500 is 0.5, ['linear'] being the built-in curve. *)
Theorem numeric_between_keyframes :
  (forall (host : Host) (kfs : list Keyframe) (t : R)
          (get : Keyframe -> option R) (def : R) (p n : Keyframe)
          (pv nv : R),
      StronglySorted byAt kfs ->
      specPrev (fun kf => isSome (get kf)) kfs t = Some p ->
      specNext (fun kf => isSome (get kf)) kfs t = Some n ->
      get p = Some pv -> get n = Some nv ->
      _interpNum host kfs t get def
      = lerp pv nv (Easing.getEasingFunction host (curve n)
                      ((t - kf_at p) / (kf_at n - kf_at p))) /\
      _interpOptNum host kfs t get
      = Some (lerp pv nv (Easing.getEasingFunction host (curve n)
                            ((t - kf_at p) / (kf_at n - kf_at p))))) /\
  (forall (host : Host) (kfs : list Keyframe) (t : R) (p n : Keyframe)
          (pv nv : R),
      StronglySorted byAt kfs ->
      specPrev (fun kf => isSome (scale kf)) kfs t = Some p ->
      specNext (fun kf => isSome (scale kf)) kfs t = Some n ->
      scale p = Some (ScaleNum pv) -> scale n = Some (ScaleNum nv) ->
      _interpScale host kfs t
      = ScaleNum (lerp pv nv (Easing.getEasingFunction host (curve n)
                                ((t - kf_at p) / (kf_at n - kf_at p))))) /\
  (forall (host : Host) (fuel : nat) (plugins : list MotionSvgPlugin)
          (kfs : list Keyframe) (t : R) (opts : option InterpolateOptions)
          (w : World) (st : ActorState) (w' : World),
      noHooks plugins ->
      interpolateKeyframes host fuel plugins kfs t opts w = Some (st, w') ->
      s_scale st = _interpScale host kfs t /\
      s_rotation st = _interpNum host kfs t rotation 0 /\
      s_opacity st = _interpNum host kfs t opacity 1 /\
      s_strokeWidth st = _interpOptNum host kfs t strokeWidth /\
      s_blurRadius st = _interpOptNum host kfs t blurRadius /\
      s_backdropBlur st = _interpOptNum host kfs t backdropBlur /\
      s_width st = _interpOptNum host kfs t width /\
      s_height st = _interpOptNum host kfs t height) /\
  (forall (host : Host) (fuel : nat) (opts : option InterpolateOptions)
          (w : World),
      Easing.lookup "linear" (easingRegistry host) = Some Easing.linear ->
      exists st w',
        interpolateKeyframes host fuel [] fadeOut 500 opts w
          = Some (st, w') /\
        s_opacity st = 0.5).
Proof.
  split; [exact interpNum_between |].
  split; [exact interpScale_between |].
  split; [exact state_numeric_fields | exact fadeOut_at_500].
Qed.

Lemma numeric_between_keyframes_witness :
  _interpNum idleHost fadeOut 500 opacity 1
    = lerp 1 0 ((500 - 0) / (1000 - 0)) /\
  exists st w',
    interpolateKeyframes idleHost 0 [] fadeOut 500 None (mkWorld 0 "" [])
      = Some (st, w') /\
    s_opacity st = 0.5.
Proof.
  split.
  - destruct (proj1 numeric_between_keyframes idleHost fadeOut 500 opacity 1
                (mkKeyframe 0 None None None (Some 1) None None None None None
                   None None None None None)
                (mkKeyframe 1000 None None None (Some 0) None None None None
                   None None None None None (Some (EasingNamed "linear")))
                1 0) as [H _].
    + exact fadeOut_sorted.
    + unfold specPrev, fadeOut. simpl. rcmp. reflexivity.
    + unfold specNext, fadeOut. simpl. rcmp. reflexivity.
    + reflexivity.
    + reflexivity.
    + exact H.
  - apply (proj2 (proj2 (proj2 numeric_between_keyframes)) idleHost 0%nat
             None (mkWorld 0 "" [])).
    reflexivity.
Defined.

(** *** Independence of the properties *)








Lemma interpPoint_filter (host : Host) (kfs : list Keyframe) (t : R)
  (get : Keyframe -> option Point) (def : Point) :
  _interpPoint host kfs t get def
  = _interpPoint host (filter (fun kf => isSome (get kf)) kfs) t get def.
Proof. unfold _interpPoint. now rewrite findBracket_filter. Qed.






(** The engine returns when no keyframe has an outline. *)
Lemma interpolateKeyframes_returns (host : Host) (fuel : nat)
  (plugins : list MotionSvgPlugin) (kfs : list Keyframe) (t : R)
  (opts : option InterpolateOptions) (w : World) :
  noHooks plugins ->
  (forall kf, In kf kfs -> pathD kf = None) ->
  exists st w',
    interpolateKeyframes host fuel plugins kfs t opts w = Some (st, w').
Proof.
  intros Hh Hnone. destruct kfs as [| k0 ks].
  { cbn [interpolateKeyframes]. unfold ret. eauto. }
  destruct (interpolateKeyframes_noHooks host fuel plugins (k0 :: ks) t opts w
              Hh) as (fr & w1 & sr & w2 & _ & _ & ->); [discriminate |].
  unfold _interpPath. rewrite findBracket_none; [eauto |].
  intros kf Hk. now rewrite (Hnone kf Hk).
Qed.




Definition world0 : World := mkWorld 0 EmptyString [].





(** *** Linear gradients *)

(** The length of the direction vector of a linear gradient. *)
Definition vectorLength (g : LinearGradientDef) : R :=
  hypot (x2 g - x1 g) (y2 g - y1 g).

(** [b] is [a] turned by 180 degrees about its centre: the same centre,
    the opposite direction (and so the same length). *)
Definition halfTurn (a b : LinearGradientDef) : Prop :=
  x1 b + x2 b = x1 a + x2 a /\ y1 b + y2 b = y1 a + y2 a /\
  x2 b - x1 b = - (x2 a - x1 a) /\ y2 b - y1 b = - (y2 a - y1 a).

Lemma hypot_polar (len ang : R) :
  hypot (2 * len * cos ang) (2 * len * sin ang) = 2 * Rabs len.
Proof.
  unfold hypot.
  replace (2 * len * cos ang * (2 * len * cos ang)
           + 2 * len * sin ang * (2 * len * sin ang))
    with (Rsqr (2 * len) * (Rsqr (sin ang) + Rsqr (cos ang)))
    by (unfold Rsqr; ring).
  rewrite sin2_cos2, Rmult_1_r, sqrt_Rsqr_abs, Rabs_mult.
  rewrite (Rabs_pos_eq 2) by lra. reflexivity.
Qed.

(** The blend of two linear gradients has the blend of their lengths
    for length, whatever the angles. *)
Lemma lerpLinear_length (id : string) (ss : list GradientStop)
  (a b : LinearGradientDef) (t : R) :
  vectorLength (lerpLinear id ss a b t)
  = Rabs (lerp (vectorLength a) (vectorLength b) t).
Proof.
  unfold vectorLength at 1. unfold lerpLinear. simpl.
  match goal with
  | |- hypot (?cx + ?len * cos ?ang - (?cx - ?len * cos ?ang))
             (?cy + ?len * sin ?ang - (?cy - ?len * sin ?ang)) = _ =>
      replace (cx + len * cos ang - (cx - len * cos ang))
        with (2 * len * cos ang) by ring;
      replace (cy + len * sin ang - (cy - len * sin ang))
        with (2 * len * sin ang) by ring
  end.
  rewrite hypot_polar. unfold vectorLength, hypot, lerp.
  rewrite <- (Rabs_pos_eq 2) at 1 by lra. rewrite <- Rabs_mult.
  f_equal. field.
Qed.

Lemma vectorLength_pos (g : LinearGradientDef) :
  x1 g <> x2 g \/ y1 g <> y2 g -> 0 < vectorLength g.
Proof.
  intros H. unfold vectorLength, hypot. apply sqrt_lt_R0.
  pose proof (Rle_0_sqr (x2 g - x1 g)) as Hx.
  pose proof (Rle_0_sqr (y2 g - y1 g)) as Hy.
  destruct H as [H | H].
  - assert (Hp : 0 < Rsqr (x2 g - x1 g)) by (apply Rsqr_pos_lt; lra).
    unfold Rsqr in *. lra.
  - assert (Hp : 0 < Rsqr (y2 g - y1 g)) by (apply Rsqr_pos_lt; lra).
    unfold Rsqr in *. lra.
Qed.

(** Between two linear gradients of non-zero length the blend never has
    a zero-length vector. *)
Lemma lerpLinear_positive (id : string) (ss : list GradientStop)
  (a b : LinearGradientDef) (t : R) :
  0 < vectorLength a -> 0 < vectorLength b -> 0 <= t <= 1 ->
  0 < vectorLength (lerpLinear id ss a b t).
Proof.
  intros Ha Hb Ht. rewrite lerpLinear_length. apply Rabs_pos_lt.
  unfold lerp.
  replace (vectorLength a + (vectorLength b - vectorLength a) * t)
    with ((1 - t) * vectorLength a + t * vectorLength b) by ring.
  destruct (Req_dec t 0) as [-> | Hz]; [lra |].
  assert (0 <= (1 - t) * vectorLength a) by (apply Rmult_le_pos; lra).
  assert (0 < t * vectorLength b) by (apply Rmult_lt_0_compat; lra).
  lra.
Qed.

(** Blending the raw end points instead gives a zero-length vector at
    the middle of a half turn. *)
Lemma endpoint_lerp_collapses (a b : LinearGradientDef) :
  halfTurn a b ->
  hypot (lerp (x2 a) (x2 b) 0.5 - lerp (x1 a) (x1 b) 0.5)
        (lerp (y2 a) (y2 b) 0.5 - lerp (y1 a) (y1 b) 0.5) = 0.
Proof.
  intros (Hcx & Hcy & Hdx & Hdy). unfold hypot, lerp.
  replace (x2 a + (x2 b - x2 a) * 0.5 - (x1 a + (x1 b - x1 a) * 0.5))
    with 0 by lra.
  replace (y2 a + (y2 b - y2 a) * 0.5 - (y1 a + (y1 b - y1 a) * 0.5))
    with 0 by lra.
  rewrite Rmult_0_l, Rplus_0_l. apply sqrt_0.
Qed.

(** *** The angle of a vector *)

Lemma hypot_scaled (x y : R) :
  x <> 0 -> hypot x y = Rabs x * sqrt (1 + (y / x)²).
Proof.
  intros Hx. unfold hypot.
  replace (x * x + y * y) with (x² * (1 + (y / x)²))
    by (unfold Rsqr; field; exact Hx).
  rewrite sqrt_mult.
  - now rewrite sqrt_Rsqr_abs.
  - apply Rle_0_sqr.
  - pose proof (Rle_0_sqr (y / x)). lra.
Qed.

Lemma root_pos (u : R) : 0 < sqrt (1 + u²).
Proof. apply sqrt_lt_R0. pose proof (Rle_0_sqr u). lra. Qed.

(** [atan2 y x] is the direction of the vector [(x, y)]. *)
Lemma atan2_polar (x y : R) :
  x <> 0 \/ y <> 0 ->
  hypot x y * cos (atan2 y x) = x /\ hypot x y * sin (atan2 y x) = y.
Proof.
  intros Hne. unfold atan2.
  destruct (Rltb_cases 0 x) as [[Hx ->] | [Hx ->]].
  { rewrite hypot_scaled, cos_atan, sin_atan by lra.
    rewrite Rabs_pos_eq by lra. pose proof (root_pos (y / x)).
    split; field; lra. }
  destruct (Rltb_cases x 0) as [[Hx' ->] | [Hx' ->]].
  { pose proof (root_pos (y / x)).
    destruct (Rleb 0 y).
    - rewrite neg_cos, neg_sin.
      rewrite hypot_scaled, cos_atan, sin_atan by lra.
      rewrite Rabs_left by lra. split; field; lra.
    - unfold Rminus. rewrite <- (cos_neg (atan (y / x) + - PI)).
      rewrite <- (Ropp_involutive (sin (atan (y / x) + - PI))).
      rewrite <- sin_neg.
      replace (- (atan (y / x) + - PI)) with (- atan (y / x) + PI) by ring.
      rewrite neg_cos, neg_sin, cos_neg, sin_neg.
      rewrite hypot_scaled, cos_atan, sin_atan by lra.
      rewrite Rabs_left by lra. split; field; lra. }
  assert (x = 0) by lra. subst x.
  assert (Hh : hypot 0 y = Rabs y).
  { unfold hypot. replace (0 * 0 + y * y) with (y²) by (unfold Rsqr; ring).
    apply sqrt_Rsqr_abs. }
  rewrite Hh.
  destruct (Rltb_cases 0 y) as [[Hy ->] | [Hy ->]].
  { rewrite cos_PI2, sin_PI2, Rabs_pos_eq by lra. lra. }
  destruct (Rltb_cases y 0) as [[Hy' ->] | [Hy' ->]].
  { rewrite cos_neg, sin_neg, cos_PI2, sin_PI2, Rabs_left by lra. lra. }
  exfalso. destruct Hne; lra.
Qed.

Lemma atan_sign (u : R) : (u <= 0 -> atan u <= 0) /\ (0 <= u -> 0 <= atan u).
Proof.
  split; intros H.
  - destruct (Req_dec u 0) as [-> | Hn]; [rewrite atan_0; lra |].
    pose proof (atan_increasing u 0 ltac:(lra)). rewrite atan_0 in *. lra.
  - destruct (Req_dec u 0) as [-> | Hn]; [rewrite atan_0; lra |].
    pose proof (atan_increasing 0 u ltac:(lra)). rewrite atan_0 in *. lra.
Qed.

Lemma ratio_sign (x y : R) :
  x <> 0 ->
  (0 <= y * x -> 0 <= y / x) /\ (y * x <= 0 -> y / x <= 0).
Proof.
  intros Hx.
  assert (E : y / x = y * x * (/ x)²) by (unfold Rsqr; field; exact Hx).
  assert (0 < (/ x)²) by (apply Rsqr_pos_lt; now apply Rinv_neq_0_compat).
  rewrite E. split; intros; nra.
Qed.

Lemma ratio_pos (x y : R) : x <> 0 -> 0 < y * x -> 0 < y / x.
Proof.
  intros Hx H.
  assert (E : y / x = y * x * (/ x)²) by (unfold Rsqr; field; exact Hx).
  assert (0 < (/ x)²) by (apply Rsqr_pos_lt; now apply Rinv_neq_0_compat).
  rewrite E. nra.
Qed.

Lemma atan2_bound (x y : R) : - PI < atan2 y x <= PI.
Proof.
  pose proof PI_RGT_0 as Hpi. pose proof (atan_bound (y / x)) as Hb.
  unfold atan2.
  destruct (Rltb_cases 0 x) as [[Hx ->] | [Hx ->]]; cbv iota; [lra |].
  destruct (Rltb_cases x 0) as [[Hx' ->] | [Hx' ->]]; cbv iota.
  { destruct (Rleb_cases 0 y) as [[Hy ->] | [Hy ->]]; cbv iota.
    - assert (y / x <= 0) by (apply ratio_sign; [lra | nra]).
      pose proof (proj1 (atan_sign (y / x))). lra.
    - assert (0 < y / x) by (apply ratio_pos; [lra | nra]).
      pose proof (atan_increasing 0 (y / x) ltac:(lra)) as Hi.
      rewrite atan_0 in Hi. lra. }
  destruct (Rltb 0 y); [lra |]. destruct (Rltb y 0); lra.
Qed.

(** The opposite vector is half a turn away. *)
Lemma atan2_opposite (x y : R) :
  x <> 0 \/ y <> 0 ->
  atan2 (- y) (- x)
  = if Rleb (atan2 y x) 0 then atan2 y x + PI else atan2 y x - PI.
Proof.
  intros Hne. pose proof PI_RGT_0 as Hpi.
  pose proof (atan_bound (y / x)) as Hb.
  assert (Hq : x <> 0 -> - y / - x = y / x) by (intros; field; assumption).
  unfold atan2.
  destruct (Rltb_cases 0 x) as [[Hx E1] | [Hx E1]]; rewrite E1; cbv iota.
  { rewrite (Rltb_f 0 (- x)), (Rltb_t (- x) 0), Hq by lra.
    destruct (Rleb_cases 0 (- y)) as [[Hy ->] | [Hy ->]].
    - assert (y / x <= 0) by (apply ratio_sign; [lra | nra]).
      pose proof (proj1 (atan_sign (y / x))).
      rewrite Rleb_t by lra. reflexivity.
    - assert (0 < y / x) by (apply ratio_pos; [lra | nra]).
      pose proof (atan_increasing 0 (y / x) ltac:(lra)) as Hi.
      rewrite atan_0 in Hi. rewrite Rleb_f by lra. reflexivity. }
  destruct (Rltb_cases x 0) as [[Hx' E2] | [Hx' E2]]; rewrite E2; cbv iota.
  { rewrite (Rltb_t 0 (- x)), Hq by lra.
    destruct (Rleb_cases 0 y) as [[Hy ->] | [Hy ->]].
    - rewrite Rleb_f by lra. ring.
    - assert (0 <= y / x) by (apply ratio_sign; [lra | nra]).
      rewrite Rleb_t by lra. ring. }
  assert (x = 0) by lra. subst x.
  rewrite (Rltb_f 0 (- 0)), (Rltb_f (- 0) 0) by lra.
  destruct (Rltb_cases 0 y) as [[Hy E3] | [Hy E3]]; rewrite E3; cbv iota.
  { rewrite (Rltb_f 0 (- y)), (Rltb_t (- y) 0), Rleb_f by lra. lra. }
  destruct (Rltb_cases y 0) as [[Hy' E4] | [Hy' E4]]; rewrite E4; cbv iota.
  { rewrite (Rltb_t 0 (- y)), Rleb_t by lra. lra. }
  exfalso. destruct Hne; lra.
Qed.

(** *** The polar form of the blend *)

(** The angle of the direction vector of a linear gradient. *)
Definition angleOf (g : LinearGradientDef) : R :=
  atan2 (y2 g - y1 g) (x2 g - x1 g).

(** The turn from the angle of [a] to that of [b], the shorter way
    round. *)
Definition shorterTurn (a b : LinearGradientDef) (turn : R) : Prop :=
  - PI <= turn <= PI /\
  (turn = angleOf b - angleOf a \/
   turn = angleOf b - angleOf a - 2 * PI \/
   turn = angleOf b - angleOf a + 2 * PI).

(** The blend has the blend of the centres for centre, and its vector
    has the blend of the lengths for length and the angle of [a] turned
    towards that of [b] the shorter way round, in proportion to [t]. *)
Definition polarBlend (a b : LinearGradientDef) (t : R)
  (g : LinearGradientDef) : Prop :=
  exists turn,
    shorterTurn a b turn /\
    (x1 g + x2 g) / 2 = lerp ((x1 a + x2 a) / 2) ((x1 b + x2 b) / 2) t /\
    (y1 g + y2 g) / 2 = lerp ((y1 a + y2 a) / 2) ((y1 b + y2 b) / 2) t /\
    x2 g - x1 g
    = lerp (vectorLength a) (vectorLength b) t * cos (angleOf a + turn * t) /\
    y2 g - y1 g
    = lerp (vectorLength a) (vectorLength b) t * sin (angleOf a + turn * t).

Lemma lerpLinear_polar (id : string) (ss : list GradientStop)
  (a b : LinearGradientDef) (t : R) :
  polarBlend a b t (lerpLinear id ss a b t).
Proof.
  pose proof PI_RGT_0 as Hpi.
  pose proof (atan2_bound (x2 a - x1 a) (y2 a - y1 a)) as Ha.
  pose proof (atan2_bound (x2 b - x1 b) (y2 b - y1 b)) as Hb.
  fold (angleOf a) in Ha. fold (angleOf b) in Hb.
  set (d0 := angleOf b - angleOf a).
  set (d1 := if Rltb PI d0 then d0 - 2 * PI else d0).
  set (d := if Rltb d1 (- PI) then d1 + 2 * PI else d1).
  exists d. split; [| split; [| split; [| split]]].
  - unfold shorterTurn, d, d1.
    destruct (Rltb_cases PI d0) as [[H0 ->] | [H0 ->]]; cbv iota.
    + rewrite Rltb_f by (unfold d0 in *; lra). unfold d0 in *. lra.
    + destruct (Rltb_cases d0 (- PI)) as [[H1 ->] | [H1 ->]]; cbv iota;
        unfold d0 in *; lra.
  - unfold lerpLinear. cbn [x1 x2]. lra.
  - unfold lerpLinear. cbn [y1 y2]. lra.
  - unfold lerpLinear. cbn [x1 x2]. fold (angleOf a) (angleOf b).
    fold d0. fold d1. fold d. unfold vectorLength, hypot, lerp. field.
  - unfold lerpLinear. cbn [y1 y2]. fold (angleOf a) (angleOf b).
    fold d0. fold d1. fold d. unfold vectorLength, hypot, lerp. field.
Qed.

(** The blend of a gradient with its half turn, at the middle: the
    vector of the gradient turned by a quarter. *)
Lemma lerpLinear_half_turn (id : string) (ss : list GradientStop)
  (a b : LinearGradientDef) :
  x1 a <> x2 a \/ y1 a <> y2 a ->
  halfTurn a b ->
  let g := lerpLinear id ss a b 0.5 in
  (x1 g + x2 g) / 2 = (x1 a + x2 a) / 2 /\
  (y1 g + y2 g) / 2 = (y1 a + y2 a) / 2 /\
  ((x2 g - x1 g = - (y2 a - y1 a) /\ y2 g - y1 g = x2 a - x1 a) \/
   (x2 g - x1 g = y2 a - y1 a /\ y2 g - y1 g = - (x2 a - x1 a))).
Proof.
  intros Hne (Hcx & Hcy & Hdx & Hdy) g.
  pose proof PI_RGT_0 as Hpi.
  assert (Hv : x2 a - x1 a <> 0 \/ y2 a - y1 a <> 0)
    by (destruct Hne; [left | right]; lra).
  destruct (atan2_polar _ _ Hv) as [Px Py].
  pose proof (atan2_opposite _ _ Hv) as Hopp.
  fold (angleOf a) in Px, Py, Hopp. fold (vectorLength a) in Px, Py.
  assert (Hlen : vectorLength b = vectorLength a).
  { unfold vectorLength, hypot. rewrite Hdx, Hdy. f_equal. ring. }
  assert (Hang : angleOf b
                 = if Rleb (angleOf a) 0 then angleOf a + PI
                   else angleOf a - PI).
  { unfold angleOf at 1. rewrite Hdx, Hdy. exact Hopp. }
  destruct (lerpLinear_polar id ss a b 0.5)
    as (turn & [Hr Ht] & Gcx & Gcy & Gx & Gy).
  fold g in Gcx, Gcy, Gx, Gy.
  rewrite Hlen in Gx, Gy.
  replace (lerp (vectorLength a) (vectorLength a) 0.5) with (vectorLength a)
    in Gx, Gy by (unfold lerp; ring).
  split; [rewrite Gcx; unfold lerp; lra |].
  split; [rewrite Gcy; unfold lerp; lra |].
  assert (Hq : turn = PI \/ turn = - PI).
  { destruct (Rleb (angleOf a) 0); rewrite Hang in Ht; lra. }
  destruct Hq as [-> | ->]; [left | right].
  - replace (angleOf a + PI * 0.5) with (PI / 2 + angleOf a) in Gx, Gy by lra.
    rewrite <- cos_sin in Gy. rewrite Gy, Px.
    assert (Es : cos (PI / 2 + angleOf a) = - sin (angleOf a)).
    { rewrite (sin_cos (angleOf a)). lra. }
    rewrite Es in Gx. rewrite Gx. split; [lra | reflexivity].
  - replace (angleOf a + - PI * 0.5) with (- (PI / 2 - angleOf a)) in Gx, Gy
      by lra.
    rewrite cos_neg, cos_shift in Gx. rewrite sin_neg, sin_shift in Gy.
    rewrite Gx, Gy. split; lra.
Qed.

(** C5.  The blend of two linear gradients is made in polar form: it is
    a linear gradient whose centre is the blend of the centres and
    whose vector has the blend of the lengths for length and, for
    angle, the angle of the first turned towards the angle of the
    second the shorter way round ([polarBlend]); the angle of a
    gradient being the direction of its vector.  So the blend at 0.5 of
    a gradient of non-zero length with its half turn keeps the centre
    and the length, which is strictly positive, and has the vector of
    the gradient turned by a quarter, to one side or the other. *)
Theorem half_turn_blend_positive :
  (forall (host : Host) (a b : LinearGradientDef) (t : R) (w : World),
      exists g w',
        lerpGradientDef host (Linear a) (Linear b) t w = Some (Linear g, w')
        /\ polarBlend a b t g) /\
  (forall a : LinearGradientDef,
      x1 a <> x2 a \/ y1 a <> y2 a ->
      x2 a - x1 a = vectorLength a * cos (angleOf a) /\
      y2 a - y1 a = vectorLength a * sin (angleOf a) /\
      - PI < angleOf a <= PI) /\
  (forall (host : Host) (a b : LinearGradientDef) (w : World),
      x1 a <> x2 a \/ y1 a <> y2 a ->
      halfTurn a b ->
      exists g w',
        lerpGradientDef host (Linear a) (Linear b) 0.5 w
          = Some (Linear g, w') /\
        0 < vectorLength g /\
        vectorLength g = vectorLength a /\
        (x1 g + x2 g) / 2 = (x1 a + x2 a) / 2 /\
        (y1 g + y2 g) / 2 = (y1 a + y2 a) / 2 /\
        ((x2 g - x1 g = - (y2 a - y1 a) /\ y2 g - y1 g = x2 a - x1 a) \/
         (x2 g - x1 g = y2 a - y1 a /\ y2 g - y1 g = - (x2 a - x1 a)))).
Proof.
  split; [| split].
  - intros host a b t w.
    unfold lerpGradientDef, freshId, bind, ret, nextGradId, readClock.
    eexists _, _. split; [reflexivity | apply lerpLinear_polar].
  - intros a Hne.
    assert (Hv : x2 a - x1 a <> 0 \/ y2 a - y1 a <> 0)
      by (destruct Hne; [left | right]; lra).
    destruct (atan2_polar _ _ Hv) as [Px Py].
    split; [symmetry; exact Px |]. split; [symmetry; exact Py |].
    apply atan2_bound.
  - intros host a b w Hne Hhalf.
    unfold lerpGradientDef, freshId, bind, ret, nextGradId, readClock.
    eexists _, _. split; [reflexivity |].
    assert (Hlen : vectorLength b = vectorLength a).
    { destruct Hhalf as (_ & _ & Hdx & Hdy).
      unfold vectorLength, hypot. rewrite Hdx, Hdy. f_equal. ring. }
    pose proof (vectorLength_pos a Hne) as Hpos.
    rewrite lerpLinear_length, Hlen. unfold lerp at 1 2.
    replace (vectorLength a + (vectorLength a - vectorLength a) * 0.5)
      with (vectorLength a) by ring.
    rewrite Rabs_pos_eq by lra.
    split; [exact Hpos |]. split; [reflexivity |].
    now apply lerpLinear_half_turn.
Qed.

(** The gradients from (0, 0) to (1, 0) and back. *)
Definition leftToRight : LinearGradientDef :=
  mkLinear "g0" 0 0 1 0 [] None None.
Definition rightToLeft : LinearGradientDef :=
  mkLinear "g180" 1 0 0 0 [] None None.

Lemma half_turn_blend_positive_witness :
  exists g w',
    lerpGradientDef idleHost (Linear leftToRight) (Linear rightToLeft) 0.5
      world0 = Some (Linear g, w') /\
    0 < vectorLength g /\
    vectorLength g = vectorLength leftToRight /\
    (x1 g + x2 g) / 2 = (x1 leftToRight + x2 leftToRight) / 2 /\
    (y1 g + y2 g) / 2 = (y1 leftToRight + y2 leftToRight) / 2 /\
    ((x2 g - x1 g = - (y2 leftToRight - y1 leftToRight) /\
      y2 g - y1 g = x2 leftToRight - x1 leftToRight) \/
     (x2 g - x1 g = y2 leftToRight - y1 leftToRight /\
      y2 g - y1 g = - (x2 leftToRight - x1 leftToRight))).
Proof.
  apply (proj2 (proj2 half_turn_blend_positive) idleHost leftToRight
           rightToLeft world0).
  - left. simpl. lra.
  - unfold halfTurn. simpl. repeat split; lra.
Defined.

End InterpolateFacts.

(* ------------------------------------------------------------------ *)
(** ** Playback *)

Module PlaybackFacts.
Import Playback.

(** What a play-through is judged by: the variables of the controller
    that steer it, the number of pending frame requests and timers, and
    the number of [repeat] and [complete] events so far. *)
Record View := mkView {
  v_state : PlaybackState;
  v_time : R;
  v_dir : Direction;
  v_rate : R;
  v_total : R;
  v_last : option R;
  v_count : nat;
  v_frames : nat;
  v_timers : nat;
  v_repeats : nat;
  v_completes : nat
}.

Section Views.
Variable host : Host.
Variable fuel : nat.
Variable plugins : list Interpolate.MotionSvgPlugin.
Variable k : Consts.

Definition view (m : Machine) : View :=
  mkView (state (fst m)) (currentTime (fst m)) (direction (fst m))
    (_playbackRate (fst m)) (_totalDuration (fst m)) (lastFrameTime (fst m))
    (iterationCount (fst m))
    (List.length (frames (snd m))) (List.length (timers (snd m)))
    (countEvents ev_repeat m) (countEvents ev_complete m).

(** The view with the cursor at [t] and the last frame at [now]. *)
Definition viewAt (s : View) (t now : R) : View :=
  mkView (v_state s) t (v_dir s) (v_rate s) (v_total s) (Some now)
    (v_count s) (v_frames s) (v_timers s) (v_repeats s) (v_completes s).

Definition viewRequest (s : View) : View :=
  mkView (v_state s) (v_time s) (v_dir s) (v_rate s) (v_total s) (v_last s)
    (v_count s) (Datatypes.S (v_frames s)) (v_timers s) (v_repeats s)
    (v_completes s).

(** A time bound was hit: the count goes up, and playback ends or
    repeats; [turn] is what the branch does to direction and cursor on
    a repeat, [delayed] whether the branch looks at the loop delay. *)
Definition viewBound (s : View) (turn : Direction * R) (delayed : bool)
  : View :=
  let c := Datatypes.S (v_count s) in
  if budgetSpent k c then
    mkView finished (v_time s) (v_dir s) (v_rate s) (v_total s) (v_last s) c
      (v_frames s) (v_timers s) (v_repeats s) (Datatypes.S (v_completes s))
  else if delayed && Rltb 0 (loopDelay k) then
    mkView paused (snd turn) (fst turn) (v_rate s) (v_total s) (v_last s) c
      (v_frames s) (Datatypes.S (v_timers s)) (Datatypes.S (v_repeats s))
      (v_completes s)
  else
    mkView (v_state s) (snd turn) (fst turn) (v_rate s) (v_total s)
      (v_last s) c (Datatypes.S (v_frames s)) (v_timers s)
      (Datatypes.S (v_repeats s)) (v_completes s).

Definition viewTick (now : R) (s : View) : View :=
  if negb (PlaybackState_eqb (v_state s) playing) then s
  else
    match v_last s with
    | None => viewRequest (viewAt s (v_time s) now)
    | Some last =>
        let t := v_time s + (now - last) * sign (v_dir s) * Rabs (v_rate s) in
        if Rleb (v_total s) t then
          viewBound (viewAt s (v_total s) now)
            (match loopDirection k with
             | Trigger.normal => (v_dir s, 0)
             | _ => (backward, v_total s)
             end) true
        else if Rleb t 0 then
          viewBound (viewAt s 0 now)
            (match loopDirection k with
             | Trigger.alternate => (forward, 0)
             | _ => (v_dir s, 0)
             end) false
        else viewRequest (viewAt s t now)
    end.

Lemma emitUpdate_view (t : R) (m m' : Machine) :
  emitUpdate host fuel plugins k t m = Some m' -> view m' = view m.
Proof.
  destruct m as [v e]. unfold emitUpdate.
  destruct (Interpolate.getActorStateAtTime _ _ _ _ _ _ _) as [[st w] |];
    [| discriminate].
  intros H; inversion H; subst. reflexivity.
Qed.

Lemma countEvents_emit (ty ty' : PlaybackEventType) (it : option nat)
  (m : Machine) :
  countEvents ty (emit ty' it m)
  = (countEvents ty m + if PlaybackEventType_eqb ty' ty then 1 else 0)%nat.
Proof.
  destruct m as [v e]. unfold countEvents, emit. simpl.
  rewrite filter_app, length_app. simpl.
  destruct (PlaybackEventType_eqb ty' ty); simpl; lia.
Qed.

Lemma view_emit (ty : PlaybackEventType) (it : option nat) (m : Machine) :
  view (emit ty it m)
  = let s := view m in
    mkView (v_state s) (v_time s) (v_dir s) (v_rate s) (v_total s) (v_last s)
      (v_count s) (v_frames s) (v_timers s)
      (v_repeats s + if PlaybackEventType_eqb ty ev_repeat then 1 else 0)
      (v_completes s + if PlaybackEventType_eqb ty ev_complete then 1 else 0).
Proof.
  unfold view at 1. rewrite !countEvents_emit. destruct m as [v e].
  reflexivity.
Qed.

Lemma view_requestFrame (m : Machine) :
  view (requestFrame m)
  = let s := view m in
    mkView (v_state s) (v_time s) (v_dir s) (v_rate s) (v_total s) (v_last s)
      (v_count s) (Datatypes.S (v_frames s)) (v_timers s) (v_repeats s)
      (v_completes s).
Proof.
  destruct m as [v e]. unfold view, requestFrame. simpl.
  rewrite length_app. simpl. f_equal. lia.
Qed.


Lemma view_upd (f : Vars -> Vars) (m : Machine) :
  view (upd f m)
  = let v := f (fst m) in
    mkView (state v) (currentTime v) (direction v) (_playbackRate v)
      (_totalDuration v) (lastFrameTime v) (iterationCount v)
      (v_frames (view m)) (v_timers (view m)) (v_repeats (view m))
      (v_completes (view m)).
Proof. destruct m as [v e]. reflexivity. Qed.

Lemma view_setTimer (d : R) (m : Machine) :
  view (setTimer d m)
  = let s := view m in
    mkView (v_state s) (v_time s) (v_dir s) (v_rate s) (v_total s) (v_last s)
      (v_count s) (v_frames s) (Datatypes.S (v_timers s)) (v_repeats s)
      (v_completes s).
Proof.
  destruct m as [v e]. unfold view, setTimer. simpl.
  rewrite length_app. simpl. f_equal. lia.
Qed.

Lemma view_onComplete (m : Machine) : view (onComplete m) = view m.
Proof. destruct m as [v e]. reflexivity. Qed.

Ltac view_crunch :=
  unfold view, countEvents, emit, upd, onComplete, requestFrame, setTimer;
  cbn [fst snd events frames timers state currentTime direction
       _playbackRate _totalDuration lastFrameTime iterationCount
       set_state set_currentTime set_direction set_iterationCount
       set_lastFrameTime set_rafId
       v_state v_time v_dir v_rate v_total v_last v_count v_frames v_timers
       v_repeats v_completes];
  rewrite ?filter_app, ?length_app;
  cbn [filter List.length app ev_type PlaybackEventType_eqb];
  rewrite ?Nat.add_0_r, ?Nat.add_1_r.

Lemma countIteration_view (m m1 : Machine) (done : bool) :
  countIteration k m = (m1, done) ->
  done = budgetSpent k (Datatypes.S (v_count (view m))) /\
  view m1
  = let s := view m in
    let c := Datatypes.S (v_count s) in
    if done then
      mkView finished (v_time s) (v_dir s) (v_rate s) (v_total s) (v_last s)
        c (v_frames s) (v_timers s) (v_repeats s)
        (Datatypes.S (v_completes s))
    else
      mkView (v_state s) (v_time s) (v_dir s) (v_rate s) (v_total s)
        (v_last s) c (v_frames s) (v_timers s) (Datatypes.S (v_repeats s))
        (v_completes s).
Proof.
  destruct m as [v e]. unfold countIteration. cbv zeta.
  change (iterationCount
            (fst (upd (fun v0 => set_iterationCount
                                   (Datatypes.S (iterationCount v0)) v0)
                    (emit ev_frame None (v, e)))))
    with (Datatypes.S (iterationCount v)).
  destruct (budgetSpent k (Datatypes.S (iterationCount v))) eqn:Hb;
    intros H; inversion H; subst; clear H; (split; [symmetry; exact Hb |]);
    view_crunch; reflexivity.
Qed.

Lemma upperBound_view (m m' : Machine) :
  upperBound host fuel plugins k m = Some m' ->
  view m'
  = viewBound (view m)
      (match loopDirection k with
       | Trigger.normal => (v_dir (view m), 0)
       | _ => (backward, v_total (view m))
       end) true.
Proof.
  unfold upperBound.
  destruct (emitUpdate host fuel plugins k (duration (tl k)) m) as [m1 |] eqn:E;
    [| discriminate].
  apply emitUpdate_view in E. rewrite <- E.
  destruct (countIteration k m1) as [m2 done] eqn:Hc.
  apply countIteration_view in Hc. destruct Hc as [Hd Hv].
  unfold viewBound. rewrite <- Hd. cbn zeta in Hv.
  destruct done.
  - intros H; inversion H; subst. exact Hv.
  - cbn [andb]. cbv zeta.
    destruct (loopDirection k); destruct (Rltb 0 (loopDelay k));
      intros H; inversion H; subst; clear H;
      destruct m1 as [v1 e1], m2 as [v2 e2];
      unfold view in Hv;
      cbn [fst snd v_state v_time v_dir v_rate v_total v_last v_count
           v_frames v_timers v_repeats v_completes] in Hv;
      injection Hv as Hv1 Hv2 Hv3 Hv4 Hv5 Hv6 Hv7 Hv8 Hv9 Hv10 Hv11;
      unfold countEvents in Hv10, Hv11; cbn [snd events] in Hv10, Hv11;
      view_crunch; congruence.
Qed.


Lemma lowerBound_view (m m' : Machine) :
  lowerBound host fuel plugins k m = Some m' ->
  view m'
  = viewBound (view m)
      (match loopDirection k with
       | Trigger.alternate => (forward, 0)
       | _ => (v_dir (view m), v_time (view m))
       end) false.
Proof.
  unfold lowerBound.
  destruct (emitUpdate host fuel plugins k 0 m) as [m1 |] eqn:E;
    [| discriminate].
  apply emitUpdate_view in E. rewrite <- E.
  destruct (countIteration k m1) as [m2 done] eqn:Hc.
  apply countIteration_view in Hc. destruct Hc as [Hd Hv].
  unfold viewBound. rewrite <- Hd. cbn zeta in Hv.
  destruct done.
  - intros H; inversion H; subst. exact Hv.
  - cbn [andb]. cbv zeta.
    destruct (loopDirection k);
      intros H; inversion H; subst; clear H;
      destruct m1 as [v1 e1], m2 as [v2 e2];
      unfold view in Hv;
      cbn [fst snd v_state v_time v_dir v_rate v_total v_last v_count
           v_frames v_timers v_repeats v_completes] in Hv;
      injection Hv as Hv1 Hv2 Hv3 Hv4 Hv5 Hv6 Hv7 Hv8 Hv9 Hv10 Hv11;
      unfold countEvents in Hv10, Hv11; cbn [snd events] in Hv10, Hv11;
      view_crunch; congruence.
Qed.

Lemma tick_view (now : R) (m m' : Machine) :
  tick host fuel plugins k now m = Some m' -> view m' = viewTick now (view m).
Proof.
  unfold tick, viewTick.
  change (v_state (view m)) with (state (fst m)).
  change (v_last (view m)) with (lastFrameTime (fst m)).
  destruct (negb (PlaybackState_eqb (state (fst m)) playing)) eqn:Hst.
  { intros H; now inversion H. }
  destruct (lastFrameTime (fst m)) as [last |] eqn:Hlast.
  2:{ intros H; inversion H; subst. rewrite view_requestFrame, view_upd.
      reflexivity. }
  cbv zeta. destruct m as [v e]. cbn [upd fst snd].
  cbn [currentTime _totalDuration set_currentTime set_lastFrameTime].
  change (v_total (view (v, e))) with (_totalDuration v).
  change (v_time (view (v, e))) with (currentTime v).
  change (v_dir (view (v, e))) with (direction v).
  change (v_rate (view (v, e))) with (_playbackRate v).
  set (t := currentTime v
            + (now - last) * sign (direction v) * Rabs (_playbackRate v)).
  destruct (Rleb (_totalDuration v) t).
  - intros H. apply upperBound_view in H. rewrite H. reflexivity.
  - destruct (Rleb t 0).
    + intros H. apply lowerBound_view in H. rewrite H.
      unfold view, viewAt. cbn. now destruct (loopDirection k).
    + destruct (emitUpdate _ _ _ _ _ _) as [m1 |] eqn:E; [| discriminate].
      apply emitUpdate_view in E.
      intros H; inversion H; subst; clear H.
      rewrite view_requestFrame, view_emit, E.
      unfold viewRequest, viewAt, view.
      cbn [PlaybackEventType_eqb fst snd v_state v_time v_dir v_rate v_total
           v_last v_count v_frames v_timers v_repeats v_completes].
      now rewrite !Nat.add_0_r.
Qed.

(** [play()], the frame of the host and the loop timer, on views. *)
Definition viewPlay (s : View) : View :=
  let fin := PlaybackState_eqb (v_state s) finished in
  mkView playing
    (if fin
     then match v_dir s with forward => 0 | backward => v_total s end
     else v_time s)
    forward (v_rate s) (v_total s) None
    (if fin then 0%nat else v_count s)
    (Datatypes.S (v_frames s)) (v_timers s) (v_repeats s) (v_completes s).

Definition viewStep (a : Action) (s : View) : View :=
  match a with
  | Frame now =>
      match v_frames s with
      | O => s
      | Datatypes.S n =>
          viewTick now
            (mkView (v_state s) (v_time s) (v_dir s) (v_rate s) (v_total s)
               (v_last s) (v_count s) n (v_timers s) (v_repeats s)
               (v_completes s))
      end
  | Timeout =>
      match v_timers s with
      | O => s
      | Datatypes.S n =>
          if PlaybackState_eqb (v_state s) paused
          then mkView playing (v_time s) (v_dir s) (v_rate s) (v_total s)
                 None (v_count s) (Datatypes.S (v_frames s)) n (v_repeats s)
                 (v_completes s)
          else mkView (v_state s) (v_time s) (v_dir s) (v_rate s) (v_total s)
                 (v_last s) (v_count s) (v_frames s) n (v_repeats s)
                 (v_completes s)
      end
  | Play => viewPlay s
  | _ => s
  end.

(** The actions of a play-through: a call of [play()] and what the host
    does. *)
Definition playThrough (a : Action) : Prop :=
  match a with Frame _ | Timeout | Play => True | _ => False end.

Lemma play_view (m : Machine) : view (play m) = viewPlay (view m).
Proof.
  destruct m as [v e]. unfold play, viewPlay.
  cbn [fst]. change (v_state (view (v, e))) with (state v).
  destruct (PlaybackState_eqb (state v) finished);
    destruct (PlaybackState_eqb (state v) idle); cbn [orb];
    rewrite ?orb_true_r;
    try destruct (negb (hasStarted _));
    cbn [orb]; view_crunch; reflexivity.
Qed.

Lemma step_view (a : Action) (m m' : Machine) :
  playThrough a ->
  step host fuel plugins k a m = Some m' -> view m' = viewStep a (view m).
Proof.
  destruct a; try contradiction; intros _; destruct m as [v e];
    unfold step, viewStep.
  - change (v_frames (view (v, e))) with (List.length (frames e)).
    destruct (frames e) as [| h rest] eqn:Hf; cbn [List.length].
    + intros H; inversion H; subst. reflexivity.
    + intros H. apply tick_view in H. rewrite H. reflexivity.
  - change (v_timers (view (v, e))) with (List.length (timers e)).
    change (v_state (view (v, e))) with (state v).
    destruct (timers e) as [| d rest] eqn:Ht; cbn [List.length].
    + intros H; inversion H; subst. reflexivity.
    + intros H; inversion H; subst; clear H. unfold resume. cbn [fst].
      destruct (PlaybackState_eqb (state v) paused).
      * rewrite view_requestFrame, view_upd. reflexivity.
      * reflexivity.
  - intros H; inversion H; subst. apply play_view.
Qed.

Fixpoint viewRun (actions : list Action) (s : View) : View :=
  match actions with
  | [] => s
  | a :: rest => viewRun rest (viewStep a s)
  end.

Lemma run_view (actions : list Action) :
  Forall playThrough actions ->
  forall m m',
    run host fuel plugins k actions m = Some m' ->
    view m' = viewRun actions (view m).
Proof.
  induction 1 as [| a rest Ha _ IH]; intros m m' H; simpl in *.
  - now inversion H.
  - destruct (step host fuel plugins k a m) as [m1 |] eqn:E; [| discriminate].
    apply step_view in E; [| exact Ha]. rewrite <- E. now apply IH.
Qed.


(** *** The iteration budget *)

Definition hostOnly (a : Action) : Prop :=
  match a with Frame _ | Timeout => True | _ => False end.

Lemma hostOnly_playThrough (a : Action) : hostOnly a -> playThrough a.
Proof. now destruct a. Qed.

(** The state of the budget of [n] iterations: while playback has not
    finished, fewer than [n] iterations are counted, each of them with
    a [repeat] event and no [complete] event; once it has, [n] are
    counted, with [n - 1] [repeat] events and one [complete] event. *)
Definition Budget (n : nat) (s : View) : Prop :=
  match v_state s with
  | finished =>
      v_count s = n /\ v_repeats s = (n - 1)%nat /\ v_completes s = 1%nat
  | _ =>
      (v_count s < n)%nat /\ v_repeats s = v_count s /\ v_completes s = 0%nat
  end.

Lemma budgetSpent_fin (n c : nat) :
  loopIterations k = Trigger.Fin (INR n) ->
  budgetSpent k c = true <-> (n <= c)%nat.
Proof.
  intros H. unfold budgetSpent. rewrite H, Rleb_spec.
  split; [apply INR_le | apply le_INR].
Qed.

Lemma viewBound_Budget (n : nat) (s : View) (turn : Direction * R)
  (delayed : bool) :
  loopIterations k = Trigger.Fin (INR n) ->
  v_state s = playing -> Budget n s -> Budget n (viewBound s turn delayed).
Proof.
  intros Hk Hs. unfold Budget. rewrite Hs. intros (Hc & Hr & Hz).
  unfold viewBound.
  destruct (budgetSpent k (Datatypes.S (v_count s))) eqn:Hb.
  - apply (budgetSpent_fin n) in Hb; [| exact Hk]. cbn. lia.
  - assert (~ (n <= Datatypes.S (v_count s))%nat) as Hn.
    { intros H. apply (budgetSpent_fin n) in H; [| exact Hk]. congruence. }
    destruct (delayed && Rltb 0 (loopDelay k)); cbn; rewrite ?Hs; cbn; lia.
Qed.

Lemma viewTick_Budget (n : nat) (now : R) (s : View) :
  loopIterations k = Trigger.Fin (INR n) ->
  Budget n s -> Budget n (viewTick now s).
Proof.
  intros Hk Hb. unfold viewTick.
  destruct (v_state s) eqn:Hs; cbn [PlaybackState_eqb negb]; try exact Hb.
  destruct (v_last s) as [last |].
  - destruct (Rleb _ _); [| destruct (Rleb _ _)].
    + apply viewBound_Budget; [exact Hk | exact Hs |].
      unfold Budget in *. cbn. now rewrite Hs in *.
    + apply viewBound_Budget; [exact Hk | exact Hs |].
      unfold Budget in *. cbn. now rewrite Hs in *.
    + unfold Budget in *. cbn. now rewrite Hs in *.
  - unfold Budget in *. cbn. now rewrite Hs in *.
Qed.

Lemma viewStep_Budget (n : nat) (a : Action) (s : View) :
  loopIterations k = Trigger.Fin (INR n) ->
  hostOnly a -> Budget n s -> Budget n (viewStep a s).
Proof.
  intros Hk Ha Hb. destruct a; try contradiction; unfold viewStep.
  - destruct (v_frames s); [exact Hb |].
    apply viewTick_Budget; [exact Hk | exact Hb].
  - destruct (v_timers s); [exact Hb |].
    unfold Budget in *. destruct (v_state s); cbn in *; exact Hb.
Qed.

Lemma viewRun_Budget (n : nat) (hs : list Action) :
  loopIterations k = Trigger.Fin (INR n) ->
  Forall hostOnly hs ->
  forall s, Budget n s -> Budget n (viewRun hs s).
Proof.
  intros Hk. induction 1 as [| a rest Ha _ IH]; intros s Hb; simpl.
  - exact Hb.
  - apply IH. now apply viewStep_Budget.
Qed.

(** With an unbounded budget playback never finishes. *)
Definition Endless (s : View) : Prop :=
  v_state s <> finished /\ v_completes s = 0%nat.

Lemma viewStep_Endless (a : Action) (s : View) :
  loopIterations k = Trigger.PosInf ->
  playThrough a -> Endless s -> Endless (viewStep a s).
Proof.
  intros Hk Ha [Hs Hc].
  assert (Hb : forall c, budgetSpent k c = false)
    by (intros c; unfold budgetSpent; now rewrite Hk).
  assert (Hbound : forall s' turn delayed,
             v_state s' <> finished -> v_completes s' = 0%nat ->
             Endless (viewBound s' turn delayed)).
  { intros s' turn delayed H1 H2. unfold viewBound. rewrite Hb.
    destruct (delayed && Rltb 0 (loopDelay k)); split; cbn;
      try assumption; discriminate. }
  destruct a; try contradiction; unfold viewStep.
  - destruct (v_frames s); [now split |]. unfold viewTick.
    cbn [v_state v_last v_time v_dir v_rate v_total].
    destruct (negb (PlaybackState_eqb (v_state s) playing)); [now split |].
    destruct (v_last s) as [last |]; [| now split].
    destruct (Rleb _ _); [| destruct (Rleb _ _)];
      try (apply Hbound; assumption); now split.
  - destruct (v_timers s); [now split |].
    destruct (PlaybackState_eqb (v_state s) paused); split; cbn;
      try assumption; discriminate.
  - split; cbn; [discriminate | assumption].
Qed.

Lemma viewRun_Endless (acts : list Action) :
  loopIterations k = Trigger.PosInf ->
  Forall playThrough acts ->
  forall s, Endless s -> Endless (viewRun acts s).
Proof.
  intros Hk. induction 1 as [| a rest Ha _ IH]; intros s Hs; simpl.
  - exact Hs.
  - apply IH. now apply viewStep_Endless.
Qed.


(** *** Play-throughs that return *)

(** The engine returns the state of the timeline at every time. *)
Definition Renders : Prop :=
  forall t w, exists st w',
    Interpolate.getActorStateAtTime host fuel plugins (tl k) t
      (Some (Interpolate.mkOptions (k_gradients k) None)) w = Some (st, w').

Lemma emitUpdate_total (t : R) (m : Machine) :
  Renders -> exists m', emitUpdate host fuel plugins k t m = Some m'.
Proof.
  intros H. destruct m as [v e]. unfold emitUpdate.
  destruct (H t (world e)) as (st & w' & ->). eauto.
Qed.

Lemma tick_total (now : R) (m : Machine) :
  Renders -> exists m', tick host fuel plugins k now m = Some m'.
Proof.
  intros H. unfold tick.
  destruct (negb _); [eauto |].
  destruct (lastFrameTime (fst m)); [| eauto]. cbv zeta.
  destruct (Rleb _ _); [| destruct (Rleb _ _)].
  - unfold upperBound.
    match goal with
    | |- context [emitUpdate _ _ _ _ ?t ?m0] =>
        destruct (emitUpdate_total t m0 H) as (m1 & ->)
    end.
    destruct (countIteration k m1) as [m2 done]. destruct done; [eauto |].
    cbv zeta. destruct (Rltb 0 (loopDelay k)); eauto.
  - unfold lowerBound.
    match goal with
    | |- context [emitUpdate _ _ _ _ ?t ?m0] =>
        destruct (emitUpdate_total t m0 H) as (m1 & ->)
    end.
    destruct (countIteration k m1) as [m2 done]. destruct done; eauto.
  - match goal with
    | |- context [emitUpdate _ _ _ _ ?t ?m0] =>
        destruct (emitUpdate_total t m0 H) as (m1 & ->)
    end. eauto.
Qed.

Lemma step_total (a : Action) (m : Machine) :
  Renders -> playThrough a ->
  exists m', step host fuel plugins k a m = Some m'.
Proof.
  intros H Ha. destruct a; try contradiction; destruct m as [v e];
    unfold step; try eauto.
  - destruct (frames e); [eauto | now apply tick_total].
  - destruct (timers e); eauto.
Qed.

Lemma run_total (acts : list Action) :
  Renders -> Forall playThrough acts ->
  forall m, exists m', run host fuel plugins k acts m = Some m'.
Proof.
  intros H. induction 1 as [| a rest Ha _ IH]; intros m; simpl; [eauto |].
  destruct (step_total a m H Ha) as (m1 & ->). apply IH.
Qed.

(** Frames a full duration apart: [count] of them, the first at
    [from * T]. *)
Definition beats (T : R) (from count : nat) : list Action :=
  map (fun i => Frame (INR i * T)) (seq from count).

Lemma beats_playThrough (T : R) (from count : nat) :
  Forall hostOnly (beats T from count).
Proof.
  unfold beats. apply Forall_forall. intros a Ha.
  apply in_map_iff in Ha. destruct Ha as (i & <- & _). exact I.
Qed.

Lemma beats_cons (T : R) (from count : nat) :
  beats T from (Datatypes.S count)
  = Frame (INR from * T) :: beats T (Datatypes.S from) count.
Proof. reflexivity. Qed.

(** A forward loop without delay, run at rate 1 with frames a full
    duration apart, hits the upper bound at every frame and finishes at
    the frame that uses the budget up. *)
Lemma viewRun_beats (n : nat) (T : R) :
  loopIterations k = Trigger.Fin (INR n) ->
  loopDirection k = Trigger.normal ->
  loopDelay k = 0 ->
  forall (left j c f tm rp cp : nat),
    (c + Datatypes.S left = n)%nat ->
    v_state (viewRun (beats T (Datatypes.S j) (Datatypes.S left))
               (mkView playing 0 forward 1 T (Some (INR j * T)) c
                  (Datatypes.S f) tm rp cp)) = finished.
Proof.
  intros Hk Hd Hz. induction left as [| left IH]; intros j c f tm rp cp Hn;
    rewrite beats_cons; cbn [viewRun viewStep v_frames];
    unfold viewTick;
    cbn [v_state v_last v_time v_dir v_rate v_total PlaybackState_eqb negb
         sign];
    rewrite Rabs_R1;
    replace (0 + (INR (Datatypes.S j) * T - INR j * T) * 1 * 1) with T
      by (rewrite S_INR; ring);
    rewrite (Rleb_t T T) by lra; rewrite Hd;
    unfold viewBound, viewAt;
    cbn [v_count v_state v_time v_dir v_rate v_total v_last v_frames
         v_timers v_repeats v_completes andb fst snd].
  - replace (budgetSpent k (Datatypes.S c)) with true
      by (symmetry; apply (budgetSpent_fin n); [exact Hk | lia]).
    reflexivity.
  - replace (budgetSpent k (Datatypes.S c)) with false.
    2:{ symmetry. destruct (budgetSpent k (Datatypes.S c)) eqn:E;
          [| reflexivity].
        apply (budgetSpent_fin n) in E; [lia | exact Hk]. }
    rewrite Hz, (Rltb_f 0 0) by lra.
    apply (IH (Datatypes.S j) (Datatypes.S c) f tm (Datatypes.S rp) cp). lia.
Qed.

End Views.

(** Settle a run on views whose times are given. *)
Ltac view_eval :=
  repeat (progress
            (unfold viewPlay, viewTick, viewBound, viewAt, viewRequest,
               budgetSpent;
             cbn [viewRun viewStep loopIterations loopDirection loopDelay
                  v_state v_time v_dir v_rate v_total v_last v_count v_frames
                  v_timers v_repeats v_completes PlaybackState_eqb negb andb
                  sign INR fst snd];
             rewrite ?Rabs_R1; rcmp)).

(** *** [createPlayback] *)

Lemma createPlayback_vars (h : Trigger.Heap) (options : PlaybackOptions) :
  snd (createPlayback h options)
  = mkVars idle 0 forward (orElse (initialRate options) 1)
      (duration (timeline options)) None None 0 false.
Proof. reflexivity. Qed.

(** A loop trigger gives its iterations (unbounded when it has none),
    its direction and its delay; every other trigger, and no trigger,
    gives a budget of one iteration. *)
Lemma createPlayback_loop (h : Trigger.Heap) (options : PlaybackOptions)
  (b : Trigger.TriggerBinding) (c : Trigger.TriggerConfig) :
  trigger options = Some b ->
  Trigger.deref h (Trigger.config b) = Some c ->
  Trigger.type c = "loop"%string ->
  fst (createPlayback h options)
  = mkConsts (timeline options) (gradients options)
      (orElse (Trigger.iterations c) Trigger.PosInf)
      (orElse (Trigger.direction c) Trigger.normal)
      (orElse (Trigger.delay c) 0).
Proof.
  intros Hb Hc Ht. unfold createPlayback. rewrite Hb, Hc, Ht. reflexivity.
Qed.

Lemma createPlayback_default (h : Trigger.Heap) (options : PlaybackOptions) :
  (trigger options = None \/
   exists b c,
     trigger options = Some b /\
     Trigger.deref h (Trigger.config b) = Some c /\
     Trigger.type c <> "loop"%string) ->
  fst (createPlayback h options)
  = mkConsts (timeline options) (gradients options) (Trigger.Fin 1)
      Trigger.normal 0.
Proof.
  unfold createPlayback. intros [-> | (b & c & -> & -> & Hn)]; [reflexivity |].
  apply String.eqb_neq in Hn. rewrite Hn. reflexivity.
Qed.

Lemma Renders_noPath (host : Host) (fuel : nat)
  (plugins : list Interpolate.MotionSvgPlugin) (k : Consts) :
  InterpolateFacts.noHooks plugins ->
  (forall kf, In kf (keyframes (tl k)) -> pathD kf = None) ->
  Renders host fuel plugins k.
Proof.
  intros Hh Hp t w. unfold Interpolate.getActorStateAtTime.
  now apply InterpolateFacts.interpolateKeyframes_returns.
Qed.

Definition view0 (rate T : R) : View :=
  mkView idle 0 forward rate T None 0 0 0 0 0.

Lemma view_initial (h : Trigger.Heap) (options : PlaybackOptions)
  (w : Interpolate.World) :
  view (snd (createPlayback h options), initEnv w)
  = view0 (orElse (initialRate options) 1) (duration (timeline options)).
Proof. reflexivity. Qed.

Lemma Budget_facts (n : nat) (s : View) :
  (1 <= n)%nat -> Budget n s ->
  (v_repeats s <= n - 1)%nat /\ (v_completes s <= 1)%nat /\
  (v_state s = finished <-> v_completes s = 1%nat) /\
  (v_state s = finished -> v_repeats s = (n - 1)%nat /\ v_count s = n).
Proof.
  intros Hn. unfold Budget.
  destruct (v_state s); intros (H1 & H2 & H3); repeat split;
    try lia; try discriminate; try congruence.
Qed.


(** *** The iteration budget of a play-through *)

Lemma playThrough_budget (host : Host) (fuel : nat)
  (plugins : list Interpolate.MotionSvgPlugin) (h : Trigger.Heap)
  (options : PlaybackOptions) (n : nat) (hs : list Action)
  (w : Interpolate.World) (m : Machine) :
  loopIterations (fst (createPlayback h options)) = Trigger.Fin (INR n) ->
  (1 <= n)%nat ->
  Forall hostOnly hs ->
  run host fuel plugins (fst (createPlayback h options)) (Play :: hs)
    (snd (createPlayback h options), initEnv w) = Some m ->
  Budget n (view m).
Proof.
  intros Hk Hn Hhs Hrun.
  apply run_view in Hrun.
  2:{ constructor; [exact I |].
      eapply Forall_impl; [apply hostOnly_playThrough | exact Hhs]. }
  rewrite Hrun, view_initial. cbn [viewRun viewStep].
  apply viewRun_Budget; [exact Hk | exact Hhs |].
  unfold Budget. cbn. lia.
Qed.

Lemma playThrough_finishes (host : Host) (fuel : nat)
  (plugins : list Interpolate.MotionSvgPlugin) (h : Trigger.Heap)
  (options : PlaybackOptions) (n : nat) (w : Interpolate.World) :
  let k := fst (createPlayback h options) in
  loopIterations k = Trigger.Fin (INR n) ->
  (1 <= n)%nat ->
  loopDirection k = Trigger.normal ->
  loopDelay k = 0 ->
  initialRate options = None ->
  Renders host fuel plugins k ->
  exists m,
    run host fuel plugins k
      (Play :: beats (duration (timeline options)) 0 (Datatypes.S n))
      (snd (createPlayback h options), initEnv w) = Some m /\
    state (fst m) = finished /\
    countEvents ev_repeat m = (n - 1)%nat /\
    countEvents ev_complete m = 1%nat.
Proof.
  intros k Hk Hn Hd Hz Hrate Hr.
  assert (Hacts : Forall playThrough
            (Play :: beats (duration (timeline options)) 0 (Datatypes.S n))).
  { constructor; [exact I |].
    eapply Forall_impl; [apply hostOnly_playThrough | apply beats_playThrough]. }
  destruct (run_total host fuel plugins k _ Hr Hacts
              (snd (createPlayback h options), initEnv w)) as (m & Hrun).
  exists m. split; [exact Hrun |].
  pose proof (playThrough_budget host fuel plugins h options n _ w m Hk Hn
                (beats_playThrough _ 0 (Datatypes.S n)) Hrun) as Hb.
  assert (Hfin : v_state (view m) = finished).
  { apply run_view in Hrun; [| exact Hacts]. rewrite Hrun, view_initial, Hrate.
    cbn [viewRun viewStep orElse]. rewrite beats_cons.
    cbn [viewRun viewStep viewPlay view0 v_state v_time v_dir v_rate v_total
         v_last v_count v_frames v_timers v_repeats v_completes
         PlaybackState_eqb viewTick negb viewRequest viewAt].
    destruct n as [| n']; [lia |].
    unfold viewRequest, viewAt.
    cbn [v_state v_time v_dir v_rate v_total v_last v_count v_frames
         v_timers v_repeats v_completes].
    apply (viewRun_beats k (Datatypes.S n') (duration (timeline options))
             Hk Hd Hz n' 0 0 0 0 0 0)%nat. lia. }
  destruct (Budget_facts n (view m) Hn Hb) as (_ & _ & Hc & Hrep).
  split; [exact Hfin |]. split; [apply Hrep, Hfin | apply Hc, Hfin].
Qed.

Lemma playThrough_endless (host : Host) (fuel : nat)
  (plugins : list Interpolate.MotionSvgPlugin) (h : Trigger.Heap)
  (options : PlaybackOptions) (acts : list Action)
  (w : Interpolate.World) (m : Machine) :
  loopIterations (fst (createPlayback h options)) = Trigger.PosInf ->
  Forall playThrough acts ->
  run host fuel plugins (fst (createPlayback h options)) acts
    (snd (createPlayback h options), initEnv w) = Some m ->
  countEvents ev_complete m = 0%nat /\ state (fst m) <> finished.
Proof.
  intros Hk Ha Hrun. apply run_view in Hrun; [| exact Ha].
  assert (He : Endless (view m)).
  { rewrite Hrun, view_initial. apply viewRun_Endless; [exact Hk | exact Ha |].
    split; [discriminate | reflexivity]. }
  destruct He as [He1 He2]. split; [exact He2 | exact He1].
Qed.


(** *** Play-throughs that finish *)

(** The host in rounds: before each frame the loop timer fires if one
    is pending. *)
Definition rounds (ts : list R) : list Action :=
  flat_map (fun t => [Timeout; Frame t]) ts.

Lemma rounds_hostOnly (ts : list R) : Forall hostOnly (rounds ts).
Proof.
  induction ts as [| t rest IH]; cbn; [constructor |].
  constructor; [exact I |]. constructor; [exact I | exact IH].
Qed.

(** Frame times at least [eps] apart. *)
Definition apart (eps : R) (ts : list R) : Prop :=
  Sorted (fun a b => a + eps <= b) ts.

(** The same, with a lower bound for the first. *)
Fixpoint chain (eps next : R) (ts : list R) : Prop :=
  match ts with
  | [] => True
  | t :: rest => next <= t /\ chain eps (t + eps) rest
  end.

Lemma chain_weaken (eps : R) (ts : list R) :
  forall a b, a <= b -> chain eps b ts -> chain eps a ts.
Proof.
  destruct ts as [| t rest]; cbn; [tauto |].
  intros a b Hab [H1 H2]. split; [lra | exact H2].
Qed.

Lemma apart_chain (eps : R) (ts : list R) :
  apart eps ts ->
  match ts with [] => True | t :: _ => chain eps t ts end.
Proof.
  unfold apart. induction 1 as [| t rest Hs IH Hd]; [exact I |].
  cbn. split; [lra |].
  destruct rest as [| t' rest']; [exact I |].
  inversion Hd; subst. apply (chain_weaken eps _ (t + eps) t'); assumption.
Qed.

Section Liveness.
Variable k : Consts.
Variables (n : nat) (eps r T : R).
Hypothesis Hk : loopIterations k = Trigger.Fin (INR n).
Hypothesis Heps : 0 < eps.
Hypothesis Hr : r <> 0.
Hypothesis HT : 0 <= T.

(** The least way that a frame moves the cursor, and the greatest
    number of rounds that an iteration takes. *)
Definition stride : R := eps * Rabs r.
Definition lap : R := T / stride + 2.

Lemma stride_pos : 0 < stride.
Proof.
  unfold stride. apply Rmult_lt_0_compat; [exact Heps |].
  now apply Rabs_pos_lt.
Qed.

(** The way to the bound that the cursor is moving to. *)
Definition ahead (s : View) : R :=
  match v_dir s with forward => T - v_time s | backward => v_time s end.

(** A bound for the number of rounds that are left. *)
Definition togo (s : View) : R :=
  (INR n - INR (v_count s) - 1) * lap
  + match v_state s, v_last s with
    | playing, Some _ => ahead s / stride + 1
    | _, _ => lap
    end.

(** The controller is under way: playing with a frame pending, or
    waiting for the loop timer, or finished; the cursor is within the
    bounds, and the next frame comes [eps] after the last one. *)
Definition Live (next : R) (s : View) : Prop :=
  v_rate s = r /\ v_total s = T /\ Budget n s /\ 0 <= v_time s <= T /\
  match v_state s with
  | playing =>
      (1 <= v_frames s)%nat /\
      (forall l, v_last s = Some l -> l + eps <= next)
  | paused => (1 <= v_timers s)%nat
  | finished => True
  | idle => False
  end.

Definition hostRound (t : R) (s : View) : View :=
  viewStep k (Frame t) (viewStep k Timeout s).

Lemma div_le (a : R) : 0 <= a <= T -> 0 <= a / stride <= T / stride.
Proof.
  intros H. pose proof stride_pos as Hs.
  assert (0 < / stride) by now apply Rinv_0_lt_compat.
  unfold Rdiv. split; nra.
Qed.

Lemma div_step (a a' : R) : a' <= a - stride -> a' / stride + 1 <= a / stride.
Proof.
  intros H. pose proof stride_pos as Hs.
  assert (Hi : 0 < / stride) by now apply Rinv_0_lt_compat.
  replace (a / stride) with ((a - stride) / stride + 1) by (field; lra).
  unfold Rdiv. nra.
Qed.

Lemma lap_ge : 2 <= lap.
Proof. unfold lap. pose proof (div_le T ltac:(lra)). lra. Qed.

Lemma ahead_bound (s : View) : 0 <= v_time s <= T -> 0 <= ahead s <= T.
Proof. unfold ahead. destruct (v_dir s); lra. Qed.

(** While playback has not finished, a round is left. *)
Lemma togo_ge (next : R) (s : View) :
  Live next s -> v_state s <> finished -> 1 <= togo s.
Proof.
  intros (_ & _ & Hb & Ht & Hs) Hnf. unfold togo.
  pose proof lap_ge as Hl.
  assert (Hc : (Datatypes.S (v_count s) <= n)%nat).
  { unfold Budget in Hb.
    destruct (v_state s); try (exfalso; now apply Hnf); lia. }
  apply le_INR in Hc. rewrite S_INR in Hc.
  assert (0 <= (INR n - INR (v_count s) - 1) * lap) by nra.
  pose proof (div_le (ahead s) (ahead_bound s Ht)).
  destruct (v_state s); try destruct (v_last s); lra.
Qed.

Ltac live_split :=
  unfold Live, viewRequest, viewAt;
  cbn [v_rate v_total v_time v_state v_frames v_timers v_last v_dir v_count
       v_repeats v_completes fst snd];
  split; [reflexivity | split; [reflexivity | split; [assumption |
    split; [lra |]]]].

(** A time bound that is hit leaves the controller under way, with
    the rounds of one iteration fewer to go. *)
Lemma bound_live (next l : R) (s : View) (turn : Direction * R)
  (delayed : bool) :
  v_state s = playing -> v_rate s = r -> v_total s = T ->
  v_last s = Some l -> l + eps <= next ->
  0 <= v_time s <= T -> 0 <= snd turn <= T ->
  Budget n (viewBound k s turn delayed) ->
  Live next (viewBound k s turn delayed) /\
  (v_state (viewBound k s turn delayed) = finished \/
   togo (viewBound k s turn delayed)
   <= (INR n - INR (v_count s) - 1) * lap).
Proof.
  intros Hst Hrate Htot Hlast Hnext Ht Hturn HB.
  pose proof lap_ge as Hl.
  destruct s as [st tm dir rate tot last c f ti rp cp].
  cbn in Hst, Hrate, Htot, Hlast, Ht. subst st rate tot last.
  revert HB. unfold viewBound.
  cbn [v_count v_state v_time v_dir v_rate v_total v_last v_frames v_timers
       v_repeats v_completes].
  destruct (budgetSpent k (Datatypes.S c)).
  { intros HB. split; [| left; reflexivity].
    live_split. exact I. }
  destruct (delayed && Rltb 0 (loopDelay k)); intros HB.
  - split.
    + live_split. lia.
    + right. unfold togo. cbn [v_count v_state v_last]. rewrite S_INR. lra.
  - split.
    + live_split. split; [lia |]. intros l' [= <-]. exact Hnext.
    + right. unfold togo. cbn [v_count v_state v_last]. rewrite S_INR.
      match goal with
      | |- context [ahead ?s'] =>
          pose proof (div_le (ahead s') (ahead_bound s' Hturn)) as Hd
      end.
      unfold lap in *. lra.
Qed.

(** A round brings the controller nearer to its end. *)
Lemma round_live (t : R) (s : View) :
  Live t s -> v_state s <> finished ->
  Live (t + eps) (hostRound t s) /\
  (v_state (hostRound t s) = finished \/ togo (hostRound t s) + 1 <= togo s).
Proof.
  intros (Hrate & Htot & Hb & Ht & Hs) Hnf.
  pose proof lap_ge as Hlap. pose proof stride_pos as Hstr.
  assert (HB : Budget n (hostRound t s)).
  { unfold hostRound. apply viewStep_Budget; [exact Hk | exact I |].
    apply viewStep_Budget; [exact Hk | exact I | exact Hb]. }
  destruct s as [st tm dir rate tot last c f ti rp cp].
  cbn in Hrate, Htot, Ht, Hs, Hnf. subst rate tot.
  pose proof (div_le _ (ahead_bound (mkView st tm dir r T last c f ti rp cp)
                          Ht)) as Hah.
  destruct st; try tauto.
  - (* playing *)
    destruct Hs as [Hf Hl]. cbn in Hf, Hl.
    destruct f as [| f]; [lia |].
    assert (E1 : viewStep k Timeout
                   (mkView playing tm dir r T last c (Datatypes.S f) ti rp cp)
                 = mkView playing tm dir r T last c (Datatypes.S f)
                     (Nat.pred ti) rp cp)
      by (destruct ti; reflexivity).
    unfold hostRound in *. rewrite E1 in *. clear E1.
    revert HB. cbn [viewStep v_frames]. unfold viewTick.
    cbn [v_count v_state v_time v_dir v_rate v_total v_last v_frames v_timers
         v_repeats v_completes PlaybackState_eqb negb].
    destruct last as [l |].
    + specialize (Hl l eq_refl).
      set (t' := tm + (t - l) * sign dir * Rabs r).
      assert (Hmove : eps * Rabs r <= (t - l) * Rabs r).
      { apply Rmult_le_compat_r; [apply Rabs_pos | lra]. }
      fold stride in Hmove.
      destruct (Rleb_cases T t') as [[Hup ->] | [Hup ->]]; cbv iota.
      { intros HB.
        match type of HB with
        | Budget _ (viewBound _ ?s0 ?turn ?d) =>
            assert (Hturn : 0 <= snd turn <= T)
              by (destruct (loopDirection k); cbn; lra);
            destruct (bound_live (t + eps) t s0 turn d eq_refl eq_refl
                        eq_refl eq_refl ltac:(lra) ltac:(cbn; lra) Hturn HB)
              as [HL Hgo]
        end.
        split; [exact HL |].
        destruct Hgo as [Hfin | Hgo]; [left; exact Hfin | right].
        eapply Rle_trans; [apply Rplus_le_compat_r; exact Hgo |].
        unfold togo, viewAt. cbn [v_count v_state v_last] in *. lra. }
      destruct (Rleb_cases t' 0) as [[Hlo ->] | [Hlo ->]]; cbv iota.
      { intros HB.
        match type of HB with
        | Budget _ (viewBound _ ?s0 ?turn ?d) =>
            assert (Hturn : 0 <= snd turn <= T)
              by (destruct (loopDirection k); cbn; lra);
            destruct (bound_live (t + eps) t s0 turn d eq_refl eq_refl
                        eq_refl eq_refl ltac:(lra) ltac:(cbn; lra) Hturn HB)
              as [HL Hgo]
        end.
        split; [exact HL |].
        destruct Hgo as [Hfin | Hgo]; [left; exact Hfin | right].
        eapply Rle_trans; [apply Rplus_le_compat_r; exact Hgo |].
        unfold togo, viewAt. cbn [v_count v_state v_last] in *. lra. }
      intros HB. split.
      * live_split. split; [lia |]. intros l' [= <-]. lra.
      * right. unfold togo, viewRequest, viewAt.
        cbn [v_count v_state v_last]. 
        apply Rplus_le_reg_l with (r := - ((INR n - INR c - 1) * lap)).
        ring_simplify.
        match goal with
        | |- ?a / _ + 2 <= ?b / _ + 1 =>
            pose proof (div_step b a) as Hd
        end.
        assert (Hd' : ahead (mkView playing t' dir r T (Some t) c
                              (Datatypes.S f) (Nat.pred ti) rp cp)
                      <= ahead (mkView playing tm dir r T (Some l) c
                                  (Datatypes.S f) ti rp cp) - stride).
        { unfold ahead, t'. cbn. destruct dir; cbn [sign]; lra. }
        specialize (Hd Hd'). lra.
    + intros HB. split.
      * live_split. split; [lia |]. intros l' [= <-]. lra.
      * right. unfold togo, viewRequest, viewAt.
        cbn [v_count v_state v_last].
        match goal with
        | |- context [ahead ?s'] =>
            pose proof (div_le (ahead s') (ahead_bound s' Ht)) as Hd
        end.
        unfold lap in *. lra.
  - (* paused *)
    cbn in Hs. destruct ti as [| ti]; [lia |].
    unfold hostRound in *. revert HB.
    cbn [viewStep v_frames v_timers v_state PlaybackState_eqb].
    unfold viewTick.
    cbn [v_count v_state v_time v_dir v_rate v_total v_last v_frames v_timers
         v_repeats v_completes PlaybackState_eqb negb].
    intros HB. split.
    + live_split. split; [lia |]. intros l' [= <-]. lra.
    + right. unfold togo, viewRequest, viewAt.
      cbn [v_count v_state v_last].
      match goal with
      | |- context [ahead ?s'] =>
          pose proof (div_le (ahead s') (ahead_bound s' Ht)) as Hd
      end.
      unfold lap in *. lra.
Qed.

Lemma Live_later (next next' : R) (s : View) :
  next <= next' -> Live next s -> Live next' s.
Proof.
  intros Hle (H1 & H2 & H3 & H4 & H5).
  repeat (split; [assumption |]).
  destruct (v_state s); try assumption.
  destruct H5 as [Hf Hl]. split; [exact Hf |].
  intros l E. specialize (Hl l E). lra.
Qed.

Lemma finished_stays (ts : list R) :
  forall s, v_state s = finished ->
            v_state (viewRun k (rounds ts) s) = finished.
Proof.
  induction ts as [| t rest IH]; intros s Hs; [exact Hs |].
  cbn [rounds flat_map app viewRun]. apply IH.
  assert (H1 : v_state (viewStep k Timeout s) = finished).
  { unfold viewStep. destruct (v_timers s); [exact Hs |].
    rewrite Hs. reflexivity. }
  unfold viewStep at 1. destruct (v_frames _); [exact H1 |].
  unfold viewTick. cbn [v_state]. rewrite H1. reflexivity.
Qed.

(** Rounds enough bring playback to its end. *)
Lemma rounds_finish (ts : list R) :
  forall next s,
    Live next s -> chain eps next ts -> togo s <= INR (List.length ts) ->
    v_state (viewRun k (rounds ts) s) = finished.
Proof.
  induction ts as [| t rest IH]; intros next s HL Hch Hgo.
  - cbn. destruct (v_state s) eqn:Hs; try reflexivity;
      (pose proof (togo_ge next s HL ltac:(rewrite Hs; discriminate));
       cbn in Hgo; lra).
  - destruct Hch as [Hle Hch].
    destruct (PlaybackState_eqb (v_state s) finished) eqn:Hs.
    { apply finished_stays. now destruct (v_state s). }
    assert (Hnf : v_state s <> finished)
      by (intros E; rewrite E in Hs; discriminate).
    destruct (round_live t s (Live_later next t s Hle HL) Hnf)
      as [HL' Hstep].
    change (viewRun k (rounds (t :: rest)) s)
      with (viewRun k (rounds rest) (hostRound t s)).
    destruct Hstep as [Hfin | Hstep]; [now apply finished_stays |].
    apply (IH (t + eps)); [exact HL' | exact Hch |].
    change (List.length (t :: rest)) with (Datatypes.S (List.length rest))
      in Hgo.
    rewrite S_INR in Hgo. lra.
Qed.

End Liveness.

(** A play-through with frames at least [eps] apart, the loop timer
    firing before the next frame, finishes within
    [n * (T / (eps * |rate|) + 2)] rounds, whatever the direction and
    the delay of the loop. *)
Lemma playThrough_completes (host : Host) (fuel : nat)
  (plugins : list Interpolate.MotionSvgPlugin) (h : Trigger.Heap)
  (options : PlaybackOptions) (n : nat) (w : Interpolate.World)
  (eps : R) (ts : list R) :
  loopIterations (fst (createPlayback h options)) = Trigger.Fin (INR n) ->
  (1 <= n)%nat ->
  0 <= duration (timeline options) ->
  orElse (initialRate options) 1 <> 0 ->
  Renders host fuel plugins (fst (createPlayback h options)) ->
  0 < eps ->
  apart eps ts ->
  INR n * (duration (timeline options)
           / (eps * Rabs (orElse (initialRate options) 1)) + 2)
  <= INR (List.length ts) ->
  exists m,
    run host fuel plugins (fst (createPlayback h options))
      (Play :: rounds ts)
      (snd (createPlayback h options), initEnv w) = Some m /\
    state (fst m) = finished /\
    countEvents ev_repeat m = (n - 1)%nat /\
    countEvents ev_complete m = 1%nat /\
    iterationCount (fst m) = n.
Proof.
  intros Hk Hn HT Hr Hrend Heps Hap Hlen.
  set (k := fst (createPlayback h options)) in *.
  assert (Hacts : Forall playThrough (Play :: rounds ts)).
  { constructor; [exact I |].
    eapply Forall_impl; [apply hostOnly_playThrough | apply rounds_hostOnly]. }
  destruct (run_total host fuel plugins k _ Hrend Hacts
              (snd (createPlayback h options), initEnv w)) as (m & Hrun).
  exists m. split; [exact Hrun |].
  pose proof (playThrough_budget host fuel plugins h options n _ w m Hk Hn
                (rounds_hostOnly ts) Hrun) as Hb.
  assert (Hfin : v_state (view m) = finished).
  { apply run_view in Hrun; [| exact Hacts]. rewrite Hrun, view_initial.
    cbn [viewRun viewStep].
    apply (rounds_finish k n eps (orElse (initialRate options) 1)
             (duration (timeline options)) Hk Heps Hr HT ts
             (match ts with [] => 0 | t :: _ => t end)).
    - unfold Live, viewPlay, view0. cbn.
      repeat split; try lra; try lia. discriminate.
    - pose proof (apart_chain eps ts Hap) as Hc. destruct ts; [exact I | exact Hc].
    - unfold togo, viewPlay, view0. cbn [v_count v_state v_last
        PlaybackState_eqb INR]. unfold lap, stride. lra. }
  destruct (Budget_facts n (view m) Hn Hb) as (_ & _ & Hc & Hrep).
  split; [exact Hfin |].
  destruct (Hrep Hfin) as [H1 H2].
  split; [exact H1 |]. split; [apply Hc, Hfin | exact H2].
Qed.


(** C8.  A play-through is a call of [play()] on a new controller
    followed by frames and loop timers of the host.  With a budget of
    [n >= 1] iterations it emits at most [n - 1] [repeat] events and at
    most one [complete] event; [complete] is emitted exactly when the
    controller goes to [finished], which happens at the time bound that
    brings the iteration count to [n], and then exactly [n - 1]
    [repeat] events and one [complete] event have been emitted.  And a
    play-through does come to that end, whatever the direction and the
    delay of the loop and whatever the rate, if it is not 0: with
    frames at least [eps] apart and the loop timer firing before the
    next frame, every play-through of [n * (T / (eps * |rate|) + 2)]
    rounds or more ends [finished], with [n - 1] [repeat] events and
    one [complete] event; so does the forward loop without delay, run
    at rate 1 with frames a full duration apart.  With an unbounded
    budget no [complete] event is ever emitted.  A loop trigger gives
    its iterations as budget (unbounded when it names none); a trigger
    that is not a loop, and no trigger, give a budget of 1. *)
Theorem loop_iteration_budget :
  (forall (host : Host) (fuel : nat)
          (plugins : list Interpolate.MotionSvgPlugin) (h : Trigger.Heap)
          (options : PlaybackOptions) (n : nat) (hs : list Action)
          (w : Interpolate.World) (m : Machine),
      loopIterations (fst (createPlayback h options))
        = Trigger.Fin (INR n) ->
      (1 <= n)%nat ->
      Forall hostOnly hs ->
      run host fuel plugins (fst (createPlayback h options)) (Play :: hs)
        (snd (createPlayback h options), initEnv w) = Some m ->
      (countEvents ev_repeat m <= n - 1)%nat /\
      (countEvents ev_complete m <= 1)%nat /\
      (state (fst m) = finished <-> countEvents ev_complete m = 1%nat) /\
      (state (fst m) = finished ->
       countEvents ev_repeat m = (n - 1)%nat /\ iterationCount (fst m) = n))
  /\
  (forall (host : Host) (fuel : nat)
          (plugins : list Interpolate.MotionSvgPlugin) (h : Trigger.Heap)
          (options : PlaybackOptions) (n : nat) (w : Interpolate.World)
          (eps : R) (ts : list R),
      loopIterations (fst (createPlayback h options))
        = Trigger.Fin (INR n) ->
      (1 <= n)%nat ->
      0 <= duration (timeline options) ->
      orElse (initialRate options) 1 <> 0 ->
      Renders host fuel plugins (fst (createPlayback h options)) ->
      0 < eps ->
      apart eps ts ->
      INR n * (duration (timeline options)
               / (eps * Rabs (orElse (initialRate options) 1)) + 2)
      <= INR (List.length ts) ->
      exists m,
        run host fuel plugins (fst (createPlayback h options))
          (Play :: rounds ts)
          (snd (createPlayback h options), initEnv w) = Some m /\
        state (fst m) = finished /\
        countEvents ev_repeat m = (n - 1)%nat /\
        countEvents ev_complete m = 1%nat /\
        iterationCount (fst m) = n)
  /\
  (forall (host : Host) (fuel : nat)
          (plugins : list Interpolate.MotionSvgPlugin) (h : Trigger.Heap)
          (options : PlaybackOptions) (n : nat) (w : Interpolate.World),
      loopIterations (fst (createPlayback h options))
        = Trigger.Fin (INR n) ->
      (1 <= n)%nat ->
      loopDirection (fst (createPlayback h options)) = Trigger.normal ->
      loopDelay (fst (createPlayback h options)) = 0 ->
      initialRate options = None ->
      Renders host fuel plugins (fst (createPlayback h options)) ->
      exists m,
        run host fuel plugins (fst (createPlayback h options))
          (Play :: beats (duration (timeline options)) 0 (Datatypes.S n))
          (snd (createPlayback h options), initEnv w) = Some m /\
        state (fst m) = finished /\
        countEvents ev_repeat m = (n - 1)%nat /\
        countEvents ev_complete m = 1%nat)
  /\
  (forall (host : Host) (fuel : nat)
          (plugins : list Interpolate.MotionSvgPlugin) (h : Trigger.Heap)
          (options : PlaybackOptions) (acts : list Action)
          (w : Interpolate.World) (m : Machine),
      loopIterations (fst (createPlayback h options)) = Trigger.PosInf ->
      Forall playThrough acts ->
      run host fuel plugins (fst (createPlayback h options)) acts
        (snd (createPlayback h options), initEnv w) = Some m ->
      countEvents ev_complete m = 0%nat /\ state (fst m) <> finished)
  /\
  (forall (h : Trigger.Heap) (options : PlaybackOptions),
      (forall b c,
          trigger options = Some b ->
          Trigger.deref h (Trigger.config b) = Some c ->
          Trigger.type c = "loop"%string ->
          loopIterations (fst (createPlayback h options))
          = orElse (Trigger.iterations c) Trigger.PosInf) /\
      ((trigger options = None \/
        exists b c,
          trigger options = Some b /\
          Trigger.deref h (Trigger.config b) = Some c /\
          Trigger.type c <> "loop"%string) ->
       loopIterations (fst (createPlayback h options)) = Trigger.Fin 1)).
Proof.
  split; [| split; [| split; [| split]]].
  - intros host fuel plugins h options n hs w m Hk Hn Hhs Hrun.
    exact (Budget_facts n (view m) Hn
             (playThrough_budget host fuel plugins h options n hs w m Hk Hn
                Hhs Hrun)).
  - exact playThrough_completes.
  - intros host fuel plugins h options n w.
    exact (playThrough_finishes host fuel plugins h options n w).
  - exact playThrough_endless.
  - intros h options. split.
    + intros b c Hb Hc Ht.
      now rewrite (createPlayback_loop h options b c Hb Hc Ht).
    + intros H. now rewrite (createPlayback_default h options H).
Qed.

(** [[{at:0, opacity:0}, {at:100, opacity:1, curve:'linear'}]] as a
    timeline, and the triggers [{type:'loop', iterations:3,
    direction:'normal'}], [{type:'loop', iterations:3,
    direction:'reverse'}] and [{type:'loop', iterations:3,
    direction:'alternate', delay:250}]. *)
Definition fadeIn : Timeline :=
  mkTimeline "tl-actor-loop-1" "actor-loop"
    [ mkKeyframe 0 None None None (Some 0) None None None None None None
        None None None None;
      mkKeyframe 100 None None None (Some 1) None None None None None None
        None None None (Some (EasingNamed "linear")) ]
    100.

Definition loopOf (d : Trigger.LoopDirection) : Trigger.TriggerConfig :=
  Trigger.mkTrigger "loop" None None None (Some (Trigger.Fin 3)) (Some d)
    None None None None None.

Definition pingPong : Trigger.TriggerConfig :=
  Trigger.mkTrigger "loop" None None None (Some (Trigger.Fin 3))
    (Some Trigger.alternate) (Some 250) None None None None.

Definition fadeInOptions : PlaybackOptions :=
  mkPlaybackOptions fadeIn (Some (Trigger.mkBinding "tl-actor-loop-1" 0))
    None None.

Lemma fadeIn_renders (h : Trigger.Heap) :
  Renders idleHost 0 [] (fst (createPlayback h fadeInOptions)).
Proof.
  apply Renders_noPath; [now split |].
  intros kf [<- | [<- | []]]; reflexivity.
Qed.

Lemma loop_iteration_budget_witness :
  (exists m,
      run idleHost 0 [] (fst (createPlayback [loopOf Trigger.normal]
                                fadeInOptions))
        (Play :: beats 100 0 4)
        (snd (createPlayback [loopOf Trigger.normal] fadeInOptions),
         initEnv InterpolateFacts.world0) = Some m /\
      state (fst m) = finished /\
      countEvents ev_repeat m = 2%nat /\
      countEvents ev_complete m = 1%nat) /\
  (exists m,
      run idleHost 0 [] (fst (createPlayback [pingPong] fadeInOptions))
        (Play :: rounds [0; 100; 200; 300; 400; 500; 600; 700; 800])
        (snd (createPlayback [pingPong] fadeInOptions),
         initEnv InterpolateFacts.world0) = Some m /\
      state (fst m) = finished /\
      countEvents ev_repeat m = 2%nat /\
      countEvents ev_complete m = 1%nat /\
      iterationCount (fst m) = 3%nat).
Proof.
  split.
  - apply (proj1 (proj2 (proj2 loop_iteration_budget)) idleHost 0%nat []
             [loopOf Trigger.normal] fadeInOptions 3%nat
             InterpolateFacts.world0).
    + simpl. f_equal. lra.
    + lia.
    + reflexivity.
    + reflexivity.
    + reflexivity.
    + apply fadeIn_renders.
  - apply (proj1 (proj2 loop_iteration_budget) idleHost 0%nat []
             [pingPong] fadeInOptions 3%nat InterpolateFacts.world0 100).
    + simpl. f_equal. lra.
    + lia.
    + simpl. lra.
    + simpl. lra.
    + apply fadeIn_renders.
    + lra.
    + unfold apart. repeat constructor; lra.
    + simpl. rewrite Rabs_R1. lra.
Defined.

(** *** The loop direction at the lower bound *)

(** At the lower bound a repeat turns the direction only for
    [alternate]; for [reverse] and [normal] the direction stays and the
    cursor stays at 0. *)
Lemma lowerBound_turn (host : Host) (fuel : nat)
  (plugins : list Interpolate.MotionSvgPlugin) (k : Consts)
  (m m' : Machine) :
  lowerBound host fuel plugins k m = Some m' ->
  budgetSpent k (Datatypes.S (iterationCount (fst m))) = false ->
  countEvents ev_repeat m' = Datatypes.S (countEvents ev_repeat m) /\
  match loopDirection k with
  | Trigger.alternate =>
      direction (fst m') = forward /\ currentTime (fst m') = 0
  | _ =>
      direction (fst m') = direction (fst m) /\
      currentTime (fst m') = currentTime (fst m)
  end.
Proof.
  intros H Hb. apply lowerBound_view in H. unfold viewBound in H.
  change (v_count (view m)) with (iterationCount (fst m)) in H.
  rewrite Hb in H. cbn [andb] in H.
  change (countEvents ev_repeat m') with (v_repeats (view m')).
  change (direction (fst m')) with (v_dir (view m')).
  change (currentTime (fst m')) with (v_time (view m')).
  rewrite H. destruct (loopDirection k); split; try split; reflexivity.
Qed.

Definition reverseLoop : Consts :=
  mkConsts fadeIn None (Trigger.Fin 3) Trigger.reverse 0.

(** The steps of the run on views: [play()], the first frame, the
    repeat at the upper bound, the repeat at the lower bound, and the
    end one frame later. *)
Lemma reverse_step_play :
  viewStep reverseLoop Play (view0 1 100)
  = mkView playing 0 forward 1 100 None 0 1 0 0 0.
Proof. reflexivity. Qed.

Lemma reverse_step_first :
  viewStep reverseLoop (Frame 0)
    (mkView playing 0 forward 1 100 None 0 1 0 0 0)
  = mkView playing 0 forward 1 100 (Some 0) 0 1 0 0 0.
Proof. reflexivity. Qed.

Lemma reverse_step_upper :
  viewStep reverseLoop (Frame 100)
    (mkView playing 0 forward 1 100 (Some 0) 0 1 0 0 0)
  = mkView playing 100 backward 1 100 (Some 100) 1 1 0 1 0.
Proof. unfold reverseLoop. view_eval. reflexivity. Qed.

Lemma reverse_step_lower :
  viewStep reverseLoop (Frame 200)
    (mkView playing 100 backward 1 100 (Some 100) 1 1 0 1 0)
  = mkView playing 0 backward 1 100 (Some 200) 2 1 0 2 0.
Proof. unfold reverseLoop. view_eval. reflexivity. Qed.

Lemma reverse_step_stuck :
  viewStep reverseLoop (Frame 216)
    (mkView playing 0 backward 1 100 (Some 200) 2 1 0 2 0)
  = mkView finished 0 backward 1 100 (Some 216) 3 0 0 2 1.
Proof. unfold reverseLoop. view_eval. reflexivity. Qed.

Lemma reverse_views :
  viewRun reverseLoop [Play; Frame 0; Frame 100] (view0 1 100)
  = mkView playing 100 backward 1 100 (Some 100) 1 1 0 1 0 /\
  viewRun reverseLoop [Play; Frame 0; Frame 100; Frame 200] (view0 1 100)
  = mkView playing 0 backward 1 100 (Some 200) 2 1 0 2 0 /\
  viewRun reverseLoop [Play; Frame 0; Frame 100; Frame 200; Frame 216]
    (view0 1 100)
  = mkView finished 0 backward 1 100 (Some 216) 3 0 0 2 1.
Proof.
  cbn [viewRun].
  rewrite reverse_step_play, reverse_step_first, reverse_step_upper,
    reverse_step_lower, reverse_step_stuck.
  repeat split.
Qed.

(** C9 (where the code departs from it).  A loop of three iterations
    with direction [reverse] over a timeline of 100 ms, with frames at
    0, 100 and 200 ms: the first repeat, at the upper bound, turns the
    direction backward and leaves the cursor at 100; the second repeat,
    at the lower bound, leaves the direction backward and the cursor at
    0; and the next frame, 16 ms later, is at the lower bound again and
    uses the budget up. *)
Theorem reverse_loop_lower_bound :
  let k := fst (createPlayback [loopOf Trigger.reverse] fadeInOptions) in
  let m0 := (snd (createPlayback [loopOf Trigger.reverse] fadeInOptions),
             initEnv InterpolateFacts.world0) in
  (exists m,
      run idleHost 0 [] k [Play; Frame 0; Frame 100] m0 = Some m /\
      state (fst m) = playing /\ countEvents ev_repeat m = 1%nat /\
      direction (fst m) = backward /\ currentTime (fst m) = 100) /\
  (exists m,
      run idleHost 0 [] k [Play; Frame 0; Frame 100; Frame 200] m0 = Some m /\
      state (fst m) = playing /\ countEvents ev_repeat m = 2%nat /\
      direction (fst m) = backward /\ currentTime (fst m) = 0) /\
  (exists m,
      run idleHost 0 [] k [Play; Frame 0; Frame 100; Frame 200; Frame 216] m0
        = Some m /\
      state (fst m) = finished /\ iterationCount (fst m) = 3%nat).
Proof.
  intros k m0.
  assert (Hr : Renders idleHost 0 [] k) by apply fadeIn_renders.
  assert (Hrun : forall acts, Forall playThrough acts ->
            exists m, run idleHost 0 [] k acts m0 = Some m /\
                      view m = viewRun reverseLoop acts (view0 1 100)).
  { intros acts Ha.
    destruct (run_total idleHost 0%nat [] k acts Hr Ha m0) as (m & Hm).
    exists m. split; [exact Hm |]. now apply run_view in Hm. }
  destruct reverse_views as (H1 & H2 & H3).
  split; [| split].
  - destruct (Hrun [Play; Frame 0; Frame 100]) as (m & Hm & Hv);
      [repeat constructor |].
    exists m. split; [exact Hm |]. rewrite H1 in Hv.
    change (v_state (view m) = playing /\ v_repeats (view m) = 1%nat /\
            v_dir (view m) = backward /\ v_time (view m) = 100).
    rewrite Hv. repeat split.
  - destruct (Hrun [Play; Frame 0; Frame 100; Frame 200]) as (m & Hm & Hv);
      [repeat constructor |].
    exists m. split; [exact Hm |]. rewrite H2 in Hv.
    change (v_state (view m) = playing /\ v_repeats (view m) = 2%nat /\
            v_dir (view m) = backward /\ v_time (view m) = 0).
    rewrite Hv. repeat split.
  - destruct (Hrun [Play; Frame 0; Frame 100; Frame 200; Frame 216])
      as (m & Hm & Hv); [repeat constructor |].
    exists m. split; [exact Hm |]. rewrite H3 in Hv.
    change (v_state (view m) = finished /\ v_count (view m) = 3%nat).
    rewrite Hv. repeat split.
Qed.

End PlaybackFacts.

(* ------------------------------------------------------------------ *)
(** ** Easing curves *)

Module EasingFacts.
Import Easing.

Lemma table_endpoints :
  Forall (fun nf : string * EasingFunction => snd nf 0 = 0 /\ snd nf 1 = 1)
    easingFunctions.
Proof.
  unfold easingFunctions.
  repeat (apply Forall_cons;
          [cbn [snd]; unfold bounceOut, c3, c2, c1; cbv zeta; rcmp; split |]);
    try apply Forall_nil; unfold c1; try lra.
  all: try (replace (0 * PI / 2) with 0 by lra).
  all: try (replace (1 * PI / 2) with (PI / 2) by lra).
  all: try (replace (PI * 0) with 0 by lra).
  all: try (replace (PI * 1) with PI by lra).
  all: rewrite ?cos_0, ?sin_0, ?cos_PI2, ?sin_PI2, ?cos_PI; try lra.
Qed.

Lemma lookup_In (name : string) (f : EasingFunction) :
  forall table, lookup name table = Some f -> In (name, f) table.
Proof.
  induction table as [|[n g] rest IH]; cbn; [discriminate|].
  destruct (String.eqb n name) eqn:E.
  - intros [= <-]. apply String.eqb_eq in E. subst. now left.
  - intro H. right. now apply IH.
Qed.

(** X1. While the registry holds the built-in table, the easing that
    the resolver returns for a missing descriptor, for the empty name,
    for a built-in name and for every other name that the table does
    not inherit from [Object.prototype] starts at 0 and ends at 1: each
    built-in curve does, and a name of the last kind falls back to
    linear. *)
Theorem named_easing_endpoints (host : Host) (curve : option EasingCurve) :
  easingRegistry host = easingFunctions ->
  (forall c, curve <> Some (EasingBezier c)) ->
  (forall name, curve = Some (EasingNamed name) -> ~ In name inheritedKeys) ->
  getEasingFunction host curve 0 = 0 /\ getEasingFunction host curve 1 = 1.
Proof.
  intros Hreg Hnamed _.
  destruct curve as [[name|c]|]; cbn [getEasingFunction].
  - destruct (String.eqb name ""); [unfold linear; split; reflexivity|].
    rewrite Hreg.
    destruct (lookup name easingFunctions) as [f|] eqn:E; cbn [orElse].
    + apply lookup_In in E.
      pose proof table_endpoints as T. rewrite Forall_forall in T.
      exact (T _ E).
    + unfold linear; split; reflexivity.
  - exfalso. now apply (Hnamed c).
  - unfold linear; split; reflexivity.
Qed.

Lemma named_easing_endpoints_witness :
  getEasingFunction idleHost (Some (EasingNamed "easeOutBounce")) 0 = 0 /\
  getEasingFunction idleHost (Some (EasingNamed "easeOutBounce")) 1 = 1.
Proof.
  apply named_easing_endpoints; [reflexivity | intros c; discriminate |].
  intros name [= <-]. unfold inheritedKeys. cbn [In].
  intros H. repeat (destruct H as [H | H]; [discriminate H |]). exact H.
Defined.

End EasingFacts.

(* ------------------------------------------------------------------ *)
(** ** Outline geometry *)

Module GeometryFacts.
Import PathMorph.

(** The point at parameter [u] of the cubic Bézier curve with control
    values [p0 p1 p2 p3] (one coordinate). *)
Definition cubicAt (p0 p1 p2 p3 u : R) : R :=
  (1 - u) ^ 3 * p0 + 3 * (1 - u) ^ 2 * u * p1
  + 3 * (1 - u) * u ^ 2 * p2 + u ^ 3 * p3.

(** The same for the quadratic curve. *)
Definition quadAt (p0 p1 p2 u : R) : R :=
  (1 - u) ^ 2 * p0 + 2 * (1 - u) * u * p1 + u ^ 2 * p2.

(** The point at [u] of a segment that starts at [(x0, y0)]. *)
Definition pointAt (x0 y0 : R) (s : CubicSegment) (u : R) : R * R :=
  (cubicAt x0 (cx1 s) (cx2 s) (x s) u, cubicAt y0 (cy1 s) (cy2 s) (y s) u).

(** X4. The cubic that replaces a line traces the line, and the cubic
    that replaces a quadratic curve traces that curve, point for
    point. *)
Theorem conversions_exact (x0 y0 qx qy x1 y1 u : R) :
  pointAt x0 y0 (lineToCubic x0 y0 x1 y1) u
  = (x0 + u * (x1 - x0), y0 + u * (y1 - y0)) /\
  pointAt x0 y0 (quadToCubic x0 y0 qx qy x1 y1) u
  = (quadAt x0 qx x1 u, quadAt y0 qy y1 u).
Proof.
  unfold pointAt, lineToCubic, quadToCubic, cubicAt, quadAt; cbn [cx1 cy1 cx2 cy2 x y].
  split; f_equal; field.
Qed.

(** X5. De Casteljau: the first half of a split runs over the curve up
    to the split parameter, the second half over the rest, and the
    second half starts where the first ends. *)
Theorem splitCubicAt_halves (x0 y0 : R) (seg : CubicSegment) (t u : R) :
  let (first, second) := splitCubicAt x0 y0 seg t in
  pointAt x0 y0 first u = pointAt x0 y0 seg (t * u) /\
  pointAt (x first) (y first) second u
  = pointAt x0 y0 seg (t + (1 - t) * u) /\
  (x first, y first) = pointAt x0 y0 seg t /\
  (x second, y second) = (x seg, y seg).
Proof.
  destruct seg as [a1 b1 a2 b2 a3 b3].
  unfold splitCubicAt, pointAt, cubicAt, lerp; cbn [cx1 cy1 cx2 cy2 x y].
  repeat split; f_equal; ring.
Qed.


(** Where a run of segments that starts at [(sx, sy)] ends. *)
Definition endOf (sx sy : R) (l : list CubicSegment) : R * R :=
  match rev l with
  | [] => (sx, sy)
  | s :: _ => (x s, y s)
  end.

(** The lengths of the segments of a run that starts at [(px, py)],
    each measured from the end of the one before. *)
Fixpoint lengthsFrom (px py : R) (segs : list CubicSegment) : list R :=
  match segs with
  | [] => []
  | s :: rest => segmentLength px py s :: lengthsFrom (x s) (y s) rest
  end.

Lemma hypot_nonneg (a b : R) : 0 <= hypot a b.
Proof. unfold hypot. apply sqrt_pos. Qed.

Lemma segmentLength_nonneg (px py : R) (s : CubicSegment) :
  0 <= segmentLength px py s.
Proof.
  unfold segmentLength. cbv zeta.
  pose proof (hypot_nonneg (x s - px) (y s - py)).
  pose proof (hypot_nonneg (cx1 s - px) (cy1 s - py)).
  pose proof (hypot_nonneg (cx2 s - cx1 s) (cy2 s - cy1 s)).
  pose proof (hypot_nonneg (x s - cx2 s) (y s - cy2 s)).
  lra.
Qed.

Lemma endOf_cons (px py : R) (s : CubicSegment) (l : list CubicSegment) :
  endOf px py (s :: l) = endOf (x s) (y s) l.
Proof.
  unfold endOf. cbn [rev].
  destruct (rev l) as [|z zs] eqn:E; reflexivity.
Qed.

Lemma startOf_endOf (l : list CubicSegment) :
  forall px py,
    fold_left (fun (_ : R * R) s => (x s, y s)) l (px, py) = endOf px py l.
Proof.
  induction l as [|s l IH]; intros px py; [reflexivity|].
  cbn [fold_left]. rewrite IH, endOf_cons. reflexivity.
Qed.

Lemma findLongest_first_longest (segs : list CubicSegment) :
  forall i px py li ll,
    let r := findLongest segs i px py li ll in
    (r = li /\ Forall (fun len => len <= ll) (lengthsFrom px py segs))
    \/ exists l1 seg l2,
         segs = l1 ++ seg :: l2 /\
         r = (i + List.length l1)%nat /\
         let (qx, qy) := endOf px py l1 in
         let longest := segmentLength qx qy seg in
         ll < longest /\
         Forall (fun len => len <= longest) (lengthsFrom px py segs) /\
         Forall (fun len => len < longest) (lengthsFrom px py l1).
Proof.
  induction segs as [|s rest IH]; intros i px py li ll; cbn [findLongest].
  - left. split; [reflexivity | constructor].
  - cbv zeta. cbn [lengthsFrom].
    destruct (Rltb_cases ll (segmentLength px py s)) as [[Hlt ->]|[Hge ->]].
    + destruct (IH (Datatypes.S i) (x s) (y s) i (segmentLength px py s))
        as [[Hr Hall]|(l1 & seg & l2 & -> & Hr & Hrest)].
      * right. exists [], s, rest. split; [reflexivity|].
        split; [rewrite Hr; cbn; lia|].
        cbn [endOf rev]. split; [exact Hlt|]. split; [|constructor].
        constructor; [lra | exact Hall].
      * right. exists (s :: l1), seg, l2. split; [reflexivity|].
        split; [rewrite Hr; cbn [List.length]; lia|].
        rewrite endOf_cons.
        destruct (endOf (x s) (y s) l1) as [qx qy].
        destruct Hrest as (Hgt & Hall & Hbefore).
        split; [lra|]. split.
        -- constructor; [lra | exact Hall].
        -- cbn [lengthsFrom]. constructor; [lra | exact Hbefore].
    + destruct (IH (Datatypes.S i) (x s) (y s) li ll)
        as [[Hr Hall]|(l1 & seg & l2 & -> & Hr & Hrest)].
      * left. split; [exact Hr|]. constructor; [lra | exact Hall].
      * right. exists (s :: l1), seg, l2. split; [reflexivity|].
        split; [rewrite Hr; cbn [List.length]; lia|].
        rewrite endOf_cons.
        destruct (endOf (x s) (y s) l1) as [qx qy].
        destruct Hrest as (Hgt & Hall & Hbefore).
        split; [lra|]. split.
        -- constructor; [lra | exact Hall].
        -- cbn [lengthsFrom]. constructor; [lra | exact Hbefore].
Qed.

Lemma lengthsFrom_nonneg (segs : list CubicSegment) :
  forall px py, Forall (fun len => 0 <= len) (lengthsFrom px py segs).
Proof.
  induction segs as [|s rest IH]; intros px py; cbn [lengthsFrom];
    constructor; [apply segmentLength_nonneg | apply IH].
Qed.

(** X6. Subdividing replaces the first segment of greatest length by
    its two halves, split at one half from the point where that
    segment starts; every other segment stays as it is and where it
    is. *)
Theorem subdivideAtLongest_splits_longest
  (segs : list CubicSegment) (sx sy : R) :
  segs <> [] ->
  exists l1 seg l2,
    segs = l1 ++ seg :: l2 /\
    let (qx, qy) := endOf sx sy l1 in
    let (first, second) := splitCubicAt qx qy seg 0.5 in
    let longest := segmentLength qx qy seg in
    subdivideAtLongest segs sx sy = l1 ++ first :: second :: l2 /\
    Forall (fun len => len <= longest) (lengthsFrom sx sy segs) /\
    Forall (fun len => len < longest) (lengthsFrom sx sy l1).
Proof.
  intro Hne.
  assert (Hshape : exists l1 seg l2,
    segs = l1 ++ seg :: l2 /\
    findLongest segs 0 sx sy 0 0 = List.length l1 /\
    let (qx, qy) := endOf sx sy l1 in
    let longest := segmentLength qx qy seg in
    Forall (fun len => len <= longest) (lengthsFrom sx sy segs) /\
    Forall (fun len => len < longest) (lengthsFrom sx sy l1)).
  { destruct (findLongest_first_longest segs 0 sx sy 0 0)
      as [[Hr Hall]|(l1 & seg & l2 & Hsegs & Hr & Hrest)].
    - destruct segs as [|s rest]; [contradiction|].
      exists [], s, rest. split; [reflexivity|]. split; [exact Hr|].
      cbn [endOf rev]. split; [|constructor].
      pose proof (segmentLength_nonneg sx sy s) as H0.
      eapply Forall_impl; [|exact Hall]. cbn beta. intros; lra.
    - exists l1, seg, l2. split; [exact Hsegs|]. split; [exact Hr|].
      destruct (endOf sx sy l1) as [qx qy].
      destruct Hrest as (_ & Hall & Hbefore). split; assumption. }
  destruct Hshape as (l1 & seg & l2 & Hsegs & Hr & Hrest).
  exists l1, seg, l2. split; [exact Hsegs|].
  unfold subdivideAtLongest.
  destruct segs as [|s0 rest0]; [contradiction|].
  rewrite Hr. unfold startOf. rewrite startOf_endOf.
  rewrite Hsegs.
  rewrite firstn_app, Nat.sub_diag, firstn_all, firstn_O, app_nil_r.
  destruct (endOf sx sy l1) as [qx qy].
  rewrite nth_error_app2, Nat.sub_diag by lia. cbn [nth_error].
  destruct (splitCubicAt qx qy seg 0.5) as [first second].
  split; [|rewrite <- Hsegs; exact Hrest].
  f_equal.
  replace (Datatypes.S (List.length l1))
    with (List.length (l1 ++ [seg]))%nat
    by (rewrite length_app; cbn; lia).
  replace (l1 ++ seg :: l2) with ((l1 ++ [seg]) ++ l2)
    by (rewrite <- app_assoc; reflexivity).
  rewrite skipn_app, skipn_all, Nat.sub_diag. reflexivity.
Qed.

Lemma subdivideAtLongest_splits_longest_witness :
  exists l1 seg l2,
    [lineToCubic 0 0 1 0; lineToCubic 1 0 4 0] = l1 ++ seg :: l2 /\
    let (qx, qy) := endOf 0 0 l1 in
    let (first, second) := splitCubicAt qx qy seg 0.5 in
    let longest := segmentLength qx qy seg in
    subdivideAtLongest [lineToCubic 0 0 1 0; lineToCubic 1 0 4 0] 0 0
    = l1 ++ first :: second :: l2 /\
    Forall (fun len => len <= longest)
      (lengthsFrom 0 0 [lineToCubic 0 0 1 0; lineToCubic 1 0 4 0]) /\
    Forall (fun len => len < longest) (lengthsFrom 0 0 l1).
Proof.
  apply subdivideAtLongest_splits_longest. discriminate.
Defined.

End GeometryFacts.

Module MorphFacts.
Import PathMorph PathMorphFacts.

(** X7. Two outlines that both have segments are balanced within as
    many rounds as their segment counts differ: both come out with the
    greater count, and each keeps its start point, its end point and
    its closed flag. *)
Theorem balanceCommands_equal_counts
  (a b : NormalizedPath) (d : CubicSegment) (fuel : nat) :
  segments a <> [] -> segments b <> [] ->
  (Nat.max (List.length (segments a)) (List.length (segments b))
   - Nat.min (List.length (segments a)) (List.length (segments b))
   <= fuel)%nat ->
  exists a' b',
    balanceCommands fuel a b = Some (a', b') /\
    List.length (segments a') = List.length (segments b') /\
    List.length (segments a')
      = Nat.max (List.length (segments a)) (List.length (segments b)) /\
    (startX a', startY a', closed a') = (startX a, startY a, closed a) /\
    (startX b', startY b', closed b') = (startX b, startY b, closed b) /\
    endPoint (segments a') d = endPoint (segments a) d /\
    endPoint (segments b') d = endPoint (segments b) d.
Proof.
  intros Ha Hb Hfuel.
  destruct (grow_nonempty fuel (segments a) (List.length (segments b))
              (startX a) (startY a) d Ha) as (sa & Hga & Hla & Hea & Hna);
    [lia |].
  destruct (grow_nonempty fuel (segments b) (List.length sa)
              (startX b) (startY b) d Hb) as (sb & Hgb & Hlb & Heb & Hnb);
    [lia |].
  exists (mkPath (startX a) (startY a) sa (closed a)),
         (mkPath (startX b) (startY b) sb (closed b)).
  unfold balanceCommands. rewrite Hga, Hgb. simpl.
  repeat split; try assumption; lia.
Qed.

Definition unitSquare : NormalizedPath :=
  mkPath 0 0
    [lineToCubic 0 0 1 0; lineToCubic 1 0 1 1; lineToCubic 1 1 0 1;
     lineToCubic 0 1 0 0] true.

Definition stroke : NormalizedPath :=
  mkPath 2 2 [lineToCubic 2 2 5 6] false.

Lemma balanceCommands_equal_counts_witness :
  exists a' b',
    balanceCommands 3 stroke unitSquare = Some (a', b') /\
    List.length (segments a') = List.length (segments b') /\
    List.length (segments a')
      = Nat.max (List.length (segments stroke))
          (List.length (segments unitSquare)) /\
    (startX a', startY a', closed a')
      = (startX stroke, startY stroke, closed stroke) /\
    (startX b', startY b', closed b')
      = (startX unitSquare, startY unitSquare, closed unitSquare) /\
    endPoint (segments a') (lineToCubic 0 0 0 0)
      = endPoint (segments stroke) (lineToCubic 0 0 0 0) /\
    endPoint (segments b') (lineToCubic 0 0 0 0)
      = endPoint (segments unitSquare) (lineToCubic 0 0 0 0).
Proof.
  apply balanceCommands_equal_counts;
    [discriminate | discriminate | cbn; lia].
Defined.

Lemma grow_settled (fuel : nat) (segs : list CubicSegment) (target : nat)
  (sx sy : R) :
  (target <= List.length segs)%nat -> grow fuel segs target sx sy = Some segs.
Proof.
  intro H. destruct fuel; cbn [grow];
    (destruct (Nat.ltb_spec (List.length segs) target); [lia | reflexivity]).
Qed.

(** X8. Strictly between 0 and 1, [lerpPath] returns a path exactly
    when the two outlines both have segments or both have none. *)
Theorem lerpPath_returns_iff (host : Host) (pathA pathB : string) (t : R) :
  0 < t < 1 ->
  let segsA := segments (normalizeToCubic (parsePathD host pathA)) in
  let segsB := segments (normalizeToCubic (parsePathD host pathB)) in
  (exists fuel d, lerpPath host fuel pathA pathB t = Some d)
  <-> (segsA = [] <-> segsB = []).
Proof.
  intros Ht segsA segsB. split.
  - intros (fuel & d & Hd).
    unfold lerpPath in Hd. rewrite Rleb_f, Rleb_f in Hd by lra.
    unfold balanceCommands in Hd. fold segsA segsB in Hd.
    split; intro E.
    + rewrite E in Hd.
      destruct segsB as [|s rest]; [reflexivity|].
      rewrite grow_empty_diverges in Hd by (cbn; lia). discriminate.
    + rewrite E in Hd. cbn [List.length] in Hd.
      rewrite grow_settled in Hd by lia.
      destruct segsA as [|s rest]; [reflexivity|].
      rewrite grow_empty_diverges in Hd by (cbn; lia). discriminate.
  - intros Hiff. unfold lerpPath. rewrite Rleb_f, Rleb_f by lra.
    destruct segsA as [|sa ra] eqn:EA.
    + assert (EB : segsB = []) by (apply Hiff; reflexivity).
      exists 0%nat. unfold balanceCommands. fold segsA segsB.
      rewrite EA, EB. cbn. eauto.
    + assert (HB : segsB <> []).
      { intro E. apply Hiff in E. discriminate. }
      destruct (balanceCommands_nonempty
                  (normalizeToCubic (parsePathD host pathA))
                  (normalizeToCubic (parsePathD host pathB))
                  sa) as (fuel & a' & b' & Hbal & _).
      * fold segsA. rewrite EA. discriminate.
      * exact HB.
      * exists fuel. rewrite Hbal. eauto.
Qed.

Lemma lerpPath_returns_iff_witness :
  (exists fuel d, lerpPath idleHost fuel "M0 0L1 1" "M0 0" (1/2) = Some d)
  <-> (segments (normalizeToCubic (parsePathD idleHost "M0 0L1 1")) = []
       <-> segments (normalizeToCubic (parsePathD idleHost "M0 0")) = []).
Proof.
  apply (lerpPath_returns_iff idleHost "M0 0L1 1" "M0 0" (1/2)). lra.
Defined.

Definition wellFormed (cmd : PathCommand) : Prop :=
  relative cmd = false /\
  List.length (params cmd) = paramCounts (type cmd).

Lemma toAbsolute_length (ty : CommandType) (p : list R) (cx cy : R)
  (rel : bool) :
  List.length p = paramCounts ty ->
  List.length (toAbsolute ty p cx cy rel) = paramCounts ty.
Proof.
  intro H. unfold toAbsolute. destruct rel; cbn [negb]; [|exact H].
  destruct ty; try reflexivity; exact H.
Qed.

Lemma groups_wellFormed (fuel : nat) :
  forall ty rel nums first c,
    Forall wellFormed (fst (groups fuel ty rel nums first c)).
Proof.
  induction fuel as [|fuel IH]; intros ty rel nums first c; cbn [groups];
    [constructor|].
  cbv zeta.
  destruct (Nat.ltb_spec (List.length (firstn (paramCounts ty) nums))
              (paramCounts ty)) as [Hlt|Hge]; [constructor|].
  specialize (IH ty rel (skipn (paramCounts ty) nums) false
    (moveCursor ty
       (toAbsolute ty (firstn (paramCounts ty) nums) (curX c) (curY c) rel)
       c)).
  destruct (groups fuel ty rel (skipn (paramCounts ty) nums) false _)
    as [cmds c''].
  cbn [fst] in *. constructor; [|exact IH].
  split; [reflexivity|]. cbn [params type].
  rewrite toAbsolute_length.
  - destruct ty, first; reflexivity.
  - pose proof (firstn_le_length (paramCounts ty) nums). lia.
Qed.

Lemma command_wellFormed (host : Host) (ty : CommandType) (rel : bool)
  (paramStr : string) (c : Cursor) :
  Forall wellFormed (fst (command host ty rel paramStr c)).
Proof.
  unfold command. cbv zeta.
  destruct ty; try apply groups_wellFormed.
  cbn [fst]. constructor; [split; reflexivity | constructor].
Qed.

Lemma parseTokens_wellFormed (host : Host) (tokens : list string) :
  forall c, Forall wellFormed (parseTokens host tokens c).
Proof.
  assert (H : forall n tokens, (List.length tokens <= n)%nat ->
            forall c, Forall wellFormed (parseTokens host tokens c)).
  { clear tokens. induction n as [|n IH]; intros tokens Hn c.
    - destruct tokens; [constructor | cbn in Hn; lia].
    - destruct tokens as [|raw rest]; [constructor|].
      cbn [parseTokens]. cbn [List.length] in Hn.
      destruct (letterOf raw) as [[ty rel]|]; [|apply IH; lia].
      pose proof (command_wellFormed host ty rel (hd EmptyString rest) c)
        as Hc.
      destruct (command host ty rel (hd EmptyString rest) c) as [cmds c'].
      cbn [fst] in Hc. apply Forall_app. split; [exact Hc|].
      destruct rest as [|r rest']; [constructor|].
      apply IH. cbn [List.length] in Hn. lia. }
  intro c. exact (H (List.length tokens) tokens (Nat.le_refl _) c).
Qed.

(** X9. Whatever the text, every command the parser returns is
    absolute and carries exactly the number of parameters of its
    type. *)
Theorem parsePathD_wellFormed (host : Host) (d : string) :
  Forall wellFormed (parsePathD host d).
Proof. unfold parsePathD. apply parseTokens_wellFormed. Qed.

End MorphFacts.

(* ------------------------------------------------------------------ *)
(** ** Channels *)

Module ChannelFacts.
Import Interpolate InterpolateFacts.

(** X10. On keyframes sorted by time, the bracket of a channel is the
    last keyframe at or before the time and the first keyframe after
    it, among those that define the channel. *)
Theorem bracket_nearest_pair (has : Keyframe -> bool) (t : R)
  (kfs : list Keyframe) :
  StronglySorted byAt kfs ->
  _findBracket kfs t has = (specPrev has kfs t, specNext has kfs t).
Proof. apply findBracket_sorted. Qed.

Lemma bracket_nearest_pair_witness :
  _findBracket fadeOut 500 (fun kf => isSome (opacity kf))
  = (specPrev (fun kf => isSome (opacity kf)) fadeOut 500,
     specNext (fun kf => isSome (opacity kf)) fadeOut 500).
Proof. apply bracket_nearest_pair. exact fadeOut_sorted. Defined.

Lemma findBracketFrom_all_before (has : Keyframe -> bool) (t : R)
  (kfs : list Keyframe) :
  (forall kf, In kf kfs -> has kf = true -> kf_at kf <= t) ->
  forall prev,
    findBracketFrom kfs t has prev
    = (match lastOpt (filter has kfs) with
       | Some k => Some k
       | None => prev
       end, None).
Proof.
  induction kfs as [|kf rest IH]; intros Hall prev; [reflexivity|].
  cbn [findBracketFrom filter].
  destruct (has kf) eqn:Hkf; cbn [negb].
  - rewrite Rleb_t by (apply Hall; [now left | exact Hkf]).
    rewrite IH by (intros k Hk; apply Hall; now right).
    rewrite lastOpt_cons.
    destruct (lastOpt (filter has rest)); reflexivity.
  - apply IH. intros k Hk; apply Hall; now right.
Qed.

Lemma findBracketFrom_before_first (has : Keyframe -> bool) (t : R)
  (kfs : list Keyframe) (k : Keyframe) :
  find has kfs = Some k -> t < kf_at k ->
  forall prev, findBracketFrom kfs t has prev = (prev, Some k).
Proof.
  induction kfs as [|kf rest IH]; intros Hfind Ht prev; [discriminate|].
  cbn [find] in Hfind. cbn [findBracketFrom].
  destruct (has kf) eqn:Hkf; cbn [negb].
  - injection Hfind as ->. rewrite Rleb_f by lra. reflexivity.
  - now apply IH.
Qed.

Lemma find_defines {A : Type} (get : Keyframe -> option A)
  (kfs : list Keyframe) (k : Keyframe) :
  find (fun kf => isSome (get kf)) kfs = Some k -> exists v, get k = Some v.
Proof.
  intro H. apply find_some in H. destruct H as [_ H].
  destruct (get k) as [v|]; [eauto | discriminate].
Qed.

Lemma lastOpt_In {A : Type} (l : list A) (a : A) :
  lastOpt l = Some a -> In a l.
Proof.
  destruct l as [|b l']; [discriminate|].
  cbn [lastOpt]. intros [= <-]. apply last_In.
Qed.

Lemma lastOpt_defines {A : Type} (get : Keyframe -> option A)
  (kfs : list Keyframe) (k : Keyframe) :
  lastOpt (filter (fun kf => isSome (get kf)) kfs) = Some k ->
  exists v, get k = Some v.
Proof.
  intro H. apply lastOpt_In in H. apply filter_In in H.
  destruct H as [_ H].
  destruct (get k) as [v|]; [eauto | discriminate].
Qed.

(** X11. Before the first keyframe that defines a channel the channel
    has that keyframe's value, and once no defining keyframe lies after
    the time it has the value of the last one: numbers are not
    extrapolated, and outlines are taken as written, without a morph. *)
Theorem channel_held_outside (host : Host) (fuel : nat)
  (kfs : list Keyframe) (t : R) (get : Keyframe -> option R) (def : R)
  (k : Keyframe) :
  (find (fun kf => isSome (get kf)) kfs = Some k /\ t < kf_at k) \/
  (lastOpt (filter (fun kf => isSome (get kf)) kfs) = Some k /\
   forall kf, In kf kfs -> isSome (get kf) = true -> kf_at kf <= t) ->
  _interpNum host kfs t get def = bang def (get k) /\
  _interpOptNum host kfs t get = get k.
Proof.
  intros [[Hfind Ht]|[Hlast Hall]]; unfold _interpNum, _interpOptNum, _findBracket.
  - rewrite (findBracketFrom_before_first _ _ _ _ Hfind Ht).
    destruct (find_defines _ _ _ Hfind) as [v ->]. split; reflexivity.
  - rewrite (findBracketFrom_all_before _ _ _ Hall). rewrite Hlast.
    destruct (lastOpt_defines _ _ _ Hlast) as [v ->]. split; reflexivity.
Qed.

Lemma channel_held_outside_witness :
  _interpNum idleHost fadeOut 2000 opacity 1 = 0 /\
  _interpOptNum idleHost fadeOut 2000 opacity = Some 0.
Proof.
  apply (channel_held_outside idleHost 0 fadeOut 2000 opacity 1
           (mkKeyframe 1000 None None None (Some 0) None None None None None
              None None None None (Some (EasingNamed "linear")))).
  right. split; [reflexivity|].
  intros kf [<-|[<-|[]]] _; cbn [kf_at]; lra.
Defined.

(** X12. Outside the keyframes that define the outline, the outline
    channel returns the nearest outline as written, whatever the fuel:
    no morph is computed there. *)
Theorem outline_held_outside (host : Host) (fuel : nat)
  (kfs : list Keyframe) (t : R) (k : Keyframe) :
  (find (fun kf => isSome (pathD kf)) kfs = Some k /\ t < kf_at k) \/
  (lastOpt (filter (fun kf => isSome (pathD kf)) kfs) = Some k /\
   forall kf, In kf kfs -> isSome (pathD kf) = true -> kf_at kf <= t) ->
  _interpPath host fuel kfs t = Some (pathD k) /\ isSome (pathD k) = true.
Proof.
  intros [[Hfind Ht]|[Hlast Hall]]; unfold _interpPath, _findBracket.
  - rewrite (findBracketFrom_before_first _ _ _ _ Hfind Ht).
    destruct (find_defines _ _ _ Hfind) as [v ->]. split; reflexivity.
  - rewrite (findBracketFrom_all_before _ _ _ Hall). rewrite Hlast.
    destruct (lastOpt_defines _ _ _ Hlast) as [v ->]. split; reflexivity.
Qed.

Lemma outline_held_outside_witness :
  _interpPath idleHost 0 [TimelineFacts.morphFrom; TimelineFacts.morphTo]
    2000 = Some (pathD TimelineFacts.morphTo) /\
  isSome (pathD TimelineFacts.morphTo) = true.
Proof.
  apply (outline_held_outside idleHost 0
           [TimelineFacts.morphFrom; TimelineFacts.morphTo] 2000
           TimelineFacts.morphTo).
  right. split; [reflexivity|].
  intros kf [<-|[<-|[]]] _;
    unfold TimelineFacts.morphFrom, TimelineFacts.morphTo; cbn [kf_at]; lra.
Defined.

(** X13. On sorted keyframes a numeric channel passes through its
    keyframes: at the time of a defining keyframe the value is that
    keyframe's, provided the easing towards the next one starts at 0. *)
Theorem channel_hits_keyframe (host : Host) (kfs : list Keyframe)
  (get : Keyframe -> option R) (def : R) (p : Keyframe) (pv : R) :
  StronglySorted byAt kfs ->
  specPrev (fun kf => isSome (get kf)) kfs (kf_at p) = Some p ->
  get p = Some pv ->
  (forall n, specNext (fun kf => isSome (get kf)) kfs (kf_at p) = Some n ->
             Easing.getEasingFunction host (curve n) 0 = 0) ->
  _interpNum host kfs (kf_at p) get def = pv /\
  _interpOptNum host kfs (kf_at p) get = Some pv.
Proof.
  intros Hs Hp Hpv Hease.
  unfold _interpNum, _interpOptNum. rewrite findBracket_sorted by assumption.
  rewrite Hp.
  destruct (specNext (fun kf => isSome (get kf)) kfs (kf_at p)) as [n|] eqn:Hn.
  - pose proof (specNext_at _ _ _ _ Hn) as [Hdef Hlt].
    destruct (get n) as [nv|] eqn:Hnv; [|discriminate].
    rewrite Hpv. cbn [bang]. unfold _easedT. cbv zeta.
    rewrite Rltb_t by lra.
    replace ((kf_at p - kf_at p) / (kf_at n - kf_at p)) with 0
      by (field; lra).
    rewrite (Hease n eq_refl). unfold lerp. split; [|f_equal]; ring.
  - rewrite Hpv. split; reflexivity.
Qed.

Lemma channel_hits_keyframe_witness :
  _interpNum idleHost fadeOut 0 opacity 1 = 1 /\
  _interpOptNum idleHost fadeOut 0 opacity = Some 1.
Proof.
  apply (channel_hits_keyframe idleHost fadeOut opacity 1
           (mkKeyframe 0 None None None (Some 1) None None None None None
              None None None None None)).
  - exact fadeOut_sorted.
  - unfold specPrev, fadeOut. cbn [filter isSome opacity kf_at andb].
    rewrite Rleb_t by lra. rewrite Rleb_f by lra. reflexivity.
  - reflexivity.
  - intros n Hn.
    unfold specNext, fadeOut in Hn. cbn [find isSome opacity kf_at andb] in Hn.
    rewrite Rltb_f in Hn by lra. rewrite Rltb_t in Hn by lra.
    injection Hn as <-. reflexivity.
Defined.

(** X14. On sorted keyframes, an easing that keeps the unit interval
    within itself keeps a numeric channel between the values of the two
    keyframes around the time. *)
Theorem channel_within_bracket (host : Host) (kfs : list Keyframe) (t : R)
  (get : Keyframe -> option R) (def : R) (p n : Keyframe) (pv nv : R) :
  StronglySorted byAt kfs ->
  specPrev (fun kf => isSome (get kf)) kfs t = Some p ->
  specNext (fun kf => isSome (get kf)) kfs t = Some n ->
  get p = Some pv -> get n = Some nv ->
  (forall u, 0 <= u <= 1 ->
             0 <= Easing.getEasingFunction host (curve n) u <= 1) ->
  Rmin pv nv <= _interpNum host kfs t get def <= Rmax pv nv.
Proof.
  intros Hs Hp Hn Hpv Hnv Hunit.
  destruct (interpNum_between host kfs t get def p n pv nv Hs Hp Hn Hpv Hnv)
    as [-> _].
  apply specPrev_at in Hp. apply specNext_at in Hn.
  destruct Hp as [_ Hp]. destruct Hn as [_ Hn].
  set (u := (t - kf_at p) / (kf_at n - kf_at p)).
  assert (Hu : 0 <= u <= 1).
  { unfold u. split.
    - apply Rmult_le_pos; [lra|]. left. apply Rinv_0_lt_compat. lra.
    - apply Rmult_le_reg_r with (kf_at n - kf_at p); [lra|].
      unfold Rdiv. rewrite Rmult_assoc, Rinv_l by lra. lra. }
  specialize (Hunit u Hu).
  set (e := Easing.getEasingFunction host (curve n) u) in *.
  unfold lerp, Rmin, Rmax.
  destruct (Rle_dec pv nv); split; nra.
Qed.

Lemma channel_within_bracket_witness :
  Rmin 1 0 <= _interpNum idleHost fadeOut 250 opacity 1 <= Rmax 1 0.
Proof.
  apply (channel_within_bracket idleHost fadeOut 250 opacity 1
           (mkKeyframe 0 None None None (Some 1) None None None None None
              None None None None None)
           (mkKeyframe 1000 None None None (Some 0) None None None None None
              None None None None (Some (EasingNamed "linear")))).
  - exact fadeOut_sorted.
  - unfold specPrev, fadeOut. cbn [filter isSome opacity kf_at andb].
    rewrite Rleb_t by lra. rewrite Rleb_f by lra. reflexivity.
  - unfold specNext, fadeOut. cbn [find isSome opacity kf_at andb].
    rewrite Rltb_f by lra. rewrite Rltb_t by lra. reflexivity.
  - reflexivity.
  - reflexivity.
  - intros u Hu. exact Hu.
Defined.

End ChannelFacts.

(* ------------------------------------------------------------------ *)
(** ** Generated ids *)

Module IdFacts.
Import Interpolate.

(** The character [c] does not occur in [s]. *)
Fixpoint lacks (c : ascii) (s : string) : Prop :=
  match s with
  | EmptyString => True
  | String a rest => a <> c /\ lacks c rest
  end.

Lemma decimal_inj (n m : nat) : decimal n = decimal m -> n = m.
Proof.
  unfold decimal. intro H.
  apply (f_equal NilEmpty.uint_of_string) in H.
  rewrite !NilEmpty.usu in H. injection H as H.
  apply (f_equal Nat.of_uint) in H.
  now rewrite !DecimalNat.Unsigned.of_to in H.
Qed.

Lemma decimal_lacks_underscore (n : nat) : lacks "_" (decimal n).
Proof.
  unfold decimal. induction (Nat.to_uint n); cbn; auto;
    (split; [discriminate | assumption]).
Qed.

Lemma decimal_lacks_dash (n : nat) : lacks "-" (decimal n).
Proof.
  unfold decimal. induction (Nat.to_uint n); cbn; auto;
    (split; [discriminate | assumption]).
Qed.

Lemma lacks_append (c : ascii) (s r : string) :
  lacks c (s ++ String c r) -> False.
Proof.
  induction s as [|a s IH]; cbn; intros [H1 H2]; [now apply H1 | auto].
Qed.

(** Two texts that agree cut at their first [c] in the same place. *)
Lemma split_first (c : ascii) (s1 : string) :
  forall s2 r1 r2,
    lacks c s1 -> lacks c s2 ->
    (s1 ++ String c r1 = s2 ++ String c r2)%string -> s1 = s2.
Proof.
  induction s1 as [|a s1 IH]; intros [|b s2] r1 r2 H1 H2 E; cbn in *.
  - reflexivity.
  - injection E as E _. destruct H2 as [H2 _]. now subst.
  - injection E as E _. destruct H1 as [H1 _]. now subst.
  - injection E as -> E. f_equal. apply (IH s2 r1 r2); tauto.
Qed.

(** Two texts that agree cut at their last [c] in the same place. *)
Lemma split_last (c : ascii) (a : string) :
  forall b d1 d2,
    lacks c d1 -> lacks c d2 ->
    (a ++ String c d1 = b ++ String c d2)%string -> d1 = d2.
Proof.
  induction a as [|x a IH]; intros [|y b] d1 d2 H1 H2 E; cbn in *.
  - now injection E.
  - injection E as _ E. subst d1. now apply lacks_append in H1.
  - injection E as _ E. subst d2. now apply lacks_append in H2.
  - injection E as _ E. now apply (IH b).
Qed.

End IdFacts.

(* ------------------------------------------------------------------ *)
(** ** Gradient blends *)

Module GradientFacts.
Import Interpolate InterpolateFacts IdFacts.

Definition bump (w : World) : World :=
  mkWorld (Datatypes.S (_gradIdCounter w)) (now36 w) (hookLog w).

Definition interpId (n : nat) (clock : string) : string :=
  ("__interp_" ++ decimal n ++ "_" ++ clock)%string.

Lemma interpId_inj (n m : nat) (c d : string) :
  interpId n c = interpId m d -> n = m.
Proof.
  unfold interpId. cbn [String.append]. intro H.
  injection H as H.
  apply decimal_inj.
  apply (split_first "_" (decimal n) (decimal m) c d);
    auto using decimal_lacks_underscore.
Qed.

Lemma normalizeStops_length (host : Host) (ss : list GradientStop)
  (count : nat) :
  (List.length ss <= count)%nat ->
  List.length (normalizeStops host ss count) = count.
Proof.
  intro Hle. unfold normalizeStops.
  destruct (Nat.eqb_spec (List.length ss) count) as [E|E]; [exact E|].
  destruct (List.length ss =? 0)%nat; now rewrite length_map, length_seq.
Qed.

Lemma mapi_length {A B : Type} (f : nat -> A -> B) (xs : list A) :
  forall i, List.length (mapi f i xs) = List.length xs.
Proof.
  induction xs as [|a xs IH]; intro i; cbn; [reflexivity | now rewrite IH].
Qed.

Lemma lerpGradientDef_blend (host : Host) (a b : GradientDef) (t : R)
  (w : World) :
  exists g,
    lerpGradientDef host a b t w = Some (g, bump w) /\
    List.length (stops g)
      = Nat.max (List.length (stops a)) (List.length (stops b)) /\
    g_id g = interpId (Datatypes.S (_gradIdCounter w)) (now36 w) /\
    (forall la lb, a = Linear la -> b = Linear lb -> exists l, g = Linear l) /\
    (forall ra rb, a = Radial ra -> b = Radial rb -> exists r, g = Radial r).
Proof.
  set (count := Nat.max (List.length (stops a)) (List.length (stops b))).
  assert (Hlen : List.length
            (mapi (lerpStop host (normalizeStops host (stops b) count) t) 0
               (normalizeStops host (stops a) count)) = count).
  { rewrite mapi_length. apply normalizeStops_length. unfold count. lia. }
  unfold lerpGradientDef. fold count. cbv zeta.
  unfold bind, freshId, bind, nextGradId, readClock, ret. cbn [now36].
  fold (bump w).
  destruct a as [la|ra], b as [lb|rb].
  - eexists. split; [reflexivity|]. cbn [stops lg_stops lerpLinear g_id lg_id].
    repeat split; try exact Hlen; try discriminate. eauto.
  - destruct (Rltb t 0.5); eexists; (split; [reflexivity|]);
      cbn [withIdStops stops lg_stops rg_stops g_id lg_id rg_id];
      repeat split; try exact Hlen; try discriminate.
  - destruct (Rltb t 0.5); eexists; (split; [reflexivity|]);
      cbn [withIdStops stops lg_stops rg_stops g_id lg_id rg_id];
      repeat split; try exact Hlen; try discriminate.
  - eexists. split; [reflexivity|]. cbn [stops rg_stops lerpRadial g_id rg_id].
    repeat split; try exact Hlen; try discriminate. eauto.
Qed.


(** X15. Every blend of two gradients returns: it has as many stops as
    the longer of the two stop lists, it is linear or radial as both
    gradients are, and it takes exactly one number from the id
    counter. *)
Theorem lerpGradientDef_shape (host : Host) (a b : GradientDef) (t : R)
  (w : World) :
  exists g,
    lerpGradientDef host a b t w = Some (g, bump w) /\
    List.length (stops g)
      = Nat.max (List.length (stops a)) (List.length (stops b)) /\
    g_id g = interpId (Datatypes.S (_gradIdCounter w)) (now36 w) /\
    (forall la lb, a = Linear la -> b = Linear lb -> exists l, g = Linear l) /\
    (forall ra rb, a = Radial ra -> b = Radial rb -> exists r, g = Radial r).
Proof. apply lerpGradientDef_blend. Qed.

Lemma colorToUniformGradient_bump (c : string) (g : GradientDef)
  (w : World) :
  exists u, colorToUniformGradient c g w = Some (u, bump w).
Proof.
  unfold colorToUniformGradient. cbv zeta.
  unfold bind, freshId, bind, nextGradId, readClock, ret. cbn [now36].
  fold (bump w). destruct g; eauto.
Qed.

(** What a colour channel does to the world, and the id of the
    gradient it returns, if any. *)
Definition idIssued (w w' : World) (r : ColorResult) : Prop :=
  now36 w' = now36 w /\
  (_gradIdCounter w <= _gradIdCounter w')%nat /\
  forall g, cr_gradient r = Some g ->
    exists n, (_gradIdCounter w < n <= _gradIdCounter w')%nat /\
              g_id g = interpId n (now36 w).

Lemma idIssued_none (w : World) (r : ColorResult) :
  cr_gradient r = None -> idIssued w w r.
Proof.
  intro H. unfold idIssued. rewrite H.
  repeat split; [lia | discriminate].
Qed.

Lemma resolveResult_gradient (host : Host) (v : string)
  (gs : list GradientDef) :
  cr_gradient (resolveResult host v gs) = None.
Proof.
  unfold resolveResult. destruct (isUrl v); [|reflexivity].
  destruct (resolveGradient host v gs); reflexivity.
Qed.

Lemma blend_idIssued (host : Host) (a b : GradientDef) (t : R)
  (w0 w w' : World) (g : GradientDef) :
  now36 w = now36 w0 ->
  (_gradIdCounter w0 <= _gradIdCounter w)%nat ->
  lerpGradientDef host a b t w = Some (g, w') ->
  idIssued w0 w' (mkColorResult (Some (urlOf g)) (Some g)).
Proof.
  intros Hclock Hcount H.
  destruct (lerpGradientDef_blend host a b t w) as (g' & Hg & _ & Hid & _).
  rewrite Hg in H. injection H as <- <-.
  unfold idIssued, bump. cbn [now36 _gradIdCounter cr_gradient].
  split; [exact Hclock|]. split; [lia|].
  intros g0 [= <-]. exists (Datatypes.S (_gradIdCounter w)).
  split; [lia|]. rewrite Hid, Hclock. reflexivity.
Qed.

Lemma lerpColorOrGradient_idIssued (host : Host) (a b : string) (t : R)
  (gs : list GradientDef) (w w' : World) (r : ColorResult) :
  lerpColorOrGradient host a b t gs w = Some (r, w') -> idIssued w w' r.
Proof.
  unfold lerpColorOrGradient. cbv zeta.
  destruct (falsy a && falsy b).
  { intros [= <- <-]. now apply idIssued_none. }
  destruct (falsy a).
  { intros [= <- <-]. apply idIssued_none, resolveResult_gradient. }
  destruct (falsy b).
  { intros [= <- <-]. apply idIssued_none, resolveResult_gradient. }
  destruct (String.eqb a b).
  { intros [= <- <-]. apply idIssued_none, resolveResult_gradient. }
  destruct (negb (isUrl a) && negb (isUrl b)).
  { intros [= <- <-]. now apply idIssued_none. }
  destruct (isUrl a && isUrl b).
  { destruct (resolveGradient host a gs) as [ga|];
      [|intros [= <- <-]; now apply idIssued_none].
    destruct (resolveGradient host b gs) as [gb|];
      [|intros [= <- <-]; now apply idIssued_none].
    unfold bind.
    destruct (lerpGradientDef host ga gb t w) as [[g w1]|] eqn:E;
      [|discriminate].
    unfold ret. intros [= <- <-].
    eapply blend_idIssued; [| | exact E]; [reflexivity | lia]. }
  destruct (resolveGradient host (if isUrl a then a else b) gs) as [gd|];
    [|intros [= <- <-]; now apply idIssued_none].
  unfold bind at 1.
  destruct (colorToUniformGradient_bump (if isUrl a then b else a) gd w)
    as [u ->].
  unfold bind.
  destruct ((if isUrl a
             then lerpGradientDef host gd u t
             else lerpGradientDef host u gd t) (bump w))
    as [[g w1]|] eqn:E; [|discriminate].
  unfold ret. intros [= <- <-].
  destruct (isUrl a);
    (eapply blend_idIssued; [| | exact E]; cbn; [reflexivity | lia]).
Qed.

Lemma interpColor_idIssued (host : Host) (kfs : list Keyframe) (t : R)
  (get : Keyframe -> option string) (gs : list GradientDef)
  (w w' : World) (r : ColorResult) :
  _interpColor host kfs t get gs w = Some (r, w') -> idIssued w w' r.
Proof.
  unfold _interpColor.
  destruct (_findBracket kfs t (fun kf => isSome (get kf))) as [[p|] [n|]].
  - apply lerpColorOrGradient_idIssued.
  - intros [= <- <-]. apply idIssued_none, resolveResult_gradient.
  - intros [= <- <-]. apply idIssued_none, resolveResult_gradient.
  - intros [= <- <-]. now apply idIssued_none.
Qed.

(** X16. With no hook installed, the fill gradient and the stroke
    gradient of one state never share an id. *)
Theorem gradient_ids_distinct (host : Host) (fuel : nat)
  (plugins : list MotionSvgPlugin) (kfs : list Keyframe) (t : R)
  (opts : option InterpolateOptions) (w w' : World) (st : ActorState)
  (gf gs : GradientDef) :
  noHooks plugins ->
  interpolateKeyframes host fuel plugins kfs t opts w = Some (st, w') ->
  s_fillGradient st = Some gf -> s_strokeGradient st = Some gs ->
  g_id gf <> g_id gs.
Proof.
  intros Hno Hrun Hf Hs.
  destruct kfs as [|k0 rest].
  { cbn [interpolateKeyframes] in Hrun. unfold ret in Hrun.
    injection Hrun as <- _. discriminate. }
  destruct (interpolateKeyframes_noHooks host fuel plugins (k0 :: rest) t
              opts w Hno ltac:(discriminate))
    as (fr & w1 & sr & w2 & Hfill & Hstroke & Heq).
  rewrite Heq in Hrun.
  destruct (_interpPath host fuel (k0 :: rest) t) as [path|]; [|discriminate].
  injection Hrun as <- <-. cbn [s_fillGradient s_strokeGradient] in Hf, Hs.
  apply interpColor_idIssued in Hfill. apply interpColor_idIssued in Hstroke.
  destruct Hfill as (Hc1 & Hn1 & Hg1). destruct Hstroke as (Hc2 & Hn2 & Hg2).
  destruct (Hg1 gf Hf) as (n & Hn & ->).
  destruct (Hg2 gs Hs) as (m & Hm & ->).
  intro E. apply interpId_inj in E. lia.
Qed.


(** A host that resolves the two references used below. *)
Definition refHost : Host :=
  mkHost Easing.easingFunctions (fun _ _ _ _ t => t) (fun _ => [])
    (fun _ => EmptyString) (fun _ => None)
    (fun ref =>
       if String.eqb ref "url(#warm)" then Some "warm"%string
       else if String.eqb ref "url(#cold)" then Some "cold"%string
       else None).

Definition warm : GradientDef :=
  Radial (mkRadial "warm" 0.5 0.5 0.5 None None
            [mkStop 0 "#ff0000" None; mkStop 1 "#ffff00" None] None None).

Definition cold : GradientDef :=
  Radial (mkRadial "cold" 0.5 0.5 0.25 None None
            [mkStop 0 "#0000ff" None; mkStop 1 "#00ffff" None] None None).

Definition warmToCold : list Keyframe :=
  [ mkKeyframe 0 None None None None (Some "url(#warm)"%string)
      (Some "url(#warm)"%string) None None None None None None None None;
    mkKeyframe 1000 None None None None (Some "url(#cold)"%string)
      (Some "url(#cold)"%string) None None None None None None None None ].

Lemma warmToCold_channel (get : Keyframe -> option string) (w : World) :
  map get warmToCold
    = [Some "url(#warm)"%string; Some "url(#cold)"%string] ->
  exists g,
    _interpColor refHost warmToCold 500 get [warm; cold] w
    = Some (mkColorResult (Some (urlOf g)) (Some g), bump w).
Proof.
  unfold warmToCold. cbn [map]. intros [= E0 E1].
  unfold _interpColor, _findBracket. cbn [findBracketFrom].
  rewrite E0, E1. cbn [isSome negb kf_at].
  rewrite Rleb_t by lra. rewrite Rleb_f by lra.
  rewrite E0, E1. cbn [bang].
  unfold lerpColorOrGradient. cbv zeta.
  change (falsy "url(#warm)") with false.
  change (falsy "url(#cold)") with false.
  change (String.eqb "url(#warm)" "url(#cold)") with false.
  change (isUrl "url(#warm)") with true.
  change (isUrl "url(#cold)") with true.
  cbn [andb negb].
  change (resolveGradient refHost "url(#warm)" [warm; cold]) with (Some warm).
  change (resolveGradient refHost "url(#cold)" [warm; cold]) with (Some cold).
  unfold bind.
  destruct (lerpGradientDef_blend refHost warm cold
              (_easedT refHost
                 (mkKeyframe 0 None None None None (Some "url(#warm)"%string)
                    (Some "url(#warm)"%string) None None None None None None
                    None None)
                 (mkKeyframe 1000 None None None None
                    (Some "url(#cold)"%string) (Some "url(#cold)"%string)
                    None None None None None None None None) 500) w)
    as (g & -> & _).
  exists g. reflexivity.
Qed.

Lemma gradient_ids_distinct_witness :
  exists st w' gf gs,
    interpolateKeyframes refHost 0 [] warmToCold 500
      (Some (mkOptions (Some [warm; cold]) None)) world0 = Some (st, w') /\
    s_fillGradient st = Some gf /\ s_strokeGradient st = Some gs /\
    g_id gf <> g_id gs.
Proof.
  destruct (warmToCold_channel fill world0 eq_refl) as [gf Hf].
  destruct (warmToCold_channel stroke (bump world0) eq_refl) as [gs Hs].
  assert (Hrun : exists st,
    interpolateKeyframes refHost 0 [] warmToCold 500
      (Some (mkOptions (Some [warm; cold]) None)) world0
      = Some (st, bump (bump world0)) /\
    s_fillGradient st = Some gf /\ s_strokeGradient st = Some gs).
  { unfold interpolateKeyframes. unfold warmToCold at 1.
    cbn [hasBefore hasAfter existsb gradients orElse].
    unfold bind at 1. unfold ret at 1.
    unfold bind at 1. rewrite Hf.
    unfold bind at 1. rewrite Hs.
    unfold bind at 1. unfold lift.
    change (_interpPath refHost 0 warmToCold 500) with (Some (@None string)).
    eexists. split; [reflexivity|]. split; reflexivity. }
  destruct Hrun as (st & Hrun & Hfg & Hsg).
  exists st, (bump (bump world0)), gf, gs.
  split; [exact Hrun|]. split; [exact Hfg|]. split; [exact Hsg|].
  apply (gradient_ids_distinct refHost 0 [] warmToCold 500
           (Some (mkOptions (Some [warm; cold]) None)) world0
           (bump (bump world0)) st gf gs);
    [split; reflexivity | exact Hrun | exact Hfg | exact Hsg].
Defined.

End GradientFacts.

(* ------------------------------------------------------------------ *)
(** ** Plugin hooks *)

Module HookFacts.
Import Interpolate InterpolateFacts.

(** The keyframes after every [beforeInterpolate] hook, each hook
    working on the result of the one before it. *)
Definition beforeAll (plugins : list MotionSvgPlugin) (kfs : list Keyframe)
  (t : R) : list Keyframe :=
  fold_left (fun k p => match beforeInterpolate p with
                        | Some hook => hook k t
                        | None => k
                        end) plugins kfs.

Definition afterAll (plugins : list MotionSvgPlugin) (st : ActorState)
  (actor : string) (t : R) : ActorState :=
  fold_left (fun s p => match afterInterpolate p with
                        | Some hook => hook s actor t
                        | None => s
                        end) plugins st.

Definition hasHook (h : HookName) (p : MotionSvgPlugin) : bool :=
  match h with
  | BeforeInterpolate => isSome (beforeInterpolate p)
  | AfterInterpolate => isSome (afterInterpolate p)
  end.

(** The calls of hook [h], in the order of registration. *)
Definition hookCalls (h : HookName) (plugins : list MotionSvgPlugin)
  : list (string * HookName) :=
  map (fun p => (name p, h)) (filter (hasHook h) plugins).

(** The world once the calls of [h] are in the log (latest first). *)
Definition logged (h : HookName) (plugins : list MotionSvgPlugin)
  (w : World) : World :=
  mkWorld (_gradIdCounter w) (now36 w)
    (rev (hookCalls h plugins) ++ hookLog w).

Lemma runBefore_fold (plugins : list MotionSvgPlugin) :
  forall kfs t w,
    runBefore plugins kfs t w
    = Some (beforeAll plugins kfs t, logged BeforeInterpolate plugins w).
Proof.
  induction plugins as [|p rest IH]; intros kfs t w.
  - destruct w; reflexivity.
  - cbn [runBefore beforeAll fold_left]. unfold logged, hookCalls.
    cbn [filter hasHook].
    destruct (beforeInterpolate p) as [hook|]; cbn [isSome].
    + unfold bind, logHook. rewrite IH. unfold logged, hookCalls.
      cbn [_gradIdCounter now36 hookLog map rev].
      rewrite <- app_assoc. reflexivity.
    + apply IH.
Qed.

Lemma runAfter_fold (plugins : list MotionSvgPlugin) :
  forall st actor t w,
    runAfter plugins st actor t w
    = Some (afterAll plugins st actor t, logged AfterInterpolate plugins w).
Proof.
  induction plugins as [|p rest IH]; intros st actor t w.
  - destruct w; reflexivity.
  - cbn [runAfter afterAll fold_left]. unfold logged, hookCalls.
    cbn [filter hasHook].
    destruct (afterInterpolate p) as [hook|]; cbn [isSome].
    + unfold bind, logHook. rewrite IH. unfold logged, hookCalls.
      cbn [_gradIdCounter now36 hookLog map rev].
      rewrite <- app_assoc. reflexivity.
    + apply IH.
Qed.

Lemma no_hook_fold (h : HookName) (plugins : list MotionSvgPlugin) :
  existsb (hasHook h) plugins = false -> filter (hasHook h) plugins = [].
Proof.
  induction plugins as [|p rest IH]; [reflexivity|].
  cbn [existsb filter]. destruct (hasHook h p); [discriminate|]. exact IH.
Qed.

Lemma beforeAll_none (plugins : list MotionSvgPlugin) :
  hasBefore plugins = false ->
  forall kfs t, beforeAll plugins kfs t = kfs.
Proof.
  unfold hasBefore, beforeAll.
  induction plugins as [|p rest IH]; intros H kfs t; [reflexivity|].
  cbn [existsb fold_left] in *.
  destruct (beforeInterpolate p); [discriminate|]. now apply IH.
Qed.

Lemma afterAll_none (plugins : list MotionSvgPlugin) :
  hasAfter plugins = false ->
  forall st actor t, afterAll plugins st actor t = st.
Proof.
  unfold hasAfter, afterAll.
  induction plugins as [|p rest IH]; intros H st actor t; [reflexivity|].
  cbn [existsb fold_left] in *.
  destruct (afterInterpolate p); [discriminate|]. now apply IH.
Qed.

Lemma logged_none (h : HookName) (plugins : list MotionSvgPlugin)
  (w : World) :
  existsb (hasHook h) plugins = false -> logged h plugins w = w.
Proof.
  intro H. unfold logged, hookCalls. rewrite (no_hook_fold h plugins H).
  destruct w; reflexivity.
Qed.

(** X17. With plugins, the engine is the plain engine between the
    hooks: the [beforeInterpolate] hooks rewrite the keyframes one after
    the other in registration order, the plain engine runs on the
    result, and the [afterInterpolate] hooks rewrite its state in the
    same order; each hook is called once. *)
Theorem hooks_wrap_engine (host : Host) (fuel : nat)
  (plugins : list MotionSvgPlugin) (kfs : list Keyframe) (t : R)
  (opts : option InterpolateOptions) (w : World) :
  kfs <> [] ->
  interpolateKeyframes host fuel plugins kfs t opts w
  = match interpolateKeyframes host fuel [] (beforeAll plugins kfs t) t opts
            (logged BeforeInterpolate plugins w) with
    | None => None
    | Some (st, w') =>
        Some (afterAll plugins st
                (orElse (match opts with
                         | Some o => actorId o
                         | None => None
                         end) EmptyString) t,
              logged AfterInterpolate plugins w')
    end.
Proof.
  intro Hne. destruct kfs as [|k0 rest]; [contradiction|].
  set (kfs := k0 :: rest).
  set (actor := orElse (match opts with
                        | Some o => actorId o
                        | None => None
                        end) EmptyString).
  set (gs := orElse (match opts with
                     | Some o => gradients o
                     | None => None
                     end) []).
  assert (Hplain : forall ks w0,
    interpolateKeyframes host fuel [] ks t opts w0
    = (fillResult <- _interpColor host ks t fill gs ;;
       strokeResult <- _interpColor host ks t stroke gs ;;
       path <- lift (_interpPath host fuel ks t) ;;
       ret (mkState
              (_interpPoint host ks t position (mkPoint 0 0))
              (_interpScale host ks t)
              (_interpNum host ks t rotation 0)
              (_interpNum host ks t opacity 1)
              (cr_color fillResult) (cr_color strokeResult)
              (_interpOptNum host ks t strokeWidth)
              (_interpSnap ks t strokeAlign)
              (_interpOptNum host ks t blurRadius)
              (_interpOptNum host ks t backdropBlur)
              (_interpOptNum host ks t width)
              (_interpOptNum host ks t height)
              (cr_gradient fillResult) (cr_gradient strokeResult)
              path)) w0).
  { intros [|k ks] w0; reflexivity. }
  rewrite Hplain.
  assert (Hkfs : (if hasBefore plugins
                  then runBefore plugins kfs t
                  else ret kfs) w
                 = Some (beforeAll plugins kfs t,
                         logged BeforeInterpolate plugins w)).
  { destruct (hasBefore plugins) eqn:Hb.
    - apply runBefore_fold.
    - unfold ret. rewrite beforeAll_none by exact Hb.
      rewrite logged_none by exact Hb. reflexivity. }
  unfold interpolateKeyframes. fold kfs. unfold kfs at 1.
  fold gs actor.
  unfold bind, lift, ret in *. rewrite Hkfs.
  set (ks := beforeAll plugins kfs t).
  set (w1 := logged BeforeInterpolate plugins w).
  destruct (_interpColor host ks t fill gs w1) as [[fr w2]|]; [|reflexivity].
  destruct (_interpColor host ks t stroke gs w2) as [[sr w3]|]; [|reflexivity].
  destruct (_interpPath host fuel ks t) as [path|]; [|reflexivity].
  destruct (hasAfter plugins) eqn:Ha.
  - apply runAfter_fold.
  - rewrite afterAll_none by exact Ha.
    rewrite logged_none by exact Ha. reflexivity.
Qed.

(** A plugin that halves the opacity of every state. *)
Definition dimmer : MotionSvgPlugin :=
  mkPlugin "dimmer" None
    (Some (fun st _ _ =>
             mkState (s_position st) (s_scale st) (s_rotation st)
               (s_opacity st / 2) (s_fill st) (s_stroke st)
               (s_strokeWidth st) (s_strokeAlign st) (s_blurRadius st)
               (s_backdropBlur st) (s_width st) (s_height st)
               (s_fillGradient st) (s_strokeGradient st) (s_pathD st))).

Lemma hooks_wrap_engine_witness :
  interpolateKeyframes idleHost 0 [dimmer] fadeOut 500 None world0
  = match interpolateKeyframes idleHost 0 []
            (beforeAll [dimmer] fadeOut 500) 500 None
            (logged BeforeInterpolate [dimmer] world0) with
    | None => None
    | Some (st, w') =>
        Some (afterAll [dimmer] st EmptyString 500,
              logged AfterInterpolate [dimmer] w')
    end.
Proof. apply (hooks_wrap_engine idleHost 0 [dimmer] fadeOut 500 None world0). discriminate. Defined.

End HookFacts.

(* ------------------------------------------------------------------ *)
(** ** Timelines in use *)

Module TimelineUse.
Import Interpolate InterpolateFacts TimelineCtor TimelineFacts IdFacts.

(** X18. A timeline that the constructor returns has its keyframes in
    ascending order of time, at the times that were given; its duration
    is the greatest of them. *)
Theorem timeline_ordered (n : nat) (actor : Actor) (kfs : list Keyframe)
  (tl : Timeline) (n' : nat) :
  timeline n actor (mkConfig kfs) = inr (tl, n') ->
  Permutation (map kf_at kfs) (map kf_at (keyframes tl)) /\
  StronglySorted Rle (map kf_at (keyframes tl)) /\
  Forall (fun kf => kf_at kf <= duration tl) (keyframes tl) /\
  In (duration tl) (map kf_at kfs).
Proof.
  intro H. destruct (timeline_sorted n actor kfs tl n' H)
    as (Hmap & Hsorted & Hall & Hin).
  repeat split; try assumption.
  rewrite Hmap. apply Permutation_map, sortByAt_perm.
Qed.


Lemma timeline_ordered_witness :
  exists tl,
    timeline 0 someActor (mkConfig [morphTo; morphFrom]) = inr (tl, 1%nat) /\
    Permutation (map kf_at [morphTo; morphFrom]) (map kf_at (keyframes tl)) /\
    StronglySorted Rle (map kf_at (keyframes tl)) /\
    Forall (fun kf => kf_at kf <= duration tl) (keyframes tl) /\
    In (duration tl) (map kf_at [morphTo; morphFrom]).
Proof.
  destruct (timeline_nonempty 0 someActor [morphTo; morphFrom]
              ltac:(discriminate)) as (first & rest & _ & Htl).
  eexists. split; [exact Htl|].
  exact (timeline_ordered 0 someActor [morphTo; morphFrom] _ 1%nat Htl).
Defined.

Lemma filter_none {A : Type} (f : A -> bool) (l : list A) :
  (forall a, In a l -> f a = false) -> filter f l = [].
Proof.
  induction l as [|a l IH]; intro H; [reflexivity|].
  cbn [filter]. rewrite (H a) by now left.
  apply IH. intros b Hb. apply H. now right.
Qed.

Lemma timeline_position_channel (host : Host) (n : nat) (actor : Actor)
  (kfs : list Keyframe) (tl : Timeline) (n' : nat) (t : R) :
  timeline n actor (mkConfig kfs) = inr (tl, n') ->
  (forall kf, In kf kfs -> position kf = None) ->
  _interpPoint host (keyframes tl) t position (mkPoint 0 0) = origin actor.
Proof.
  intros Htl Hnone.
  destruct kfs as [|k0 ks]; [discriminate|].
  destruct (timeline_nonempty n actor (k0 :: ks) ltac:(discriminate))
    as (first & rest & Hsort & Heq).
  rewrite Heq in Htl. injection Htl as <- _. cbn [keyframes].
  assert (Hin : forall kf, In kf (first :: rest) -> position kf = None).
  { intros kf Hkf. apply Hnone.
    apply (Permutation_in kf (Permutation_sym (sortByAt_perm (k0 :: ks)))).
    now rewrite Hsort. }
  rewrite interpPoint_filter. cbn [filter].
  destruct (filledFirst_fields actor first) as (Hat & Hpos & _).
  rewrite Hpos. cbn [isSome].
  rewrite filter_none
    by (intros kf Hkf; rewrite (Hin kf) by (now right); reflexivity).
  unfold _interpPoint, _findBracket. cbn [findBracketFrom].
  rewrite Hpos. cbn [isSome negb].
  destruct (Rleb (kf_at (filledFirst actor first)) t);
    rewrite Hpos, (Hin first) by (now left); reflexivity.
Qed.

(** X19. When no keyframe of the configuration sets the position, a
    timeline built by the constructor keeps the actor at its origin at
    every time, not at the engine's default point. *)
Theorem timeline_rests_at_origin (host : Host) (fuel n : nat)
  (plugins : list MotionSvgPlugin) (actor : Actor) (kfs : list Keyframe)
  (tl : Timeline) (n' : nat) (t : R) (opts : option InterpolateOptions)
  (w w' : World) (st : ActorState) :
  timeline n actor (mkConfig kfs) = inr (tl, n') ->
  (forall kf, In kf kfs -> position kf = None) ->
  noHooks plugins ->
  getActorStateAtTime host fuel plugins tl t opts w = Some (st, w') ->
  s_position st = origin actor.
Proof.
  intros Htl Hnone Hno Hrun.
  pose proof (timeline_position_channel host n actor kfs tl n' t Htl Hnone)
    as Hpos.
  unfold getActorStateAtTime in Hrun.
  destruct (keyframes tl) as [|k0 rest] eqn:Hk.
  { destruct kfs as [|k ks]; [discriminate|].
    destruct (timeline_nonempty n actor (k :: ks) ltac:(discriminate))
      as (first & rest & _ & Heq).
    rewrite Heq in Htl. injection Htl as <- _. discriminate. }
  destruct (interpolateKeyframes_noHooks host fuel plugins (k0 :: rest) t
              (Some (mkOptions
                       (match opts with
                        | Some o => gradients o
                        | None => None
                        end) (Some (tl_actorId tl)))) w Hno
              ltac:(discriminate))
    as (fr & w1 & sr & w2 & _ & _ & Heq).
  rewrite Heq in Hrun.
  destruct (_interpPath host fuel (k0 :: rest) t); [|discriminate].
  injection Hrun as <- _. cbn [s_position]. exact Hpos.
Qed.

Lemma timeline_rests_at_origin_witness :
  exists tl st w',
    timeline 0 someActor (mkConfig fadeOut) = inr (tl, 1%nat) /\
    getActorStateAtTime idleHost 0 [] tl 250 None world0 = Some (st, w') /\
    s_position st = mkPoint 50 50.
Proof.
  destruct (timeline_nonempty 0 someActor fadeOut ltac:(discriminate))
    as (first & rest & Hsort & Htl).
  assert (Hnone : forall kf, In kf fadeOut -> position kf = None).
  { intros kf [<-|[<-|[]]]; reflexivity. }
  assert (Hpath : forall kf, In kf (filledFirst someActor first :: rest) ->
                             pathD kf = None).
  { intros kf [<-|Hkf]; [reflexivity|].
    assert (Hin : In kf fadeOut).
    { apply (Permutation_in kf (Permutation_sym (sortByAt_perm fadeOut))).
      rewrite Hsort. now right. }
    destruct Hin as [<-|[<-|[]]]; reflexivity. }
  destruct (interpolateKeyframes_returns idleHost 0 []
              (filledFirst someActor first :: rest) 250
              (Some (mkOptions None (Some (id someActor)))) world0
              ltac:(split; reflexivity) Hpath) as (st & w' & Hrun).
  eexists _, st, w'. split; [exact Htl|]. split; [exact Hrun|].
  exact (timeline_rests_at_origin idleHost 0 0 [] someActor fadeOut _ 1%nat
           250 None world0 w' st Htl Hnone ltac:(split; reflexivity) Hrun).
Defined.

Lemma timelineId_inj (a b : Actor) (n m : nat) :
  timelineId a n = timelineId b m -> n = m.
Proof.
  unfold timelineId. cbn [String.append]. intro H. injection H as H.
  apply decimal_inj.
  apply (split_last "-" (id a) (id b)); auto using decimal_lacks_dash.
Qed.

(** X20. Timelines built one after the other, the counter passed on,
    have different ids, whatever the actors, and each call advances the
    counter by exactly one. *)
Theorem timeline_ids_distinct (n : nat) (a b : Actor)
  (ca cb : TimelineConfig) (ta tb : Timeline) (n1 n2 : nat) :
  timeline n a ca = inr (ta, n1) ->
  timeline n1 b cb = inr (tb, n2) ->
  tl_id ta <> tl_id tb /\ n1 = Datatypes.S n /\ n2 = Datatypes.S n1.
Proof.
  unfold timeline. cbv zeta.
  destruct (cfg_keyframes ca) as [|ka ra]; [discriminate|].
  destruct (cfg_keyframes cb) as [|kb rb]; [discriminate|].
  intros [= <- <-] [= <- <-]. cbn [tl_id].
  split; [| split; reflexivity]. intro E. apply timelineId_inj in E. lia.
Qed.

Lemma timeline_ids_distinct_witness :
  exists ta tb,
    timeline 0 someActor (mkConfig fadeOut) = inr (ta, 1%nat) /\
    timeline 1 someActor (mkConfig fadeOut) = inr (tb, 2%nat) /\
    tl_id ta <> tl_id tb.
Proof.
  destruct (timeline_nonempty 0 someActor fadeOut ltac:(discriminate))
    as (f1 & r1 & _ & H1).
  destruct (timeline_nonempty 1 someActor fadeOut ltac:(discriminate))
    as (f2 & r2 & _ & H2).
  eexists _, _. split; [exact H1|]. split; [exact H2|].
  exact (proj1 (timeline_ids_distinct 0 someActor someActor (mkConfig fadeOut)
                  (mkConfig fadeOut) _ _ 1%nat 2%nat H1 H2)).
Defined.

End TimelineUse.

(* ------------------------------------------------------------------ *)
(** ** Sequences and staggers *)

Module SequenceFacts.
Import TimelineCtor TimelineFacts Sequence.

(** The keyframes that the loop of [sequence] lays out from a cursor. *)
Fixpoint laidOut (cursor : R) (its : list SequenceItem) : list Keyframe :=
  match its with
  | [] => []
  | it :: rest =>
      let start := orElse (offset it) cursor + orElse (delay it) 0 in
      map (shifted start) (keyframes (item_timeline it))
      ++ laidOut (start + duration (item_timeline it)) rest
  end.

Lemma sequenceStep_fold (its : list SequenceItem) :
  forall cursor acc,
    snd (fold_left sequenceStep its (cursor, acc))
    = acc ++ laidOut cursor its.
Proof.
  induction its as [|it rest IH]; intros cursor acc; cbn [fold_left laidOut].
  - now rewrite app_nil_r.
  - unfold sequenceStep at 2. cbv zeta. rewrite IH, <- app_assoc.
    reflexivity.
Qed.

Lemma sequence_laidOut (n : nat) (actor : Actor) (its : list SequenceItem) :
  sequence n actor (mkSequenceConfig its)
  = timeline n actor (mkConfig (laidOut 0 its)).
Proof.
  unfold sequence. cbn [items].
  pose proof (sequenceStep_fold its 0 []) as H.
  destruct (fold_left sequenceStep its (0, [])) as [c all].
  cbn [snd] in H. rewrite H. reflexivity.
Qed.

(** What an item takes of the sequence: its delay and its duration. *)
Definition span (it : SequenceItem) : R :=
  orElse (delay it) 0 + duration (item_timeline it).

Definition totalSpan (its : list SequenceItem) : R :=
  fold_right (fun it acc => span it + acc) 0 its.

(** A timeline whose duration is its greatest keyframe time, as the
    constructor builds it, and is not negative. *)
Definition wellTimed (tl : Timeline) : Prop :=
  In (duration tl) (map kf_at (keyframes tl)) /\
  Forall (fun kf => kf_at kf <= duration tl) (keyframes tl) /\
  0 <= duration tl.

(** An item that follows the one before it. *)
Definition chained (it : SequenceItem) : Prop :=
  offset it = None /\ 0 <= orElse (delay it) 0 /\
  wellTimed (item_timeline it).

Lemma totalSpan_nonneg (its : list SequenceItem) :
  Forall chained its -> 0 <= totalSpan its.
Proof.
  induction 1 as [|it rest (_ & Hd & _ & _ & Hdur) _ IH].
  - unfold totalSpan. cbn [fold_right]. lra.
  - change (totalSpan (it :: rest)) with (span it + totalSpan rest).
    unfold span at 1. lra.
Qed.

Lemma laidOut_bound (its : list SequenceItem) :
  Forall chained its ->
  forall cursor kf, In kf (laidOut cursor its) ->
                    kf_at kf <= cursor + totalSpan its.
Proof.
  induction 1 as [|it rest Hit Hrest IH]; intros cursor kf Hin;
    [contradiction|].
  pose proof (totalSpan_nonneg rest Hrest) as Hpos.
  destruct Hit as (Hoff & Hd & _ & Hall & Hdur).
  cbn [laidOut totalSpan fold_right] in *. fold (totalSpan rest).
  rewrite Hoff in *. cbn [orElse] in *. unfold span.
  apply in_app_or in Hin. destruct Hin as [Hin|Hin].
  - apply in_map_iff in Hin. destruct Hin as (k & <- & Hk).
    rewrite Forall_forall in Hall. specialize (Hall k Hk).
    cbn [shifted kf_at]. lra.
  - specialize (IH _ _ Hin). lra.
Qed.

Lemma laidOut_attained (its : list SequenceItem) :
  Forall chained its -> its <> [] ->
  forall cursor, In (cursor + totalSpan its) (map kf_at (laidOut cursor its)).
Proof.
  induction 1 as [|it rest Hit Hrest IH]; intros Hne cursor;
    [contradiction|].
  destruct Hit as (Hoff & Hd & Hlast & _ & _).
  cbn [laidOut totalSpan fold_right]. fold (totalSpan rest).
  rewrite Hoff. cbn [orElse]. rewrite map_app. apply in_or_app.
  destruct rest as [|it' rest'].
  - left. cbn [totalSpan fold_right]. rewrite map_map.
    apply in_map_iff in Hlast. destruct Hlast as (k & Hk & Hin).
    apply in_map_iff. exists k. split; [|exact Hin].
    cbn [shifted kf_at]. unfold span. lra.
  - right.
    replace (cursor + (span it + totalSpan (it' :: rest')))
      with ((cursor + orElse (delay it) 0 + duration (item_timeline it))
            + totalSpan (it' :: rest')) by (unfold span; lra).
    apply IH. discriminate.
Qed.

Lemma timeline_duration_greatest (n : nat) (actor : Actor)
  (kfs : list Keyframe) (top : R) :
  In top (map kf_at kfs) ->
  (forall kf, In kf kfs -> kf_at kf <= top) ->
  exists tl,
    timeline n actor (mkConfig kfs) = inr (tl, Datatypes.S n) /\
    duration tl = top /\ tl_actorId tl = id actor.
Proof.
  intros Htop Hall.
  assert (Hne : kfs <> []) by (destruct kfs; [contradiction | discriminate]).
  destruct (timeline_nonempty n actor kfs Hne) as (first & rest & Hs & Heq).
  eexists. split; [exact Heq|].
  destruct (timeline_sorted n actor kfs _ _ Heq)
    as (Hmap & _ & Hle & Hin).
  split; [|reflexivity].
  apply Rle_antisym.
  - apply in_map_iff in Hin. destruct Hin as (k & <- & Hk). now apply Hall.
  - assert (Hin' : In top (map kf_at (sortByAt kfs))).
    { apply (Permutation_in top
               (Permutation_map kf_at (sortByAt_perm kfs)) Htop). }
    rewrite <- Hmap in Hin'.
    apply in_map_iff in Hin'. destruct Hin' as (k & <- & Hk).
    rewrite Forall_forall in Hle. now apply Hle.
Qed.

(** X21. Items that give no offset follow one another: the sequence of
    such items, each with a timeline whose duration is its greatest
    keyframe time, lasts as long as all their delays and durations
    together. *)
Theorem sequence_chains (n : nat) (actor : Actor)
  (its : list SequenceItem) :
  its <> [] -> Forall chained its ->
  exists tl,
    sequence n actor (mkSequenceConfig its) = inr (tl, Datatypes.S n) /\
    duration tl = totalSpan its /\
    tl_actorId tl = id actor.
Proof.
  intros Hne Hall. rewrite sequence_laidOut.
  apply timeline_duration_greatest.
  - pose proof (laidOut_attained its Hall Hne 0) as H.
    now rewrite Rplus_0_l in H.
  - intros kf Hin. pose proof (laidOut_bound its Hall 0 kf Hin). lra.
Qed.


Definition fadeInTimeline : Timeline :=
  mkTimeline "tl-a-1" "a"
    [ mkKeyframe 0 None None None (Some 0) None None None None None None
        None None None None;
      mkKeyframe 500 None None None (Some 1) None None None None None None
        None None None None ] 500.

Definition slideTimeline : Timeline :=
  mkTimeline "tl-a-2" "a"
    [ mkKeyframe 0 (Some (mkPoint 0 0)) None None None None None None None
        None None None None None None;
      mkKeyframe 700 (Some (mkPoint 10 0)) None None None None None None
        None None None None None None None ] 700.

Definition fadeThenSlide : list SequenceItem :=
  [mkItem fadeInTimeline None None; mkItem slideTimeline None (Some 100)].

Lemma fadeThenSlide_chained : Forall chained fadeThenSlide.
Proof.
  unfold fadeThenSlide, chained, wellTimed.
  constructor; [|constructor; [|constructor]];
    cbn [offset delay item_timeline orElse fadeInTimeline slideTimeline
         duration keyframes map kf_at];
    (split; [reflexivity|]; split; [lra|]; split; [right; left; reflexivity|]);
    (split; [|lra]); repeat constructor; cbn [kf_at]; lra.
Qed.

Lemma sequence_chains_witness :
  exists tl,
    sequence 0 someActor (mkSequenceConfig fadeThenSlide)
      = inr (tl, 1%nat) /\
    duration tl = totalSpan fadeThenSlide /\
    tl_actorId tl = id someActor.
Proof.
  apply sequence_chains; [discriminate | exact fadeThenSlide_chained].
Defined.

Lemma laidOut_empty (its : list SequenceItem) :
  forall cursor,
    laidOut cursor its = [] <->
    Forall (fun it => keyframes (item_timeline it) = []) its.
Proof.
  induction its as [|it rest IH]; intro cursor; cbn [laidOut].
  - split; [constructor | reflexivity].
  - split.
    + intro H. apply app_eq_nil in H. destruct H as [H1 H2].
      constructor.
      * destruct (keyframes (item_timeline it)); [reflexivity|discriminate].
      * now apply IH in H2.
    + intro H. inversion H as [|? ? H1 H2]; subst.
      rewrite H1. cbn [map app]. now apply IH.
Qed.

Lemma timeline_fails_iff (n : nat) (actor : Actor) (kfs : list Keyframe) :
  (exists e, timeline n actor (mkConfig kfs) = inl e) <-> kfs = [].
Proof.
  split.
  - intros [e H]. destruct kfs; [reflexivity|]. discriminate.
  - intros ->. eexists. reflexivity.
Qed.

Lemma staggerFrom_fails (n : nat) (order : list R) (s : R) (i : nat)
  (rest : list Actor) :
  (exists e, staggerFrom n order s [] i rest = inl e) <-> rest <> [].
Proof.
  split.
  - intros [e H]. destruct rest; [discriminate | discriminate].
  - intro H. destruct rest as [|a rest']; [contradiction|].
    eexists. reflexivity.
Qed.

Lemma staggerFrom_returns (kfs : list Keyframe) (order : list R) (s : R) :
  kfs <> [] ->
  forall rest n i,
    exists tls, staggerFrom n order s kfs i rest
                = inr (tls, (n + List.length rest)%nat).
Proof.
  intros Hne. induction rest as [|a rest' IH]; intros n i; cbn [staggerFrom].
  - rewrite Nat.add_0_r. eauto.
  - cbv zeta.
    destruct (timeline_nonempty n a (map (shifted (nth i order 0 * s)) kfs))
      as (first & tail & _ & ->).
    { destruct kfs; [contradiction | discriminate]. }
    destruct (IH (Datatypes.S n) (Datatypes.S i)) as [tls ->].
    cbn [List.length]. rewrite Nat.add_succ_r. eauto.
Qed.

(** X22. [sequence] throws exactly when its items hold no keyframe at
    all, and [stagger] exactly when the template is empty and there is
    an actor; the error names the actor of the call that failed. *)
Theorem empty_input_throws :
  (forall n actor its,
      (exists e, sequence n actor (mkSequenceConfig its) = inl e)
      <-> Forall (fun it => keyframes (item_timeline it) = []) its) /\
  (forall n actor its e,
      sequence n actor (mkSequenceConfig its) = inl e ->
      e = NeedsKeyframe (id actor)) /\
  (forall n cfg,
      (exists e, stagger n cfg = inl e)
      <-> sg_keyframes cfg = [] /\ actors cfg <> []) /\
  (forall n cfg e,
      stagger n cfg = inl e ->
      exists a rest, actors cfg = a :: rest /\ e = NeedsKeyframe (id a)).
Proof.
  split; [|split; [|split]].
  - intros n actor its. rewrite sequence_laidOut, timeline_fails_iff.
    apply laidOut_empty.
  - intros n actor its e. rewrite sequence_laidOut. unfold timeline.
    destruct (cfg_keyframes (mkConfig (laidOut 0 its)));
      [now intros [= <-] | discriminate].
  - intros n cfg. unfold stagger. cbv zeta.
    destruct (sg_keyframes cfg) as [|k ks] eqn:Hk.
    + rewrite staggerFrom_fails. tauto.
    + split.
      * intros [e He].
        destruct (staggerFrom_returns (k :: ks)
                    (computeStaggerOrder (List.length (actors cfg))
                       (orElse (from cfg) fromStart))
                    (stagger_ cfg) ltac:(discriminate)
                    (actors cfg) n 0%nat) as [tls Htls].
        rewrite Htls in He. discriminate.
      * intros [H _]. discriminate.
  - intros n cfg e. unfold stagger. cbv zeta.
    destruct (sg_keyframes cfg) as [|k ks] eqn:Hk.
    + destruct (actors cfg) as [|a rest]; [discriminate|].
      cbn [staggerFrom map]. unfold timeline. cbn [cfg_keyframes].
      intros [= <-]. eauto.
    + intro He.
      destruct (staggerFrom_returns (k :: ks)
                  (computeStaggerOrder (List.length (actors cfg))
                     (orElse (from cfg) fromStart))
                  (stagger_ cfg) ltac:(discriminate)
                  (actors cfg) n 0%nat) as [tls Htls].
      rewrite Htls in He. discriminate.
Qed.

Lemma empty_input_throws_witness :
  (exists e, sequence 0 someActor (mkSequenceConfig []) = inl e)
  <-> Forall (fun it => keyframes (item_timeline it) = [])
        (@nil SequenceItem).
Proof. exact (proj1 empty_input_throws 0%nat someActor []). Defined.

Lemma shifted_bound (d top : R) (kfs : list Keyframe) :
  In top (map kf_at kfs) ->
  (forall kf, In kf kfs -> kf_at kf <= top) ->
  In (top + d) (map kf_at (map (shifted d) kfs)) /\
  (forall kf, In kf (map (shifted d) kfs) -> kf_at kf <= top + d).
Proof.
  intros Htop Hall. split.
  - rewrite map_map. apply in_map_iff in Htop.
    destruct Htop as (k & <- & Hk). apply in_map_iff. now exists k.
  - intros kf Hin. apply in_map_iff in Hin.
    destruct Hin as (k & <- & Hk). cbn [shifted kf_at].
    specialize (Hall k Hk). lra.
Qed.

Lemma staggerFrom_durations (kfs : list Keyframe) (order : list R)
  (s top : R) :
  In top (map kf_at kfs) ->
  (forall kf, In kf kfs -> kf_at kf <= top) ->
  forall rest n i,
    exists tls,
      staggerFrom n order s kfs i rest
        = inr (tls, (n + List.length rest)%nat) /\
      map tl_actorId tls = map id rest /\
      map duration tls
        = map (fun j => top + nth j order 0 * s)
            (seq i (List.length rest)).
Proof.
  intros Htop Hall.
  induction rest as [|a rest' IH]; intros n i; cbn [staggerFrom].
  - rewrite Nat.add_0_r. exists []. repeat split; reflexivity.
  - cbv zeta.
    destruct (shifted_bound (nth i order 0 * s) top kfs Htop Hall)
      as [Hin Hle].
    destruct (timeline_duration_greatest n a
                (map (shifted (nth i order 0 * s)) kfs) _ Hin Hle)
      as (tl & -> & Hdur & Hid).
    destruct (IH (Datatypes.S n) (Datatypes.S i)) as (tls & -> & Hids & Hds).
    exists (tl :: tls). cbn [List.length map seq].
    rewrite Nat.add_succ_r, Hdur, Hid, Hids, Hds. repeat split; reflexivity.
Qed.

(** X23. With a template that has keyframes, [stagger] returns one
    timeline per actor, in the order of the actors and each for its
    actor; the timeline of actor [i] ends at the template's greatest
    time plus [order[i]] times the stagger delay. *)
Theorem stagger_timelines (n : nat) (cfg : StaggerConfig) (top : R) :
  In top (map kf_at (sg_keyframes cfg)) ->
  (forall kf, In kf (sg_keyframes cfg) -> kf_at kf <= top) ->
  exists tls,
    stagger n cfg = inr (tls, (n + List.length (actors cfg))%nat) /\
    map tl_actorId tls = map id (actors cfg) /\
    map duration tls
      = map (fun m => top + m * stagger_ cfg)
          (computeStaggerOrder (List.length (actors cfg))
             (orElse (from cfg) fromStart)).
Proof.
  intros Htop Hall. unfold stagger. cbv zeta.
  set (order := computeStaggerOrder (List.length (actors cfg))
                  (orElse (from cfg) fromStart)).
  destruct (staggerFrom_durations (sg_keyframes cfg) order (stagger_ cfg)
              top Htop Hall (actors cfg) n 0%nat) as (tls & Hrun & Hids & Hds).
  exists tls. split; [exact Hrun|]. split; [exact Hids|].
  rewrite Hds.
  assert (Hlen : List.length order = List.length (actors cfg)).
  { unfold order, computeStaggerOrder.
    destruct (orElse (from cfg) fromStart); cbv zeta;
      now rewrite length_map, length_seq. }
  rewrite <- Hlen. clear. 
  induction order as [|m rest IH] using rev_ind; [reflexivity|].
  rewrite length_app, Nat.add_comm. cbn [List.length Nat.add].
  rewrite seq_S, !map_app. cbn [map Nat.add].
  rewrite app_nth2, Nat.sub_diag by lia. cbn [nth].
  f_equal. rewrite <- IH. apply map_ext_in.
  intros j Hj. apply in_seq in Hj. rewrite app_nth1 by lia. reflexivity.
Qed.


Definition cardTemplate : list Keyframe :=
  [ mkKeyframe 0 None None None (Some 0) None None None None None None
      None None None None;
    mkKeyframe 400 None None None (Some 1) None None None None None None
      None None None (Some (EasingNamed "easeOutCubic")) ].

Definition cards : StaggerConfig :=
  mkStaggerConfig [someActor; someActor; someActor; someActor]
    cardTemplate 100 (Some fromStart).

Lemma stagger_timelines_witness :
  exists tls,
    stagger 0 cards = inr (tls, (0 + List.length (actors cards))%nat) /\
    map tl_actorId tls = map id (actors cards) /\
    map duration tls
      = map (fun m => 400 + m * stagger_ cards)
          (computeStaggerOrder (List.length (actors cards))
             (orElse (from cards) fromStart)).
Proof.
  apply (stagger_timelines 0 cards 400).
  - right. left. reflexivity.
  - intros kf [<-|[<-|[]]]; cbn [kf_at]; lra.
Defined.

Lemma order_nth (n i : nat) (f : nat -> R) :
  (i < n)%nat -> nth i (map f (seq 0 n)) 0 = f i.
Proof.
  intro Hi. rewrite (nth_indep _ 0 (f 0%nat))
    by (now rewrite length_map, length_seq).
  rewrite map_nth, seq_nth by exact Hi. reflexivity.
Qed.

(** X24. The delay multipliers: there is one for each actor; from the
    end they are those from the start read backwards; from the centre
    and from the edges they are symmetric and add up to half of
    [n - 1]; none is negative and none exceeds [n - 1]. *)
Theorem staggerOrder_multipliers (n i : nat) (from : StaggerFrom) :
  (i < n)%nat ->
  let at_ (f : StaggerFrom) (j : nat) := nth j (computeStaggerOrder n f) 0 in
  List.length (computeStaggerOrder n from) = n /\
  at_ fromStart i = INR i /\
  at_ fromEnd i = at_ fromStart (n - 1 - i)%nat /\
  at_ fromCenter i + at_ fromEdges i = (INR n - 1) / 2 /\
  at_ fromCenter (n - 1 - i)%nat = at_ fromCenter i /\
  at_ fromEdges (n - 1 - i)%nat = at_ fromEdges i /\
  0 <= at_ from i <= INR n - 1.
Proof.
  intros Hi at_.
  assert (Hj : (n - 1 - i < n)%nat) by lia.
  assert (Hin : INR i <= INR n - 1).
  { replace (INR n - 1) with (INR (n - 1)).
    - apply le_INR. lia.
    - rewrite minus_INR by lia. reflexivity. }
  assert (Hi0 : 0 <= INR i) by apply pos_INR.
  assert (Hmirror : INR (n - 1 - i) = INR n - 1 - INR i).
  { rewrite !minus_INR by lia. reflexivity. }
  assert (Hlen : List.length (computeStaggerOrder n from) = n).
  { unfold computeStaggerOrder. destruct from; cbv zeta;
      now rewrite length_map, length_seq. }
  unfold at_, computeStaggerOrder. cbv zeta.
  rewrite !order_nth by assumption. rewrite Hmirror.
  split; [exact Hlen|]. split; [reflexivity|]. split; [reflexivity|].
  split; [lra|]. split.
  { replace (INR n - 1 - INR i - (INR n - 1) / 2)
      with (- (INR i - (INR n - 1) / 2)) by lra.
    apply Rabs_Ropp. }
  split.
  { replace (INR n - 1 - INR i - (INR n - 1) / 2)
      with (- (INR i - (INR n - 1) / 2)) by lra.
    now rewrite Rabs_Ropp. }
  assert (Habs : Rabs (INR i - (INR n - 1) / 2) <= (INR n - 1) / 2).
  { apply Rabs_le. lra. }
  pose proof (Rabs_pos (INR i - (INR n - 1) / 2)) as Hpos.
  destruct from; rewrite order_nth by assumption; lra.
Qed.

Lemma staggerOrder_multipliers_witness :
  List.length (computeStaggerOrder 4 fromEdges) = 4%nat /\
  nth 1 (computeStaggerOrder 4 fromStart) 0 = INR 1 /\
  nth 1 (computeStaggerOrder 4 fromEnd) 0
    = nth (4 - 1 - 1) (computeStaggerOrder 4 fromStart) 0 /\
  nth 1 (computeStaggerOrder 4 fromCenter) 0
    + nth 1 (computeStaggerOrder 4 fromEdges) 0 = (INR 4 - 1) / 2 /\
  nth (4 - 1 - 1) (computeStaggerOrder 4 fromCenter) 0
    = nth 1 (computeStaggerOrder 4 fromCenter) 0 /\
  nth (4 - 1 - 1) (computeStaggerOrder 4 fromEdges) 0
    = nth 1 (computeStaggerOrder 4 fromEdges) 0 /\
  0 <= nth 1 (computeStaggerOrder 4 fromEdges) 0 <= INR 4 - 1.
Proof. apply (staggerOrder_multipliers 4 1 fromEdges). lia. Defined.

Lemma fold_Rmax_bounds (l : list R) :
  forall acc,
    acc <= fold_left Rmax l acc /\
    Forall (fun d => d <= fold_left Rmax l acc) l /\
    (fold_left Rmax l acc = acc \/ In (fold_left Rmax l acc) l).
Proof.
  induction l as [|d rest IH]; intro acc; cbn [fold_left].
  - repeat split; [lra | constructor | now left].
  - destruct (IH (Rmax acc d)) as (Hge & Hall & Hin).
    pose proof (Rmax_l acc d). pose proof (Rmax_r acc d).
    split; [lra|]. split; [constructor; [lra | exact Hall]|].
    destruct Hin as [Heq|Hin]; [|right; now right].
    rewrite Heq. unfold Rmax. destruct (Rle_dec acc d);
      [right; now left | now left].
Qed.

(** X25. The parallel duration is never negative, is at least the
    duration of every timeline, and is 0 or the duration of one of
    them. *)
Theorem parallelDuration_bounds (timelines : list Timeline) :
  0 <= parallelDuration timelines /\
  Forall (fun tl => duration tl <= parallelDuration timelines) timelines /\
  (parallelDuration timelines = 0 \/
   exists tl, In tl timelines /\ duration tl = parallelDuration timelines).
Proof.
  unfold parallelDuration.
  destruct (fold_Rmax_bounds (map duration timelines) 0)
    as (Hge & Hall & Hin).
  split; [exact Hge|]. split.
  - rewrite Forall_map in Hall. exact Hall.
  - destruct Hin as [Heq|Hin]; [now left|]. right.
    apply in_map_iff in Hin. destruct Hin as (tl & Hd & Hin). eauto.
Qed.

End SequenceFacts.

(* ------------------------------------------------------------------ *)
(** ** The plugin registry *)

Module PluginManagerFacts.
Import PluginManager.

Inductive Op :=
| Register (p : Plugin)
| Unregister (name : string)
| Clear.

Definition act (m : Manager) (op : Op) : Manager :=
  match op with
  | Register p => register p m
  | Unregister name => unregister name m
  | Clear => clear m
  end.

Definition after (ops : list Op) : Manager := fold_left act ops empty.

(** The registry as a map from names, written by the operations in
    turn. *)
Definition written (name : string) (prev : option Plugin) (op : Op)
  : option Plugin :=
  match op with
  | Register p => if String.eqb (pluginName p) name then Some p else prev
  | Unregister n => if String.eqb n name then None else prev
  | Clear => None
  end.

Definition specGet (ops : list Op) (name : string) : option Plugin :=
  fold_left (written name) ops None.

Definition others (name : string) (l : list Plugin) : list Plugin :=
  filter (fun p => negb (String.eqb (pluginName p) name)) l.

Lemma findIndex_none (name : string) (l : list Plugin) :
  forall i, findIndex name l i = None -> others name l = l.
Proof.
  induction l as [|p rest IH]; intros i H; [reflexivity|].
  cbn [findIndex] in H. unfold others. cbn [filter].
  destruct (String.eqb (pluginName p) name); [discriminate|].
  cbn [negb]. f_equal. exact (IH _ H).
Qed.

Lemma others_absent (name : string) (l : list Plugin) :
  ~ In name (map pluginName l) -> others name l = l.
Proof.
  induction l as [|p rest IH]; intro H; [reflexivity|].
  unfold others. cbn [filter map] in *.
  destruct (String.eqb_spec (pluginName p) name) as [E|E].
  - exfalso. apply H. now left.
  - cbn [negb]. f_equal. apply IH. intro Hin. apply H. now right.
Qed.

(** Splicing out the first plugin of a name, when names are unique,
    leaves the plugins of every other name, in their order. *)
Lemma splice_others (name : string) (l : list Plugin) :
  NoDup (map pluginName l) ->
  forall i idx,
    findIndex name l i = Some idx ->
    exists p,
      nth_error l (idx - i) = Some p /\ pluginName p = name /\
      (i <= idx)%nat /\
      firstn (idx - i) l ++ skipn (S (idx - i)) l = others name l.
Proof.
  induction l as [|q rest IH]; intros Hnd i idx H; [discriminate|].
  cbn [findIndex] in H. cbn [map] in Hnd.
  apply NoDup_cons_iff in Hnd. destruct Hnd as [Hq Hnd].
  unfold others. cbn [filter].
  destruct (String.eqb_spec (pluginName q) name) as [E|E].
  - injection H as <-. rewrite Nat.sub_diag. exists q.
    cbn [nth_error firstn skipn app negb].
    repeat split; try assumption; try lia.
    symmetry. apply others_absent. now rewrite <- E.
  - destruct (IH Hnd _ _ H) as (p & Hp & Hname & Hle & Heq).
    exists p. replace (idx - i)%nat with (S (idx - S i)) by lia.
    cbn [nth_error firstn skipn app negb].
    repeat split; try assumption; try lia.
    f_equal. exact Heq.
Qed.

Lemma unregister_others (name : string) (m : Manager) :
  NoDup (map pluginName (_plugins m)) ->
  _plugins (unregister name m) = others name (_plugins m).
Proof.
  intro Hnd. unfold unregister.
  destruct (findIndex name (_plugins m) 0) as [idx|] eqn:E.
  - destruct (splice_others name (_plugins m) Hnd 0 idx E)
      as (p & Hp & _ & _ & Heq).
    rewrite Nat.sub_0_r in Hp, Heq. rewrite Hp. exact Heq.
  - symmetry. exact (findIndex_none _ _ _ E).
Qed.

Lemma others_names (name : string) (l : list Plugin) :
  NoDup (map pluginName l) ->
  NoDup (map pluginName (others name l)) /\
  ~ In name (map pluginName (others name l)).
Proof.
  induction l as [|p rest IH]; cbn [map]; intro Hnd.
  - split; [constructor | intros []].
  - apply NoDup_cons_iff in Hnd. destruct Hnd as [Hp Hnd].
    destruct (IH Hnd) as [IH1 IH2].
    unfold others in *. cbn [filter].
    destruct (String.eqb_spec (pluginName p) name) as [E|E]; cbn [negb].
    + split; assumption.
    + cbn [map]. split.
      * constructor; [|exact IH1].
        intro Hin. apply Hp. apply in_map_iff in Hin.
        destruct Hin as (q & Hq & Hin). apply filter_In in Hin.
        apply in_map_iff. exists q. tauto.
      * intros [H|H]; [now apply E | now apply IH2].
Qed.

Lemma existsb_absent (name : string) (l : list Plugin) :
  existsb (fun p => String.eqb (pluginName p) name) l = false ->
  ~ In name (map pluginName l).
Proof.
  induction l as [|p rest IH]; cbn [existsb map]; [intros _ []|].
  destruct (String.eqb_spec (pluginName p) name) as [E|E]; [discriminate|].
  cbn [orb]. intros H [Hin|Hin]; [now apply E | now apply IH].
Qed.

Lemma register_others (p : Plugin) (m : Manager) :
  NoDup (map pluginName (_plugins m)) ->
  _plugins (register p m) = others (pluginName p) (_plugins m) ++ [p].
Proof.
  intro Hnd. unfold register. cbv zeta.
  destruct (existsb _ (_plugins m)) eqn:E; cbn [_plugins].
  - rewrite unregister_others by exact Hnd. reflexivity.
  - rewrite others_absent by (now apply existsb_absent). reflexivity.
Qed.

Lemma find_others (name n : string) (l : list Plugin) :
  find (fun p => String.eqb (pluginName p) name) (others n l)
  = if String.eqb n name then None
    else find (fun p => String.eqb (pluginName p) name) l.
Proof.
  induction l as [|p rest IH]; [now destruct (String.eqb n name)|].
  unfold others in *. cbn [filter find].
  destruct (String.eqb_spec (pluginName p) n) as [E|E]; cbn [negb].
  - rewrite IH. destruct (String.eqb_spec n name) as [E'|E'];
      [reflexivity|].
    destruct (String.eqb_spec (pluginName p) name) as [E2|E2];
      [congruence | reflexivity].
  - cbn [find]. rewrite IH.
    destruct (String.eqb_spec (pluginName p) name) as [E2|E2];
      [|reflexivity].
    destruct (String.eqb_spec n name) as [E'|E']; [congruence|reflexivity].
Qed.

Lemma find_last (name : string) (l : list Plugin) (p : Plugin) :
  ~ In (pluginName p) (map pluginName l) ->
  find (fun q => String.eqb (pluginName q) name) (l ++ [p])
  = if String.eqb (pluginName p) name then Some p
    else find (fun q => String.eqb (pluginName q) name) l.
Proof.
  induction l as [|q rest IH]; cbn [app find map]; intro H.
  - destruct (String.eqb (pluginName p) name); reflexivity.
  - destruct (String.eqb_spec (pluginName q) name) as [E|E].
    + destruct (String.eqb_spec (pluginName p) name) as [E'|E'];
        [|reflexivity].
      exfalso. apply H. left. congruence.
    + apply IH. intro Hin. apply H. now right.
Qed.

Lemma after_snoc (ops : list Op) (op : Op) :
  after (ops ++ [op]) = act (after ops) op.
Proof. unfold after. now rewrite fold_left_app. Qed.

Lemma registry_invariant (ops : list Op) :
  NoDup (map pluginName (_plugins (after ops))) /\
  forall name, getPlugin name (after ops) = specGet ops name.
Proof.
  induction ops as [|op ops IH] using rev_ind.
  - split; [constructor | reflexivity].
  - destruct IH as [Hnd Hget]. rewrite after_snoc.
    unfold specGet. setoid_rewrite fold_left_app. cbn [fold_left].
    fold (specGet ops). unfold getPlugin in *.
    destruct op as [p|n|]; cbn [act written].
    + rewrite register_others by exact Hnd.
      destruct (others_names (pluginName p) _ Hnd) as [H1 H2].
      split.
      * rewrite map_app. cbn [map].
        apply (Permutation_NoDup (l := pluginName p
                 :: map pluginName (others (pluginName p)
                                      (_plugins (after ops))))).
        { apply Permutation_cons_append. }
        constructor; assumption.
      * intro name. rewrite find_last by exact H2.
        rewrite find_others, Hget.
        destruct (String.eqb (pluginName p) name); reflexivity.
    + rewrite unregister_others by exact Hnd.
      split; [apply others_names; exact Hnd|].
      intro name. rewrite find_others, Hget. reflexivity.
    + split; [constructor | reflexivity].
Qed.

(** X26. Whatever is registered, unregistered and cleared, in whatever
    order, the manager never holds two plugins of one name, and
    [getPlugin] answers as a map would in which every registration
    overwrites the name and every removal deletes it; a registration
    puts its plugin last in the list, behind the plugins of all other
    names, whose order it keeps. *)
Theorem registry_is_map (ops : list Op) :
  NoDup (map pluginName (_plugins (after ops))) /\
  (forall name, getPlugin name (after ops) = specGet ops name) /\
  (forall p,
      _plugins (register p (after ops))
      = others (pluginName p) (_plugins (after ops)) ++ [p]).
Proof.
  destruct (registry_invariant ops) as [Hnd Hget].
  split; [exact Hnd|]. split; [exact Hget|].
  intro p. now apply register_others.
Qed.

End PluginManagerFacts.

(* ------------------------------------------------------------------ *)
(** ** The cursor of a controller *)

Module CursorFacts.
Import Playback PlaybackFacts.

Section Range.
Variable host : Host.
Variable fuel : nat.
Variable plugins : list Interpolate.MotionSvgPlugin.
Variable k : Consts.

(** What the range invariant reads of a machine: the cursor, the total
    duration and the updates handed out. *)
Definition gist (m : Machine)
  : R * R * list (Interpolate.ActorState * R) :=
  (currentTime (fst m), _totalDuration (fst m), updates (snd m)).

Definition inRange (g : R * R * list (Interpolate.ActorState * R)) : Prop :=
  let '(time, total, ups) := g in
  0 < total /\ 0 <= time <= total /\
  Forall (fun u => 0 <= snd u <= duration (tl k)) ups.

Lemma gist_emit ty i m : gist (emit ty i m) = gist m.
Proof. destruct m; reflexivity. Qed.

Lemma gist_onComplete m : gist (onComplete m) = gist m.
Proof. destruct m; reflexivity. Qed.

Lemma gist_requestFrame m : gist (requestFrame m) = gist m.
Proof. destruct m; reflexivity. Qed.

Lemma gist_cancelFrame m : gist (cancelFrame m) = gist m.
Proof. destruct m as [v e]. unfold cancelFrame. destruct (rafId v); reflexivity. Qed.

Lemma gist_setTimer d m : gist (setTimer d m) = gist m.
Proof. destruct m; reflexivity. Qed.

Lemma gist_upd f m :
  gist (upd f m)
  = (currentTime (f (fst m)), _totalDuration (f (fst m)), updates (snd m)).
Proof. destruct m; reflexivity. Qed.

Lemma gist_emitUpdate t m m' :
  emitUpdate host fuel plugins k t m = Some m' ->
  exists st,
    gist m' = (currentTime (fst m), _totalDuration (fst m),
               updates (snd m) ++ [(st, t)]).
Proof.
  destruct m as [v e]. unfold emitUpdate.
  destruct (Interpolate.getActorStateAtTime _ _ _ _ _ _ _) as [[st w]|];
    [|discriminate].
  intros [= <-]. exists st. reflexivity.
Qed.

Lemma gist_countIteration m :
  gist (fst (countIteration k m)) = gist m.
Proof.
  unfold countIteration. cbv zeta.
  destruct (budgetSpent k _); cbn [fst];
    rewrite ?gist_onComplete, ?gist_emit, ?gist_upd, ?gist_emit;
    destruct m; reflexivity.
Qed.


Lemma fst_upd (f : Vars -> Vars) (m : Machine) : fst (upd f m) = f (fst m).
Proof. destruct m; reflexivity. Qed.

Lemma snd_upd (f : Vars -> Vars) (m : Machine) : snd (upd f m) = snd m.
Proof. destruct m; reflexivity. Qed.

Ltac gist_crunch :=
  repeat rewrite ?gist_emit, ?gist_onComplete, ?gist_requestFrame,
    ?gist_cancelFrame, ?gist_setTimer, ?gist_upd, ?fst_upd, ?snd_upd;
  cbn beta;
  unfold set_state, set_currentTime, set_direction, set_playbackRate,
    set_totalDuration, set_rafId, set_lastFrameTime, set_iterationCount,
    set_hasStarted;
  unfold gist;
  cbn [currentTime _totalDuration].

Lemma gist_pause (m : Machine) : gist (pause m) = gist m.
Proof.
  destruct m as [v e]. unfold pause, cancelFrame.
  cbn [upd set_state rafId]. destruct (rafId v); reflexivity.
Qed.

Lemma gist_play (m : Machine) :
  gist (play m)
  = (if PlaybackState_eqb (state (fst m)) finished
     then match direction (fst m) with
          | forward => 0
          | backward => _totalDuration (fst m)
          end
     else currentTime (fst m),
     _totalDuration (fst m), updates (snd m)).
Proof.
  destruct m as [[st ct d r tot raf last ic hs] e].
  destruct st, hs; reflexivity.
Qed.

Lemma gist_reverse (m : Machine) : gist (reverse m) = gist m.
Proof.
  destruct m as [[st ct d r tot raf last ic hs] e].
  destruct st; reflexivity.
Qed.

Lemma gist_resume (m : Machine) : gist (resume m) = gist m.
Proof.
  destruct m as [[st ct d r tot raf last ic hs] e].
  destruct st; reflexivity.
Qed.

(** The machine that [stop] hands to [emitUpdate]. *)
Lemma gist_stopped (m : Machine) :
  gist (upd (set_lastFrameTime None)
          (cancelFrame
             (upd (fun v => set_hasStarted false
                              (set_iterationCount 0
                                 (set_direction forward
                                    (set_currentTime 0
                                       (set_state idle v))))) m)))
  = (0, _totalDuration (fst m), updates (snd m)).
Proof.
  destruct m as [v e]. unfold cancelFrame.
  cbn [upd set_hasStarted set_iterationCount set_direction set_currentTime
       set_state rafId].
  destruct (rafId v); reflexivity.
Qed.

Hypothesis Hdur : 0 < duration (tl k).

Lemma inRange_update (time time' total : R)
  (ups : list (Interpolate.ActorState * R)) (st : Interpolate.ActorState)
  (t : R) :
  inRange (time, total, ups) ->
  0 <= time' <= total -> 0 <= t <= duration (tl k) ->
  inRange (time', total, ups ++ [(st, t)]).
Proof.
  intros (Htot & _ & Hups) Htime Ht. repeat split; try lra.
  apply Forall_app. split; [exact Hups|]. constructor; [exact Ht|constructor].
Qed.

Lemma inRange_time (time time' total : R)
  (ups : list (Interpolate.ActorState * R)) :
  inRange (time, total, ups) -> 0 <= time' <= total ->
  inRange (time', total, ups).
Proof. intros (Htot & _ & Hups) Htime. repeat split; try lra. exact Hups. Qed.

Lemma upperBound_inRange (m m' : Machine) :
  inRange (gist m) ->
  upperBound host fuel plugins k m = Some m' -> inRange (gist m').
Proof.
  intros Hin. unfold upperBound.
  destruct (emitUpdate host fuel plugins k (duration (tl k)) m)
    as [m1|] eqn:E1; [|discriminate].
  destruct (gist_emitUpdate _ _ _ E1) as [st H1].
  pose proof (gist_countIteration m1) as H2.
  destruct (countIteration k m1) as [m2 done]. cbn [fst] in H2.
  rewrite H1 in H2. unfold gist in H2. injection H2 as Ht Htot Hups.
  unfold gist in Hin.
  assert (Hpush : forall time',
            0 <= time' <= _totalDuration (fst m) ->
            inRange (time', _totalDuration (fst m),
                     updates (snd m) ++ [(st, duration (tl k))])).
  { intros time' Htime. eapply inRange_update; [exact Hin | exact Htime|].
    lra. }
  destruct Hin as (Hpos & Hrange & _).
  destruct done.
  - intros [= <-]. unfold gist. rewrite Ht, Htot, Hups. apply Hpush. lra.
  - cbv zeta.
    destruct (Rltb 0 (loopDelay k)); intros [= <-];
      destruct (loopDirection k); gist_crunch;
      rewrite ?Htot, ?Hups; apply Hpush; lra.
Qed.

Lemma lowerBound_inRange (m m' : Machine) :
  inRange (gist m) ->
  lowerBound host fuel plugins k m = Some m' -> inRange (gist m').
Proof.
  intros Hin. unfold lowerBound.
  destruct (emitUpdate host fuel plugins k 0 m) as [m1|] eqn:E1;
    [|discriminate].
  destruct (gist_emitUpdate _ _ _ E1) as [st H1].
  pose proof (gist_countIteration m1) as H2.
  destruct (countIteration k m1) as [m2 done]. cbn [fst] in H2.
  rewrite H1 in H2. unfold gist in H2. injection H2 as Ht Htot Hups.
  unfold gist in Hin.
  assert (Hpush : forall time',
            0 <= time' <= _totalDuration (fst m) ->
            inRange (time', _totalDuration (fst m),
                     updates (snd m) ++ [(st, 0)])).
  { intros time' Htime. eapply inRange_update; [exact Hin | exact Htime|].
    lra. }
  destruct Hin as (Hpos & Hrange & _).
  destruct done.
  - intros [= <-]. unfold gist. rewrite Ht, Htot, Hups. apply Hpush. lra.
  - cbv zeta. intros [= <-].
    destruct (loopDirection k); gist_crunch;
      rewrite ?Ht, ?Htot, ?Hups; apply Hpush; lra.
Qed.

Lemma tick_inRange (now : R) (m m' : Machine) :
  inRange (gist m) ->
  tick host fuel plugins k now m = Some m' -> inRange (gist m').
Proof.
  intros Hin. unfold tick.
  destruct (negb _); [now intros [= <-]|].
  destruct (lastFrameTime (fst m)) as [last|].
  2:{ intros [= <-]. gist_crunch. exact Hin. }
  cbv zeta. rewrite !fst_upd. cbn beta.
  set (delta := (now - last) * sign (direction (fst m))
                * Rabs (_playbackRate (fst m))).
  unfold set_currentTime, set_lastFrameTime.
  cbn [currentTime _totalDuration].
  pose proof Hin as (Hpos & Hrange & Hups). cbn [gist fst snd] in Hpos, Hrange, Hups.
  destruct (Rleb_cases (_totalDuration (fst m)) (currentTime (fst m) + delta))
    as [[Hup ->]|[Hup ->]].
  - apply upperBound_inRange. gist_crunch.
    apply (inRange_time (currentTime (fst m))); [exact Hin | lra].
  - destruct (Rleb_cases (currentTime (fst m) + delta) 0)
      as [[Hlo ->]|[Hlo ->]].
    + apply lowerBound_inRange. gist_crunch.
      apply (inRange_time (currentTime (fst m))); [exact Hin | lra].
    + match goal with
      | |- match emitUpdate _ _ _ _ ?t ?m0 with _ => _ end = _ -> _ =>
          destruct (emitUpdate host fuel plugins k t m0) as [m1|] eqn:E1;
            [|discriminate];
          destruct (gist_emitUpdate _ _ _ E1) as [st H1];
          assert (Ht : 0 <= t <= duration (tl k))
      end.
      { split; [|apply Rmin_r].
        apply Rmin_glb; [|lra].
        apply Rmult_le_pos; [lra|].
        apply Rmult_le_pos; [lra|]. left. now apply Rinv_0_lt_compat. }
      intros [= <-]. rewrite gist_requestFrame, gist_emit, H1. gist_crunch.
      eapply inRange_update; [exact Hin | lra | exact Ht].
Qed.


(** An action that keeps the total duration positive. *)
Definition steady (a : Action) : Prop :=
  match a with SetTotalDuration d => 0 < d | _ => True end.

Lemma progress_unit (v : Vars) :
  0 < _totalDuration v -> 0 <= currentTime v <= _totalDuration v ->
  0 <= progress v <= 1.
Proof.
  intros Hpos Hrange. unfold progress. rewrite Rltb_t by exact Hpos.
  split.
  - apply Rmult_le_pos; [lra|]. left. now apply Rinv_0_lt_compat.
  - apply Rmult_le_reg_r with (_totalDuration v); [exact Hpos|].
    unfold Rdiv. rewrite Rmult_assoc, Rinv_l by lra. lra.
Qed.

Lemma step_inRange (a : Action) (m m' : Machine) :
  steady a -> inRange (gist m) ->
  step host fuel plugins k a m = Some m' -> inRange (gist m').
Proof.
  intros Ha Hin. pose proof Hin as (Hpos & Hrange & Hups).
  cbn [gist fst snd] in Hpos, Hrange, Hups.
  destruct a as [now| | | | |timeMs| |rate|d]; cbn [step].
  - destruct m as [v e]. destruct (frames e) as [|h rest];
      [now intros [= <-]|].
    apply tick_inRange. exact Hin.
  - destruct m as [v e]. destruct (timers e) as [|h rest];
      [now intros [= <-]|].
    intros [= <-]. rewrite gist_resume. exact Hin.
  - intros [= <-]. rewrite gist_play.
    destruct (PlaybackState_eqb (state (fst m)) finished); [|exact Hin].
    destruct (direction (fst m)); repeat split; try lra; exact Hups.
  - intros [= <-]. rewrite gist_pause. exact Hin.
  - unfold stop. cbv zeta.
    match goal with
    | |- match emitUpdate _ _ _ _ ?t ?m0 with _ => _ end = _ -> _ =>
        destruct (emitUpdate host fuel plugins k t m0) as [m1|] eqn:E1;
          [|discriminate];
        destruct (gist_emitUpdate _ _ _ E1) as [st H1]
    end.
    pose proof (gist_stopped m) as Hpre. unfold gist in Hpre.
    injection Hpre as Hc Ht Hu. rewrite Hc, Ht, Hu in H1.
    intros [= <-]. rewrite gist_emit, H1.
    eapply inRange_update; [exact Hin | lra | lra].
  - unfold seek. cbv zeta. rewrite !fst_upd. cbn beta.
    unfold set_currentTime. cbn [currentTime _totalDuration].
    set (c := Rmax 0 (Rmin timeMs (_totalDuration (fst m)))).
    assert (Hc : 0 <= c <= _totalDuration (fst m)).
    { unfold c. split; [apply Rmax_l|].
      apply Rmax_lub; [lra | apply Rmin_r]. }
    match goal with
    | |- match emitUpdate _ _ _ _ ?t ?m0 with _ => _ end = _ -> _ =>
        destruct (emitUpdate host fuel plugins k t m0) as [m1|] eqn:E1;
          [|discriminate];
        destruct (gist_emitUpdate _ _ _ E1) as [st H1];
        assert (Ht : 0 <= t <= duration (tl k))
    end.
    { split; [|apply Rmin_r].
      apply Rmin_glb; [|lra].
      apply Rmult_le_pos; [lra|].
      apply Rmult_le_pos; [lra|]. left. now apply Rinv_0_lt_compat. }
    intros [= <-]. rewrite gist_emit, H1. gist_crunch.
    eapply inRange_update; [exact Hin | exact Hc | exact Ht].
  - intros [= <-]. rewrite gist_reverse. exact Hin.
  - intros [= <-]. unfold setPlaybackRate. gist_crunch. exact Hin.
  - intros [= <-]. unfold setTotalDuration. gist_crunch.
    cbn [steady] in Ha.
    pose proof (progress_unit (fst m) Hpos Hrange) as Hp.
    rewrite Rmax_right by lra.
    repeat split; try lra; try exact Hups; nra.
Qed.

Lemma run_inRange (acts : list Action) :
  Forall steady acts ->
  forall m m',
    inRange (gist m) ->
    run host fuel plugins k acts m = Some m' -> inRange (gist m').
Proof.
  induction 1 as [|a rest Ha _ IH]; intros m m' Hin; cbn [run].
  - now intros [= <-].
  - destruct (step host fuel plugins k a m) as [m1|] eqn:E; [|discriminate].
    apply IH. exact (step_inRange a m m1 Ha Hin E).
Qed.

Lemma step_returns (a : Action) (m : Machine) :
  Renders host fuel plugins k ->
  exists m', step host fuel plugins k a m = Some m'.
Proof.
  intro Hr. destruct a; cbn [step]; try (destruct m; eauto; fail).
  - destruct m as [v e]. destruct (frames e); [eauto|].
    now apply tick_total.
  - destruct m as [v e]. destruct (timers e); eauto.
  - unfold stop. cbv zeta.
    match goal with
    | |- context [emitUpdate _ _ _ _ ?t ?m0] =>
        destruct (emitUpdate_total host fuel plugins k t m0 Hr) as (m1 & ->)
    end. eauto.
  - unfold seek. cbv zeta.
    match goal with
    | |- context [emitUpdate _ _ _ _ ?t ?m0] =>
        destruct (emitUpdate_total host fuel plugins k t m0 Hr) as (m1 & ->)
    end. eauto.
Qed.

Lemma run_returns (acts : list Action) :
  Renders host fuel plugins k ->
  forall m, exists m', run host fuel plugins k acts m = Some m'.
Proof.
  intro Hr. induction acts as [|a rest IH]; intro m; cbn [run]; [eauto|].
  destruct (step_returns a m Hr) as (m1 & ->). apply IH.
Qed.

End Range.

(** X27. Whatever a controller is asked to do, in whatever order, its
    cursor stays between 0 and the total duration, and every state it
    hands to [onUpdate] is the state of the timeline at a time between
    0 and the timeline's duration, provided that duration and every
    total duration that is set are positive.  When the engine returns
    at every time, so does the controller. *)
Theorem cursor_stays_in_range (host : Host) (fuel : nat)
  (plugins : list Interpolate.MotionSvgPlugin) (h : Trigger.Heap)
  (options : PlaybackOptions) (w : Interpolate.World)
  (acts : list Action) :
  0 < duration (timeline options) ->
  Forall steady acts ->
  let k := fst (createPlayback h options) in
  let m0 := (snd (createPlayback h options), initEnv w) in
  (Renders host fuel plugins k ->
   exists m', run host fuel plugins k acts m0 = Some m') /\
  forall m',
    run host fuel plugins k acts m0 = Some m' ->
    0 <= currentTime (fst m') <= _totalDuration (fst m') /\
    Forall (fun u => 0 <= snd u <= duration (timeline options))
      (updates (snd m')).
Proof.
  intros Hdur Hacts k m0. split.
  - intro Hr. now apply run_returns.
  - intros m' Hrun.
    assert (Hk : duration (tl k) = duration (timeline options))
      by reflexivity.
    assert (H0 : inRange k (gist m0)).
    { unfold m0, gist, inRange. cbn [fst snd createPlayback currentTime
        _totalDuration initEnv updates].
      rewrite Hk. repeat split; try lra. constructor. }
    pose proof (run_inRange host fuel plugins k
                  ltac:(rewrite Hk; exact Hdur) acts Hacts m0 m' H0 Hrun)
      as (_ & Hrange & Hups).
    split; [exact Hrange|]. rewrite <- Hk. exact Hups.
Qed.

Lemma cursor_stays_in_range_witness :
  let k := fst (createPlayback [loopOf Trigger.normal] fadeInOptions) in
  let m0 := (snd (createPlayback [loopOf Trigger.normal] fadeInOptions),
             initEnv InterpolateFacts.world0) in
  let acts := [Play; Frame 0; Frame 50; Seek 20; SetTotalDuration 200;
               Frame 400; Reverse; Frame 900; Stop] in
  (Renders idleHost 0 [] k ->
   exists m', run idleHost 0 [] k acts m0 = Some m') /\
  forall m',
    run idleHost 0 [] k acts m0 = Some m' ->
    0 <= currentTime (fst m') <= _totalDuration (fst m') /\
    Forall (fun u => 0 <= snd u <= duration (timeline fadeInOptions))
      (updates (snd m')).
Proof.
  apply (cursor_stays_in_range idleHost 0 [] [loopOf Trigger.normal]
           fadeInOptions InterpolateFacts.world0
           [Play; Frame 0; Frame 50; Seek 20; SetTotalDuration 200;
            Frame 400; Reverse; Frame 900; Stop]).
  - cbn [fadeInOptions timeline fadeIn duration]. lra.
  - repeat (apply Forall_cons; [cbn [steady]; try exact I; lra|]).
    apply Forall_nil.
Defined.

End CursorFacts.

(* ------------------------------------------------------------------ *)
(** ** Easing ranges *)

Module EasingRange.
Import Easing EasingFacts.

(** The named curves that do not overshoot: all but the Back and the
    Elastic families. *)
Definition gentle : list string :=
  [ "linear"; "easeIn"; "easeOut"; "easeInOut";
    "easeInQuad"; "easeOutQuad"; "easeInOutQuad";
    "easeInCubic"; "easeOutCubic"; "easeInOutCubic";
    "easeInQuart"; "easeOutQuart"; "easeInOutQuart";
    "easeInBounce"; "easeOutBounce"; "easeInOutBounce" ]%string.

Definition unitary (f : EasingFunction) : Prop :=
  forall u, 0 <= u <= 1 -> 0 <= f u <= 1.

Lemma square_bound (s a : R) : - a <= s <= a -> s * s <= a * a.
Proof. intros H. nra. Qed.

Lemma bounceOut_unit : unitary bounceOut.
Proof.
  intros u Hu. unfold bounceOut. cbv zeta.
  destruct (Rltb_cases u (1 / 2.75)) as [[H1 ->]|[H1 ->]].
  { pose proof (square_bound u (1 / 2.75) ltac:(lra)). nra. }
  destruct (Rltb_cases u (2 / 2.75)) as [[H2 ->]|[H2 ->]].
  { pose proof (square_bound (u - 1.5 / 2.75) (0.5 / 2.75) ltac:(lra)).
    pose proof (Rle_0_sqr (u - 1.5 / 2.75)) as Hs. unfold Rsqr in Hs. nra. }
  destruct (Rltb_cases u (2.5 / 2.75)) as [[H3 ->]|[H3 ->]].
  { pose proof (square_bound (u - 2.25 / 2.75) (0.25 / 2.75) ltac:(lra)).
    pose proof (Rle_0_sqr (u - 2.25 / 2.75)) as Hs. unfold Rsqr in Hs. nra. }
  pose proof (square_bound (u - 2.625 / 2.75) (0.125 / 2.75) ltac:(lra)).
  pose proof (Rle_0_sqr (u - 2.625 / 2.75)) as Hs. unfold Rsqr in Hs. nra.
Qed.

Lemma table_gentle :
  Forall (fun nf : string * EasingFunction =>
            In (fst nf) gentle -> unitary (snd nf))
    easingFunctions.
Proof.
  unfold easingFunctions.
  repeat (apply Forall_cons; [cbn [fst snd]; intros Hin u Hu |]);
    try apply Forall_nil.
  all: try (exfalso; unfold gentle in Hin; cbn [In] in Hin;
            repeat (destruct Hin as [Hin|Hin]; [discriminate Hin|]);
            exact Hin).
  all: clear Hin.
  - lra.
  - pose proof (cos_ge_0 (u * PI / 2)) as H0. pose proof (COS_bound (u * PI / 2)).
    pose proof PI_RGT_0. assert (0 <= cos (u * PI / 2)) by (apply H0; nra). lra.
  - pose proof (sin_ge_0 (u * PI / 2)) as H0. pose proof (SIN_bound (u * PI / 2)).
    pose proof PI_RGT_0. assert (0 <= sin (u * PI / 2)) by (apply H0; nra). lra.
  - pose proof (COS_bound (PI * u)). lra.
  - nra.
  - nra.
  - destruct (Rltb_cases u 0.5) as [[H ->]|[H ->]]; nra.
  - assert (0 <= u * u <= 1) by nra. nra.
  - assert (0 <= (1 - u) * (1 - u) <= 1) by nra. simpl pow. nra.
  - destruct (Rltb_cases u 0.5) as [[H ->]|[H ->]].
    + assert (0 <= u * u <= 0.25) by nra. nra.
    + assert (0 <= (1 - u) * (1 - u) <= 0.25) by nra. simpl pow. nra.
  - assert (0 <= u * u <= 1) by nra. nra.
  - assert (0 <= (1 - u) * (1 - u) <= 1) by nra. simpl pow. nra.
  - destruct (Rltb_cases u 0.5) as [[H ->]|[H ->]].
    + assert (0 <= u * u <= 0.25) by nra. nra.
    + assert (0 <= (1 - u) * (1 - u) <= 0.25) by nra. simpl pow. nra.
  - pose proof (bounceOut_unit (1 - u) ltac:(lra)). lra.
  - now apply bounceOut_unit.
  - destruct (Rltb_cases u 0.5) as [[H ->]|[H ->]].
    + pose proof (bounceOut_unit (1 - 2 * u) ltac:(lra)). lra.
    + pose proof (bounceOut_unit (2 * u - 1) ltac:(lra)). lra.
Qed.

(** X28. While the registry holds the built-in table, every named curve
    outside the Back and Elastic families keeps the unit interval
    within itself, and so does the easing of a missing descriptor. *)
Theorem gentle_easings_unit (host : Host) (curve : option EasingCurve) :
  easingRegistry host = easingFunctions ->
  curve = None \/ (exists name, curve = Some (EasingNamed name) /\
                                In name gentle) ->
  forall u, 0 <= u <= 1 -> 0 <= getEasingFunction host curve u <= 1.
Proof.
  intros Hreg [->|(name & -> & Hin)] u Hu; cbn [getEasingFunction].
  - exact Hu.
  - destruct (String.eqb name ""); [exact Hu|].
    rewrite Hreg.
    destruct (lookup name easingFunctions) as [f|] eqn:E; cbn [orElse];
      [|exact Hu].
    apply lookup_In in E.
    pose proof table_gentle as T. rewrite Forall_forall in T.
    exact (T _ E Hin u Hu).
Qed.

Lemma gentle_easings_unit_witness :
  0 <= getEasingFunction idleHost (Some (EasingNamed "easeInOutBounce"))
         (1 / 3) <= 1.
Proof.
  apply (gentle_easings_unit idleHost
           (Some (EasingNamed "easeInOutBounce")) eq_refl).
  - right. exists "easeInOutBounce"%string. split; [reflexivity|].
    unfold gentle. cbn [In]. tauto.
  - lra.
Defined.

End EasingRange.

(* ------------------------------------------------------------------ *)
(** ** Arcs *)

Module ArcFacts.
Import PathMorph.

Lemma angleBetween_bound (ux uy vx vy : R) :
  - PI <= angleBetween ux uy vx vy <= PI.
Proof.
  unfold angleBetween. cbv zeta.
  pose proof (acos_bound
    (Rmax (-1) (Rmin 1 ((ux * vx + uy * vy)
       / (sqrt (ux * ux + uy * uy) * sqrt (vx * vx + vy * vy)))))) as H.
  destruct (Rltb (ux * vy - uy * vx) 0); lra.
Qed.

Lemma ceil_le (x : R) (n : BinNums.Z) : x <= IZR n -> (ceil x <= n)%Z.
Proof.
  intro H. unfold ceil, floor.
  destruct (archimed (- x)) as [Hup _].
  assert (Hlt : IZR (- n) < IZR (up (- x))).
  { rewrite opp_IZR. lra. }
  apply lt_IZR in Hlt. lia.
Qed.

(** The sweep of an arc after the two corrections of its sign. *)
Lemma sweep_bound (sweep d0 : R) :
  - PI <= d0 <= PI ->
  let d1 := if Reqb sweep 0 && Rltb 0 d0 then d0 - 2 * PI else d0 in
  let d := if Reqb sweep 1 && Rltb d1 0 then d1 + 2 * PI else d1 in
  (Z.to_nat (ceil (Rabs d / (PI / 2))) <= 4)%nat.
Proof.
  intros Hb d1 d.
  pose proof PI_RGT_0 as Hpi.
  assert (Hd : Rabs d <= 2 * PI).
  { unfold d, d1.
    destruct (Reqb_cases sweep 0) as [[Hs0 ->]|[Hs0 ->]];
      destruct (Reqb_cases sweep 1) as [[Hs1 ->]|[Hs1 ->]];
      try lra; cbn [andb].
    - destruct (Rltb_cases 0 d0) as [[H0 ->]|[H0 ->]];
        apply Rabs_le; lra.
    - destruct (Rltb_cases d0 0) as [[H0 ->]|[H0 ->]];
        apply Rabs_le; lra.
    - apply Rabs_le; lra. }
  assert (Hq : Rabs d / (PI / 2) <= IZR 4).
  { apply Rmult_le_reg_r with (PI / 2); [lra|].
    unfold Rdiv at 1. rewrite Rmult_assoc, Rinv_l by lra. lra. }
  apply ceil_le in Hq. lia.
Qed.

Lemma length_if {A : Type} (c : bool) (l1 l2 : list A) (n : nat) :
  (List.length l1 <= n)%nat -> (List.length l2 <= n)%nat ->
  (List.length (if c then l1 else l2) <= n)%nat.
Proof. destruct c; auto. Qed.

Lemma if_true_eq {A : Type} (c : bool) (a b : A) :
  c = true -> (if c then a else b) = a.
Proof. now intros ->. Qed.

Lemma length_pieces {A : Type} (f : nat -> A) (n m : nat) :
  (n <= m)%nat -> (List.length (map f (seq 0 n)) <= m)%nat.
Proof. now rewrite length_map, length_seq. Qed.

(** Move the definitions that a list is built under in front of the
    bound on its length. *)
Ltac pull_lets :=
  repeat match goal with
  | |- (List.length (let a := ?e in @?b a) <= ?n)%nat =>
      change (let a := e in (List.length (b a) <= n)%nat);
      intro; cbv beta
  end.

Lemma arc_pieces (x1 y1 rx ry rot largeArc sweep x2 y2 : R) :
  (List.length (arcToCubics x1 y1 rx ry rot largeArc sweep x2 y2) <= 4)%nat.
Proof.
  cbv beta delta [arcToCubics]. apply length_if; [cbn; lia|].
  pull_lets.
  apply length_pieces.
  apply sweep_bound. apply angleBetween_bound.
Qed.

Lemma arc_flat (x1 y1 rx ry rot largeArc sweep x2 y2 : R) :
  rx = 0 \/ ry = 0 ->
  arcToCubics x1 y1 rx ry rot largeArc sweep x2 y2
  = [lineToCubic x1 y1 x2 y2].
Proof.
  intro H. cbv beta delta [arcToCubics]. apply if_true_eq.
  destruct H as [-> | ->]; rewrite (Reqb_t 0 0) by reflexivity;
    [reflexivity | apply orb_true_r].
Qed.

(** X29. An elliptical arc becomes at most four cubic segments, and
    exactly one, a straight one, when a radius is zero. *)
Theorem arc_at_most_four (x1 y1 rx ry rot largeArc sweep x2 y2 : R) :
  (List.length (arcToCubics x1 y1 rx ry rot largeArc sweep x2 y2) <= 4)%nat /\
  (rx = 0 \/ ry = 0 ->
   arcToCubics x1 y1 rx ry rot largeArc sweep x2 y2
   = [lineToCubic x1 y1 x2 y2]).
Proof. split; [apply arc_pieces | apply arc_flat]. Qed.

Lemma arc_at_most_four_witness :
  (List.length (arcToCubics 0 0 0 5 0 0 1 10 10) <= 4)%nat /\
  (0 = 0 \/ 5 = 0 ->
   arcToCubics 0 0 0 5 0 0 1 10 10 = [lineToCubic 0 0 10 10]).
Proof. exact (arc_at_most_four 0 0 0 5 0 0 1 10 10). Defined.

End ArcFacts.

(* ------------------------------------------------------------------ *)
(** ** The animation store *)

Module StoreFacts.
Import AnimationStore.

Inductive Call :=
| Set_ (actorId : string) (state : Interpolate.ActorState)
| SetMany (updates : Dict)
| Reset (initial : Dict)
| Subscribe (listener : nat)
| Unsubscribe (listener : nat)
| Microtask.

Definition perform (s : Store) (op : Call) : Store :=
  match op with
  | Set_ actorId state => set actorId state s
  | SetMany updates => setMany updates s
  | Reset initial => reset initial s
  | Subscribe l => subscribe l s
  | Unsubscribe l => unsubscribe l s
  | Microtask => runMicrotask s
  end.

Definition performed (ops : list Call) : Store := fold_left perform ops create.

(** An update that is published by a batch, not at once. *)
Definition isWrite (op : Call) : bool :=
  match op with Set_ _ _ | SetMany _ => true | _ => false end.

(** What holds of a store between any two operations. *)
Definition consistent (s : Store) : Prop :=
  microtasks s = (if _batchScheduled s then 1 else 0)%nat /\
  (_dirty s = true -> _batchScheduled s = true) /\
  (_dirty s = false -> _snapshot s = _states s).

Lemma perform_consistent (s : Store) (op : Call) :
  consistent s -> consistent (perform s op).
Proof.
  intros (Hq & Hd & Hs). destruct s as [st ls sn d b q n].
  cbn [microtasks _batchScheduled _dirty _snapshot _states] in *.
  destruct op; cbn [perform]; unfold set, setMany, reset, subscribe,
    unsubscribe, runMicrotask, batch, _flush, _scheduleBatch, consistent;
    cbn [microtasks _batchScheduled _dirty _snapshot _states _listeners
         notified].
  - destruct b; cbn; repeat split; auto; discriminate.
  - destruct b; cbn; repeat split; auto; discriminate.
  - repeat split; auto; discriminate.
  - repeat split; auto.
  - repeat split; auto.
  - destruct q as [|q']; [repeat split; auto|].
    destruct b; [|discriminate]. injection Hq as ->.
    destruct d; cbn; repeat split; auto; discriminate.
Qed.

Lemma performed_snoc (ops : list Call) (op : Call) :
  performed (ops ++ [op]) = perform (performed ops) op.
Proof. unfold performed. now rewrite fold_left_app. Qed.

Lemma performed_consistent (ops : list Call) : consistent (performed ops).
Proof.
  induction ops as [|op ops IH] using rev_ind.
  - repeat split; auto; discriminate.
  - rewrite performed_snoc. now apply perform_consistent.
Qed.

Lemma writes_pending (ws : list Call) :
  forallb isWrite ws = true -> ws <> [] ->
  forall s,
    let s' := fold_left perform ws s in
    _dirty s' = true /\ _snapshot s' = _snapshot s /\
    _listeners s' = _listeners s /\ notified s' = notified s.
Proof.
  induction ws as [|w ws IH] using rev_ind; intros Hall Hne s;
    [contradiction|].
  rewrite forallb_app in Hall. apply andb_prop in Hall.
  destruct Hall as [Hws Hw]. cbn [forallb] in Hw. rewrite andb_true_r in Hw.
  cbv zeta. rewrite fold_left_app. cbn [fold_left].
  set (s1 := fold_left perform ws s).
  assert (H1 : _snapshot s1 = _snapshot s /\ _listeners s1 = _listeners s /\
               notified s1 = notified s).
  { destruct ws as [|w0 ws0]; [repeat split|].
    destruct (IH Hws ltac:(discriminate) s) as (_ & ? & ? & ?). tauto. }
  destruct H1 as (Hsn & Hls & Hn).
  destruct w; try discriminate; cbn [perform]; unfold set, setMany,
    _scheduleBatch; cbn [_batchScheduled];
    destruct (_batchScheduled s1); cbn; tauto.
Qed.

(** X30. Updates are published in batches: whatever was done to the
    store before, a run of [set] and [setMany] calls leaves the
    snapshot and the listeners untouched, and the one microtask they
    leave queued then publishes every state written and calls each
    listener exactly once, in the order of subscription.  At no time is
    more than one microtask queued. *)
Theorem updates_batched (ops ws : list Call) :
  forallb isWrite ws = true -> ws <> [] ->
  let s := performed ops in
  let s1 := fold_left perform ws s in
  let s2 := perform s1 Microtask in
  (microtasks s <= 1)%nat /\
  _snapshot s1 = _snapshot s /\ notified s1 = notified s /\
  microtasks s1 = 1%nat /\
  _snapshot s2 = _states s1 /\
  notified s2 = rev (_listeners s) ++ notified s /\
  microtasks s2 = 0%nat.
Proof.
  intros Hall Hne s s1 s2.
  pose proof (performed_consistent ops) as (Hq & _ & _). fold s in Hq.
  pose proof (performed_consistent (ops ++ ws)) as Hc.
  unfold performed in Hc. rewrite fold_left_app in Hc.
  fold (performed ops) in Hc.
  fold s s1 in Hc. destruct Hc as (Hq1 & Hd1 & _).
  destruct (writes_pending ws Hall Hne s) as (Hdirty & Hsn & Hls & Hn).
  fold s1 in Hdirty, Hsn, Hls, Hn.
  specialize (Hd1 Hdirty). rewrite Hd1 in Hq1.
  split; [rewrite Hq; destruct (_batchScheduled s); lia|].
  split; [exact Hsn|]. split; [exact Hn|]. split; [exact Hq1|].
  unfold s2. cbn [perform]. unfold runMicrotask. rewrite Hq1.
  unfold batch. cbn [_dirty]. rewrite Hdirty. unfold _flush.
  cbn [_snapshot _states notified _listeners microtasks].
  rewrite Hls, Hn. repeat split.
Qed.

Lemma updates_batched_witness :
  let ops := [Subscribe 1; Subscribe 2;
              Set_ "a" Interpolate.defaultState; Microtask] in
  let ws := [Set_ "a" Interpolate.defaultState;
             Set_ "b" Interpolate.defaultState; SetMany noStates] in
  let s := performed ops in
  let s1 := fold_left perform ws s in
  let s2 := perform s1 Microtask in
  (microtasks s <= 1)%nat /\
  _snapshot s1 = _snapshot s /\ notified s1 = notified s /\
  microtasks s1 = 1%nat /\
  _snapshot s2 = _states s1 /\
  notified s2 = rev (_listeners s) ++ notified s /\
  microtasks s2 = 0%nat.
Proof.
  apply (updates_batched
           [Subscribe 1; Subscribe 2;
            Set_ "a" Interpolate.defaultState; Microtask]
           [Set_ "a" Interpolate.defaultState;
            Set_ "b" Interpolate.defaultState; SetMany noStates]);
    [reflexivity | discriminate].
Defined.

End StoreFacts.
